(** * NeuroGrid: a lights-out engine on a 5x5 grid

    Shallow embedding of [src/app/page.tsx]: the toggle matrix, the GF(2)
    solver, the board mutator, the puzzle generator and the solution
    planner, followed by the properties proved about them.

    - JavaScript arrays are lists of cells; a cell is a number, [undefined]
      or a hole, and [^], [&] and [===] are those of the language.
    - The arrays that [buildToggleMatrix] and [gaussianEliminationGF2]
      allocate, copy and mutate live in an explicit store: a matrix is an
      array of references to its rows, so that aliasing between the
      caller's matrix and the solver's working copy is visible.
    - The solver's loops are written once, over the memory operations they
      use, and run both on the store and on plain values; the store run is
      proved to do what the value run does, and the value run is where the
      algebra (linearity over GF(2)) is proved.
    - [toggleCell], [isSolved] and the planner return fresh arrays of
      numbers and are functions on lists. *)

From Stdlib Require Import ZArith List Bool Lia Sorting.Sorted Permutation.
From stdpp Require Import base tactics option list numbers sorting.
From Stdlib Require Import QArith Qround Qabs Lqa.

Set Default Proof Using "Type".
Open Scope Z_scope.

(** ** JavaScript values *)

(** A cell of an array of numbers: a hole (never written), [undefined], or an
    integer-valued number. *)
Inductive cell :=
| Hole
| Undef
| Num (z : Z).

#[global] Instance cell_eq_dec : EqDecision cell.
Proof. solve_decision. Defined.

(** A number used as an index or a coordinate: [NaN] or an integer
    (the sign of a zero is not kept: [-0] behaves as [0] in every
    comparison and sum below). *)
Inductive number :=
| NaN
| Int (z : Z).

#[global] Instance number_eq_dec : EqDecision number.
Proof. solve_decision. Defined.

(** [Number.isSafeInteger]: the integers below 2^53 in absolute value.  The
    numbers of the program are doubles; on safe integers whose results are
    safe their sums, products, [Math.floor] of quotients by [GRID_SIZE] and
    remainders are exact, and are the operations of [Z] used below.  Past
    the safe integers a double operation rounds (2^53 + 1 is 2^53), so a
    statement about the value of such a result carries this bound. *)
Definition safe_integer (z : Z) : Prop := - 2 ^ 53 < z < 2 ^ 53.

(** ToInt32 on an integer: wrap-around modulo 2^32 into [-2^31, 2^31). *)
Definition wrap32 (z : Z) : Z := (z + 2 ^ 31) mod 2 ^ 32 - 2 ^ 31.

(** ToInt32(ToNumber v): [undefined] becomes NaN, then 0. *)
Definition to_int32 (v : cell) : Z :=
  match v with
  | Num z => wrap32 z
  | _ => 0
  end.

(** [a ^ b] and [a & b]. *)
Definition js_xor (a b : cell) : cell := Num (Z.lxor (to_int32 a) (to_int32 b)).
Definition js_and (a b : cell) : cell := Num (Z.land (to_int32 a) (to_int32 b)).

(** [v === n] for a number literal [n]. *)
Definition strict_eq (v : cell) (n : Z) : bool :=
  match v with
  | Num z => Z.eqb z n
  | _ => false
  end.

(** [a[i]] for a natural index: a hole or a missing element reads as
    [undefined]. *)
Definition js_get (a : list cell) (i : nat) : cell :=
  match a !! i with
  | Some (Num z) => Num z
  | _ => Undef
  end.

(** [a[i] = v] for a natural index: in range the element is replaced, out
    of range the array grows and the gap is left as holes. *)
Definition js_set (a : list cell) (i : nat) (v : cell) : list cell :=
  if decide (i < length a)%nat then <[i:=v]> a
  else a ++ replicate (i - length a) Hole ++ [v].

(** [[...a]]: a fresh array; holes are read, so they become [undefined]. *)
Definition spread (a : list cell) : list cell :=
  map (fun v => match v with Hole => Undef | _ => v end) a.

(** [a.every(p)]: holes are skipped. *)
Definition every (p : cell -> bool) (a : list cell) : bool :=
  forallb (fun v => match v with Hole => true | _ => p v end) a.

(** [Array(n).fill(v)]. *)
Definition filled (n : nat) (v : cell) : list cell := replicate n v.

(** Arithmetic and comparisons on [number]: anything with NaN is NaN, and
    every comparison with NaN is false. *)
Definition num_add (a b : number) : number :=
  match a, b with
  | Int x, Int y => Int (x + y)
  | _, _ => NaN
  end.

Definition num_mul (a b : number) : number :=
  match a, b with
  | Int x, Int y => Int (x * y)
  | _, _ => NaN
  end.

(** [Math.floor(a / d)] for a positive integer literal [d]. *)
Definition floor_div (a : number) (d : Z) : number :=
  match a with
  | Int x => Int (x / d)
  | NaN => NaN
  end.

(** [a % d]: the remainder has the sign of the dividend. *)
Definition num_rem (a : number) (d : Z) : number :=
  match a with
  | Int x => Int (Z.rem x d)
  | NaN => NaN
  end.

Definition num_ge (a : number) (n : Z) : bool :=
  match a with
  | Int x => Z.leb n x
  | NaN => false
  end.

Definition num_lt (a : number) (n : Z) : bool :=
  match a with
  | Int x => Z.ltb x n
  | NaN => false
  end.

(** [a[k]] and [a[k] = v] when the index is a [number]: only a
    non-negative integer names an element. *)
Definition js_get_at (a : list cell) (k : number) : cell :=
  match k with
  | Int z => if decide (0 <= z) then js_get a (Z.to_nat z) else Undef
  | NaN => Undef
  end.

Definition js_set_at (a : list cell) (k : number) (v : cell) : list cell :=
  match k with
  | Int z => if decide (0 <= z) then js_set a (Z.to_nat z) v else a
  | NaN => a
  end.

(** ** Grid constants and coordinates *)

Definition GRID_SIZE : Z := 5.
Definition BOARD_CELLS : Z := GRID_SIZE * GRID_SIZE.

Record GameSnapshot := mkSnapshot {
  board : list cell;
  moves : Z
}.

Definition baseOffsets : list (Z * Z) :=
  [(0, 0); (1, 0); (-1, 0); (0, 1); (0, -1)].

Definition coordToIndex (row col : number) : number :=
  num_add (num_mul row (Int GRID_SIZE)) col.

Definition indexToCoord (index : number) : number * number :=
  (floor_div index GRID_SIZE, num_rem index GRID_SIZE).

Definition in_grid (nr nc : number) : bool :=
  num_ge nr 0 && num_lt nr GRID_SIZE && num_ge nc 0 && num_lt nc GRID_SIZE.

(** ** Board mutator *)

Definition isSolved (board : list cell) : bool :=
  every (fun v => strict_eq v 0) board.

(** One turn of the loop over [baseOffsets] in [toggleCell]. *)
Definition toggle_offset (row col : number) (next : list cell) (off : Z * Z)
  : list cell :=
  let nr := num_add row (Int (fst off)) in
  let nc := num_add col (Int (snd off)) in
  if in_grid nr nc then
    let neighborIndex := coordToIndex nr nc in
    js_set_at next neighborIndex (js_xor (js_get_at next neighborIndex) (Num 1))
  else next.

Definition toggleCell (board : list cell) (index : number) : list cell :=
  let next := spread board in
  let '(row, col) := indexToCoord index in
  fold_left (toggle_offset row col) baseOffsets next.

(** The state update of [makeMove]: the function passed to [setSnapshot]. *)
Definition makeMove (current : GameSnapshot) (index : number) : GameSnapshot :=
  {| board := toggleCell (board current) index;
     moves := moves current + 1 |}.

(** The all-zero board, [Array(BOARD_CELLS).fill(0)]. *)
Definition zero_board : list cell := filled (Z.to_nat BOARD_CELLS) (Num 0).

(** A cell holding 0 or 1, and a board: 25 such cells. *)
Definition is_bit (v : cell) : bool :=
  match v with
  | Num 0 | Num 1 => true
  | _ => false
  end.

Definition is_board (b : list cell) : Prop :=
  length b = Z.to_nat BOARD_CELLS /\ forallb is_bit b = true.

(** The indices of the cells holding 1. *)
Definition set_bits (b : list cell) : list nat :=
  filter (fun i => strict_eq (js_get b i) 1 = true) (seq 0 (length b)).


(** ** The store

    The solver receives references to the caller's arrays.  Arrays are
    objects in a store; a matrix is an array of references to its rows. *)

Abbreviation loc := nat.

Inductive obj :=
| Nums (a : list cell)
| Refs (a : list loc).

Abbreviation store := (list obj).

(** Computations over a state [S] that may throw (a [TypeError], or a
    reference that names no object of the expected kind). *)
Definition St (T A : Type) : Type := T -> option (A * T).

#[global] Instance St_ret {T} : MRet (St T) := fun A x s => Some (x, s).
#[global] Instance St_bind {T} : MBind (St T) :=
  fun A B f m s =>
    match m s with
    | Some (x, s') => f x s'
    | None => None
    end.

Definition throw {T A} : St T A := fun _ => None.

(** [for (x of l) body(x)]. *)
Fixpoint for_each {T X} (l : list X) (body : X -> St T unit) : St T unit :=
  match l with
  | [] => mret tt
  | x :: l' => _ ← body x; for_each l' body
  end.

Definition alloc (o : obj) : St store loc :=
  fun h => Some (length h, h ++ [o]).

Definition nums_at (l : loc) : St store (list cell) :=
  fun h => match h !! l with
           | Some (Nums a) => Some (a, h)
           | _ => None
           end.

Definition refs_at (l : loc) : St store (list loc) :=
  fun h => match h !! l with
           | Some (Refs a) => Some (a, h)
           | _ => None
           end.

Definition put (l : loc) (o : obj) : St store unit :=
  fun h => if decide (l < length h)%nat then Some (tt, <[l:=o]> h) else None.

(** [m[r]] for an array of references: the row object, or a [TypeError]
    when a property of the missing row is then read. *)
Definition row_at (m : loc) (r : nat) : St store loc :=
  rs ← refs_at m;
  match rs !! r with
  | Some l => mret l
  | None => throw
  end.

(** ** Memory operations of the solver

    The statements of [gaussianEliminationGF2] on its working copies
    [matrix] and [vector], as an interface with two instances: the store
    (arrays by reference) and plain values. *)

Record mem_ops (T : Type) := {
  m_get : nat -> nat -> St T cell;           (* matrix[r][c] *)
  m_set : nat -> nat -> cell -> St T unit;   (* matrix[r][c] = v *)
  m_swap : nat -> nat -> St T unit;
    (* [matrix[a], matrix[b]] = [matrix[b], matrix[a]] *)
  m_every_zero : nat -> St T bool;
    (* matrix[r].every((value) => value === 0) *)
  v_get : nat -> St T cell;                  (* vector[i] *)
  v_set : nat -> cell -> St T unit           (* vector[i] = v *)
}.

Arguments m_get {T} _ _ _.
Arguments m_set {T} _ _ _ _.
Arguments m_swap {T} _ _ _.
Arguments m_every_zero {T} _ _.
Arguments v_get {T} _ _.
Arguments v_set {T} _ _ _.

(** The store instance: [matrix] is an array of references to rows. *)
Definition store_mem (matrix vector : loc) : mem_ops store := {|
  m_get r c := l ← row_at matrix r; a ← nums_at l; mret (js_get a c);
  m_set r c v := l ← row_at matrix r; a ← nums_at l; put l (Nums (js_set a c v));
  m_swap a b :=
    rb ← row_at matrix b;
    ra ← row_at matrix a;
    rs ← refs_at matrix;
    _ ← put matrix (Refs (<[a:=rb]> rs));
    rs' ← refs_at matrix;
    put matrix (Refs (<[b:=ra]> rs'));
  m_every_zero r :=
    l ← row_at matrix r; a ← nums_at l; mret (every (fun v => strict_eq v 0) a);
  v_get i := a ← nums_at vector; mret (js_get a i);
  v_set i v := a ← nums_at vector; put vector (Nums (js_set a i v))
|}.

(** The value instance: a matrix is a list of rows. *)
Definition value_state : Type := list (list cell) * list cell.

Definition with_row {A} (r : nat) (k : list cell -> St value_state A)
  : St value_state A :=
  fun s => match s.1 !! r with
           | Some row => k row s
           | None => None
           end.

Definition value_mem : mem_ops value_state := {|
  m_get r c := with_row r (fun row => mret (js_get row c));
  m_set r c v :=
    with_row r (fun row s => Some (tt, (<[r:=js_set row c v]> s.1, s.2)));
  m_swap a b :=
    with_row b (fun rb => with_row a (fun ra s =>
      Some (tt, (<[b:=ra]> (<[a:=rb]> s.1), s.2))));
  m_every_zero r :=
    with_row r (fun row => mret (every (fun v => strict_eq v 0) row));
  v_get i := fun s => Some (js_get s.2 i, s);
  v_set i v := fun s => Some (tt, (s.1, js_set s.2 i v))
|}.

(** ** GF(2) solver *)

Section Solver.
Context {T : Type} (mem : mem_ops T).

(** [while (pivotRow < rows && matrix[pivotRow][col] === 0) pivotRow++],
    over the rows from [currentRow] up: the first row whose entry in
    [col] is not 0, or [rows]. *)
Fixpoint find_pivot (rows col : nat) (candidates : list nat) : St T nat :=
  match candidates with
  | [] => mret rows
  | pivotRow :: rest =>
      v ← m_get mem pivotRow col;
      if strict_eq v 0 then find_pivot rows col rest else mret pivotRow
  end.

(** The two swaps after a pivot is found below [currentRow]. *)
Definition swap_rows (currentRow pivotRow : nat) : St T unit :=
  _ ← m_swap mem currentRow pivotRow;
  a ← v_get mem pivotRow;
  b ← v_get mem currentRow;
  _ ← v_set mem currentRow a;
  v_set mem pivotRow b.

(** [for (k = col; k < cols; k++) matrix[row][k] ^= matrix[currentRow][k]]. *)
Definition xor_row (cols col currentRow row : nat) : St T unit :=
  for_each (seq col (cols - col)) (fun k =>
    a ← m_get mem row k;
    b ← m_get mem currentRow k;
    m_set mem row k (js_xor a b)).

(** The loop over all rows that clears column [col] outside the pivot row. *)
Definition clear_column (rows cols col currentRow : nat) : St T unit :=
  for_each (seq 0 rows) (fun row =>
    if negb (Nat.eqb row currentRow) then
      v ← m_get mem row col;
      if strict_eq v 1 then
        _ ← xor_row cols col currentRow row;
        a ← v_get mem row;
        b ← v_get mem currentRow;
        v_set mem row (js_xor a b)
      else mret tt
    else mret tt).

(** The loop [for (col = 0; col < cols && currentRow < rows; col++)], over
    the columns still to visit, with the locals [currentRow] and
    [pivotColumns]. *)
Fixpoint forward (rows cols : nat) (columns : list nat) (currentRow : nat)
    (pivotColumns : list Z) : St T (nat * list Z) :=
  match columns with
  | [] => mret (currentRow, pivotColumns)
  | col :: rest =>
      if (currentRow <? rows)%nat then
        pivotRow ← find_pivot rows col (seq currentRow (rows - currentRow));
        if (pivotRow =? rows)%nat then
          forward rows cols rest currentRow pivotColumns
        else
          _ ← (if negb (pivotRow =? currentRow)%nat
               then swap_rows currentRow pivotRow else mret tt);
          _ ← clear_column rows cols col currentRow;
          forward rows cols rest (S currentRow)
            (<[currentRow:=Z.of_nat col]> pivotColumns)
      else mret (currentRow, pivotColumns)
  end.

(** The consistency check: [true] when the source returns [null]. *)
Fixpoint inconsistent (rows_left : list nat) : St T bool :=
  match rows_left with
  | [] => mret false
  | row :: rest =>
      sum ← m_every_zero mem row;
      v ← v_get mem row;
      if sum && strict_eq v 1 then mret true else inconsistent rest
  end.

(** The inner loop of the back-substitution, from [pivotCol + 1]. *)
Fixpoint accumulate (row : nat) (columns : list nat) (solution : list cell)
    (accum : cell) : St T cell :=
  match columns with
  | [] => mret accum
  | col :: rest =>
      v ← m_get mem row col;
      accumulate row rest solution
        (if strict_eq v 1 then js_xor accum (js_get solution col) else accum)
  end.

(** The loop [for (row = currentRow - 1; row >= 0; row--)].  A row below
    [currentRow] is within [pivotColumns], whose length is [rows]. *)
Fixpoint back_substitute (cols : nat) (pivotColumns : list Z)
    (rows_down : list nat) (solution : list cell) : St T (list cell) :=
  match rows_down with
  | [] => mret solution
  | row :: rest =>
      let pivotCol := default (-1) (pivotColumns !! row) in
      if pivotCol =? -1 then
        back_substitute cols pivotColumns rest solution
      else
        let first := Z.to_nat (pivotCol + 1) in
        accum0 ← v_get mem row;
        accum ← accumulate row (seq first (cols - first)) solution accum0;
        back_substitute cols pivotColumns rest
          (js_set solution (Z.to_nat pivotCol) (js_and accum (Num 1)))
  end.

(** The body of [gaussianEliminationGF2] after the copies are made:
    [None] is [null]. *)
Definition eliminate (rows cols : nat) : St T (option (list cell)) :=
  '(currentRow, pivotColumns) ←
    forward rows cols (seq 0 cols) 0%nat (replicate rows (-1));
  bad ← inconsistent (seq currentRow (rows - currentRow));
  if (bad : bool) then mret None
  else
    solution ← back_substitute cols pivotColumns (rev (seq 0 currentRow))
                 (filled cols (Num 0));
    mret (Some solution).
End Solver.

(** [inputMatrix.map((row) => [...row])]: one fresh row per input row. *)
Fixpoint copy_rows (rows : list loc) : St store (list loc) :=
  match rows with
  | [] => mret []
  | r :: rest =>
      a ← nums_at r;
      l ← alloc (Nums (spread a));
      ls ← copy_rows rest;
      mret (l :: ls)
  end.

Definition gaussianEliminationGF2 (inputMatrix inputVector : loc)
  : St store (option (list cell)) :=
  input_rows ← refs_at inputMatrix;
  let rows := length input_rows in
  first ← match input_rows with
          | [] => throw
          | r :: _ => nums_at r
          end;
  let cols := length first in
  copies ← copy_rows input_rows;
  matrix ← alloc (Refs copies);
  input ← nums_at inputVector;
  vector ← alloc (Nums (spread input));
  eliminate (store_mem matrix vector) rows cols.

(** The same algorithm on values. *)
Definition gauss_values (m : list (list cell)) (v : list cell)
  : option (option (list cell)) :=
  match m with
  | [] => None
  | first :: _ =>
      fst <$> eliminate value_mem (length m) (length first)
                (map spread m, spread v)
  end.

(** A store holding exactly a matrix and a vector: the rows at
    [0 .. length m - 1], then the matrix, then the vector. *)
Definition store_of (m : list (list cell)) (v : list cell) : store :=
  map Nums m ++ [Refs (seq 0 (length m)); Nums v].

(** [solve]: the solver run on references to [m] and [v]. *)
Definition solve (m : list (list cell)) (v : list cell)
  : option (option (list cell)) :=
  fst <$> gaussianEliminationGF2 (length m) (S (length m)) (store_of m v).

(** ** Toggle matrix *)

(** [Array.from({ length: n }, () => Array(BOARD_CELLS).fill(0))]: the
    callback makes a new row at every call. *)
Fixpoint fresh_rows (n : nat) : St store (list loc) :=
  match n with
  | O => mret []
  | S n' =>
      l ← alloc (Nums (filled (Z.to_nat BOARD_CELLS) (Num 0)));
      ls ← fresh_rows n';
      mret (l :: ls)
  end.

(** The element named by a [number] used as an index, if any. *)
Definition element_index (k : number) : option nat :=
  match k with
  | Int z => if decide (0 <= z) then Some (Z.to_nat z) else None
  | NaN => None
  end.

(** [matrix[neighborIndex][idx] = 1]. *)
Definition mark (matrix : loc) (neighborIndex idx : number) : St store unit :=
  match element_index neighborIndex with
  | Some r =>
      l ← row_at matrix r;
      a ← nums_at l;
      put l (Nums (js_set_at a idx (Num 1)))
  | None => throw
  end.

Definition grid_range : list Z := map Z.of_nat (seq 0 (Z.to_nat GRID_SIZE)).

Definition buildToggleMatrix : St store loc :=
  rows ← fresh_rows (Z.to_nat BOARD_CELLS);
  matrix ← alloc (Refs rows);
  _ ← for_each grid_range (fun row =>
        for_each grid_range (fun col =>
          let idx := coordToIndex (Int row) (Int col) in
          for_each baseOffsets (fun off =>
            let nr := num_add (Int row) (Int (fst off)) in
            let nc := num_add (Int col) (Int (snd off)) in
            if in_grid nr nc then
              let neighborIndex := coordToIndex nr nc in
              mark matrix neighborIndex idx
            else mret tt)));
  mret matrix.

(** The rows of the matrix at [m], read through its references. *)
Definition read_matrix (m : loc) (h : store) : option (list (list cell)) :=
  match h !! m with
  | Some (Refs rs) =>
      mapM (fun l => match h !! l with
                     | Some (Nums a) => Some a
                     | _ => None
                     end) rs
  | _ => None
  end.

(** [const toggleMatrix = buildToggleMatrix()], as a value. *)
Definition toggleMatrix : list (list cell) := Eval vm_compute in
    default [] ('(m, h) ← buildToggleMatrix []; read_matrix m h).

(** Number of entries of a row holding 1. *)
Definition popcount (row : list cell) : nat :=
  length (filter (fun v => strict_eq v 1 = true) row).

(** Entry [(i, j)] of a matrix. *)
Definition entry (m : list (list cell)) (i j : nat) : cell :=
  js_get (default [] (m !! i)) j.

(** ** Solution planner *)

Definition num_sub (a b : number) : number :=
  match a, b with
  | Int x, Int y => Int (x - y)
  | _, _ => NaN
  end.

Definition num_abs (a : number) : number :=
  match a with
  | Int x => Int (Z.abs x)
  | NaN => NaN
  end.

(** [a || b] on numbers: [a] unless it is 0 or NaN. *)
Definition num_or (a b : number) : number :=
  match a with
  | Int 0 | NaN => b
  | _ => a
  end.

(** [(GRID_SIZE - 1) / 2]: the division is exact for the grid size 5. *)
Definition center : number := Int ((GRID_SIZE - 1) / 2).

Definition distance (index : nat) : number :=
  let '(row, col) := indexToCoord (Int (Z.of_nat index)) in
  num_add (num_abs (num_sub row center)) (num_abs (num_sub col center)).

(** The comparator passed to [sort]. *)
Definition compare_cells (a b : nat) : number :=
  let ca := indexToCoord (Int (Z.of_nat a)) in
  let cb := indexToCoord (Int (Z.of_nat b)) in
  let da := distance a in
  let db := distance b in
  num_or (num_or (num_sub da db) (num_sub ca.1 cb.1)) (num_sub ca.2 cb.2).

(** [Array.prototype.sort] with a comparator: a stable sort in which [b]
    goes before [a] exactly when [cmp a b > 0].  The engine's algorithm is
    not fixed by the language; this is the stable insertion sort. *)
Definition goes_after (cmp : nat -> nat -> number) (a b : nat) : bool :=
  match cmp a b with
  | Int z => 0 <? z
  | NaN => false
  end.

Fixpoint sort_insert (cmp : nat -> nat -> number) (x : nat) (l : list nat)
  : list nat :=
  match l with
  | [] => [x]
  | y :: l' =>
      if goes_after cmp y x then x :: y :: l'
      else y :: sort_insert cmp x l'
  end.

Definition js_sort (cmp : nat -> nat -> number) (l : list nat) : list nat :=
  fold_left (fun sorted x => sort_insert cmp x sorted) l [].

(** [.map((value, index) => ({ value: value & 1, index }))
     .filter((entry) => entry.value === 1).map((entry) => entry.index)]:
    holes are skipped by [map] and [filter]. *)
Definition support (solutionVector : list cell) : list nat :=
  omap (fun '(index, value) =>
          match value with
          | Hole => None
          | _ => if strict_eq (js_and value (Num 1)) 1 then Some index else None
          end)
       (imap (fun index value => (index, value)) solutionVector).

Definition plan (solutionVector : list cell) : list nat :=
  js_sort compare_cells (support solutionVector).

(** [computeSolution]: [null] stays [null] ([None]), a solution vector is
    turned into its plan. *)
Definition plan_result (result : option (list cell)) : option (list nat) :=
  match result with
  | Some solutionVector => Some (plan solutionVector)
  | None => None
  end.

(** The outer [None] is an exception. *)
Definition computeSolution (board : list cell) : option (option (list nat)) :=
  option_map plan_result (solve toggleMatrix board).

(** ** Puzzle generator

    The generator computes with IEEE-754 doubles.  A seed is NaN, an
    infinity or a finite double.  [Math.sin] of a finite double is left to
    the engine, so the two expressions of [createPuzzle] that go through it
    are taken as given on finite seeds; on NaN and on the infinities the
    language fixes them: [Math.sin] is NaN there, NaN is absorbing for
    [+], [*], [%], [Math.abs] and [Math.floor], and [NaN > 0.35] is false. *)

Section Generator.
Context {F : Type}.

Inductive double :=
| DNaN
| DInfinity (negative : bool)
| DFinite (x : F).

(** On a finite seed [x]:
    [Math.abs((Math.sin(x + iteration * 12.9898) * 43758.5453) % 1) > 0.35]. *)
Variable exceeds_cutoff : F -> nat -> bool.

(** On a finite seed [x]:
    [Math.floor(Math.abs(Math.sin(x) * BOARD_CELLS) % BOARD_CELLS)].
    The generator is written over any such function; [sine_pick] below
    is the expression of the source. *)
Variable pick : F -> Z.

Definition over_threshold (randomSeed : double) (iteration : nat) : bool :=
  match randomSeed with
  | DFinite x => exceeds_cutoff x iteration
  | _ => false
  end.

Definition forced_index (randomSeed : double) : number :=
  match randomSeed with
  | DFinite x => Int (pick x)
  | _ => NaN
  end.

(** One turn of the loop over [iteration], on the locals [board] and
    [toggles]. *)
Definition generator_step (randomSeed : double) (st : list cell * Z)
    (iteration : nat) : list cell * Z :=
  if over_threshold randomSeed iteration then
    let index := Int (Z.rem (Z.of_nat iteration) BOARD_CELLS) in
    (toggleCell st.1 index, st.2 + 1)
  else st.

Definition createPuzzle (randomSeed : double) : list cell :=
  let '(board, toggles) :=
    fold_left (generator_step randomSeed)
              (seq 0 (Z.to_nat BOARD_CELLS)) (zero_board, 0) in
  if (toggles =? 0) || isSolved board then
    toggleCell board (forced_index randomSeed)
  else board.
End Generator.

Arguments double : clear implicits.

(** ** The forced index

    [Math.floor(Math.abs(p) % BOARD_CELLS)], where [p] is the double
    [Math.sin(randomSeed) * BOARD_CELLS].  On a finite seed the sine is
    left to the engine, and [p] is a finite double, given here by its
    value, a rational.  [Math.abs], [%] and [Math.floor] are exact on
    finite doubles, so they are embedded as the operations on rationals. *)

(** Truncation toward zero. *)
Definition Qtrunc (q : Q) : Z := Z.quot (Qnum q) (Z.pos (Qden q)).

(** [a % n] on finite doubles, [n] not 0: [a] minus [n] times the quotient
    truncated toward zero, so that the result has the sign of [a]. *)
Definition js_rem (a n : Q) : Q := (a - n * inject_Z (Qtrunc (a / n)))%Q.

Definition forced_cell (p : Q) : Z :=
  Qfloor (js_rem (Qabs p) (inject_Z BOARD_CELLS)).

(** The forced index of [createPuzzle] on a finite seed [x], where
    [scaled_sine x] is the double [Math.sin(x) * BOARD_CELLS]. *)
Definition sine_pick {F : Type} (scaled_sine : F -> Q) : F -> Z :=
  fun x => forced_cell (scaled_sine x).


(** ** Vectors over GF(2)

    Notions used to state and prove the properties below. *)

(** Entry-wise [^] of two arrays. *)
Definition vxor (a b : list cell) : list cell := zip_with js_xor a b.

(** [next[k] = next[k] ^ 1]. *)
Definition flip_cell (k : nat) (a : list cell) : list cell :=
  js_set a k (js_xor (js_get a k) (Num 1)).

(** An array of [n] cells holding 0 or 1. *)
Definition bits (n : nat) (a : list cell) : Prop :=
  length a = n /\ forallb is_bit a = true.

(** The toggles of a sequence of cells, applied from left to right. *)
Definition toggle_all (indices : list nat) (b : list cell) : list cell :=
  fold_left (fun b i => toggleCell b (Int (Z.of_nat i))) indices b.

(** The boards reachable from the all-zero board by in-range toggles. *)
Inductive reachable : list cell -> Prop :=
| reachable_zero : reachable zero_board
| reachable_toggle b i :
    reachable b -> 0 <= i < BOARD_CELLS -> reachable (toggleCell b (Int i)).

(** The cell reached from [(row, col)] by an offset, when it is on the grid. *)
Definition neighbour (row col : number) (off : Z * Z) : option nat :=
  let nr := num_add row (Int (fst off)) in
  let nc := num_add col (Int (snd off)) in
  if in_grid nr nc then element_index (coordToIndex nr nc) else None.

(** A coordinate on the border of the grid. *)
Definition on_border (x : nat) : bool :=
  (x =? 0)%nat || (x =? Z.to_nat GRID_SIZE - 1)%nat.

(** Row and column of a cell, as naturals. *)
Definition row_of (i : nat) : nat := i / Z.to_nat GRID_SIZE.
Definition col_of (i : nat) : nat := i mod Z.to_nat GRID_SIZE.

(** Manhattan distance of a cell from the centre of the grid. *)
Definition manhattan (i : nat) : Z :=
  let c := (GRID_SIZE - 1) / 2 in
  Z.abs (Z.of_nat (row_of i) - c) + Z.abs (Z.of_nat (col_of i) - c).

(** The order of the plan: nearer to the centre first, then by row, then
    by column. *)
Definition planned_before (a b : nat) : Prop :=
  manhattan a <= manhattan b /\
  (manhattan a = manhattan b ->
   (row_of a <= row_of b)%nat /\
   (row_of a = row_of b -> (col_of a <= col_of b)%nat)).

(** ** Linearity of the solver in the vector

    Three runs of the solver on the same matrix, whose vectors are [v1],
    [v2] and their entry-wise sum, stay related: the matrices remain equal,
    and the third vector remains the sum of the other two. *)

Definition lin_states (n : nat) (s1 s2 s3 : value_state) : Prop :=
  s1.1 = s2.1 /\ s2.1 = s3.1 /\ length s1.1 = n /\
  bits n s1.2 /\ bits n s2.2 /\ s3.2 = vxor s1.2 s2.2.

Definition sim3 {A} (n : nat) (RA : A -> A -> A -> Prop)
    (m1 m2 m3 : St value_state A) : Prop :=
  forall s1 s2 s3, lin_states n s1 s2 s3 ->
    exists a1 a2 a3 s1' s2' s3',
      m1 s1 = Some (a1, s1') /\ m2 s2 = Some (a2, s2') /\
      m3 s3 = Some (a3, s3') /\
      RA a1 a2 a3 /\ lin_states n s1' s2' s3'.

(** The three runs computed the same value, which satisfies [P]. *)
Definition same {A} (P : A -> Prop) (a1 a2 a3 : A) : Prop :=
  a1 = a2 /\ a2 = a3 /\ P a1.

(** The third cell is the sum of the other two. *)
Definition xor3 (a1 a2 a3 : cell) : Prop :=
  is_bit a1 = true /\ is_bit a2 = true /\ a3 = js_xor a1 a2.

(** The third array is the sum of the other two. *)
Definition vxor3 (n : nat) (a1 a2 a3 : list cell) : Prop :=
  bits n a1 /\ bits n a2 /\ a3 = vxor a1 a2.

(** A computation that reads a matrix of [n] rows without changing the
    state, and does not throw. *)
Definition reads {A} (n : nat) (m : St value_state A) : Prop :=
  forall s, length s.1 = n -> exists a, m s = Some (a, s).

(** What the forward pass keeps true of its locals [currentRow] and
    [pivotColumns]. *)
Definition locals_ok (rows cols : nat) (st : nat * list Z) : Prop :=
  (st.1 <= rows)%nat /\ Forall (fun p => -1 <= p < Z.of_nat cols) st.2.

(** The third run finds an inconsistency only if one of the others does. *)
Definition bad3 (b1 b2 b3 : bool) : Prop := b1 = false -> b2 = false -> b3 = false.

(** When the first two runs return solutions, the third returns their sum. *)
Definition result3 (cols : nat) (r1 r2 r3 : option (list cell)) : Prop :=
  forall x1 x2, r1 = Some x1 -> r2 = Some x2 ->
    bits cols x1 /\ bits cols x2 /\ r3 = Some (vxor x1 x2).

(** ** The store run against the value run *)

(** In [h], [m] refers to a matrix with rows [rows]. *)
Definition holds_matrix (h : store) (m : loc) (rows : list (list cell)) : Prop :=
  exists rs, h !! m = Some (Refs rs) /\
             Forall2 (fun r row => h !! r = Some (Nums row)) rs rows.

(** In [h], [l] refers to the array of numbers [v]. *)
Definition holds_vector (h : store) (l : loc) (v : list cell) : Prop :=
  h !! l = Some (Nums v).

(** The store [h] of a run that started in [h0], against the state of the
    value run: the objects of [h0] are as they were, the working matrix and
    vector are objects made since, the rows of the working matrix are
    distinct objects made since, and their contents are the value state. *)
Definition store_rel (h0 : store) (matrix vector : loc)
    (h : store) (s : value_state) : Prop :=
  (forall l, (l < length h0)%nat -> h !! l = h0 !! l) /\
  (length h0 <= matrix)%nat /\ (length h0 <= vector)%nat /\ matrix <> vector /\
  holds_vector h vector s.2 /\
  exists rs, h !! matrix = Some (Refs rs) /\ NoDup rs /\
             Forall (fun r => (length h0 <= r)%nat /\ r <> matrix /\ r <> vector) rs /\
             Forall2 (fun r row => h !! r = Some (Nums row)) rs s.1.

(** [m1] does on related states what [m2] does: the same result or the
    same failure, and related states again. *)
Definition refines {T1 T2 A} (R : T1 -> T2 -> Prop)
    (m1 : St T1 A) (m2 : St T2 A) : Prop :=
  forall h s, R h s ->
    match m2 s with
    | Some (a, s') => exists h', m1 h = Some (a, h') /\ R h' s'
    | None => m1 h = None
    end.

(** The indices of a solution vector that are set, through an index map. *)
Definition support_via (g : nat -> nat) (x : list cell) : list nat :=
  omap (fun '(index, value) =>
          match value with
          | Hole => None
          | _ => if strict_eq (js_and value (Num 1)) 1 then Some index else None
          end)
       (imap (fun index value => (g index, value)) x).

(** The pattern of a cell: the board obtained by toggling it on the
    all-zero board, which is column [i] of the toggle matrix. *)
Definition pattern (i : nat) : list cell := toggleCell zero_board (Int (Z.of_nat i)).

(** An answer of the solver to the board [p]: a vector of bits whose
    toggles, applied to the all-zero board, give [p]. *)
Definition answers (p : list cell) (r : option (option (list cell))) : bool :=
  match r with
  | Some (Some e) =>
      (length e =? 25)%nat && forallb is_bit e &&
      bool_decide (toggle_all (support e) zero_board = p)
  | _ => false
  end.

(** A computation that does not throw on a matrix of [n] rows, keeps the
    number of rows, and returns a value satisfying [P]. *)
Definition runs {A} (n : nat) (P : A -> Prop) (m : St value_state A) : Prop :=
  forall s, length s.1 = n ->
    exists a s', m s = Some (a, s') /\ length s'.1 = n /\ P a.

(** ** Game session

    The state kept by [useGameState] and the hint kept by [NeuralGrid]. *)

(** The snapshot set when a seed is drawn: the initial value of
    [useState] and the effect that runs when [seed] changes. *)
Definition startSnapshot {F : Type} (exceeds_cutoff : F -> nat -> bool)
    (pick : F -> Z) (seed : double F) : GameSnapshot :=
  {| board := createPuzzle exceeds_cutoff pick seed; moves := 0 |}.

(** [hintIndex] and [showPlan]. *)
Record HintState := mkHint {
  hintIndex : option nat;
  showPlan : bool
}.

(** [requestHint]: no hint when there is no plan or an empty one,
    otherwise the first planned cell, and the plan is shown. *)
Definition requestHint (aiPlan : option (list nat)) (ui : HintState) : HintState :=
  match aiPlan with
  | None | Some [] => {| hintIndex := None; showPlan := showPlan ui |}
  | Some (first :: _) => {| hintIndex := Some first; showPlan := true |}
  end.

(** The snapshots a session goes through: a puzzle generated from a finite
    seed (the seeds drawn are [Math.random() * 1000], with [Date.now()]
    added on regeneration), then moves on cells of the grid. *)
Inductive in_session {F : Type} (exceeds_cutoff : F -> nat -> bool)
    (pick : F -> Z) : GameSnapshot -> Prop :=
| session_start x :
    in_session exceeds_cutoff pick
      (startSnapshot exceeds_cutoff pick (DFinite x))
| session_move s index :
    in_session exceeds_cutoff pick s -> 0 <= index < BOARD_CELLS ->
    in_session exceeds_cutoff pick (makeMove s (Int index)).

(** ** Further notions for the properties below *)

(** Distance between two cells along rows plus along columns. *)
Definition cell_distance (i k : nat) : Z :=
  Z.abs (Z.of_nat (row_of i) - Z.of_nat (row_of k))
  + Z.abs (Z.of_nat (col_of i) - Z.of_nat (col_of k)).

(** The board with a single 1, at cell [i]. *)
Definition unit_board (i : nat) : list cell := <[i:=Num 1]> zero_board.

(** When the first run finds no inconsistency, the third finds one exactly
    when the second does. *)
Definition bad_follows (b1 b2 b3 : bool) : Prop := b1 = false -> b3 = b2.

(** When the first run returns a solution, the third returns what the
    second returns, shifted by that solution. *)
Definition result_follows (cols : nat) (r1 r2 r3 : option (list cell)) : Prop :=
  forall x1, r1 = Some x1 ->
    match r2 with
    | Some x2 => bits cols x1 /\ bits cols x2 /\ r3 = Some (vxor x1 x2)
    | None => r3 = None
    end.

(** Four boards, one in each class of boards up to reachable boards. *)
Definition class_boards : list (list cell) :=
  [zero_board; unit_board 0; unit_board 1; vxor (unit_board 0) (unit_board 1)].

(** The two quiet patterns of the 5x5 grid: toggling all their cells
    changes nothing. *)
Definition quiet1 : list cell :=
  map Num [0; 1; 1; 1; 0;  1; 0; 1; 0; 1;  1; 1; 0; 1; 1;  1; 0; 1; 0; 1;
           0; 1; 1; 1; 0].
Definition quiet2 : list cell :=
  map Num [1; 0; 1; 0; 1;  1; 0; 1; 0; 1;  0; 0; 0; 0; 0;  1; 0; 1; 0; 1;
           1; 0; 1; 0; 1].

(** The class board of the board with a single 1 at [i]. *)
Definition unit_class (i : nat) : list cell :=
  match strict_eq (js_get quiet1 i) 1, strict_eq (js_get quiet2 i) 1 with
  | false, false => zero_board
  | false, true => unit_board 0
  | true, false => unit_board 1
  | true, true => vxor (unit_board 0) (unit_board 1)
  end.

(** A sequence of [play(index)] calls, one per listed cell. *)
Definition play_all (current : GameSnapshot) (indices : list nat) : GameSnapshot :=
  fold_left (fun s i => makeMove s (Int (Z.of_nat i))) indices current.

(** The parity of the number of cells that are 1 both in [a] and in [q]. *)
Definition overlap (a q : list cell) : cell :=
  foldr js_xor (Num 0) (zip_with js_and a q).

(** ** The solver on any system of equations *)

(** A state of the solver on [rows] equations in [cols] unknowns, all
    entries 0 or 1. *)
Definition well_formed (rows cols : nat) (s : value_state) : Prop :=
  length s.1 = rows /\ Forall (bits cols) s.1 /\ bits rows s.2.

(** [x] solves the system of matrix [m] and vector [v]: in every row, the
    parity of the entries of the row that [x] selects is the entry of the
    vector. *)
Definition solves (m : list (list cell)) (v x : list cell) : Prop :=
  Forall2 (fun row b => overlap row x = b) m v.

(** The columns below [col] are cleared in the rows from [currentRow] on. *)
Definition cleared_below (rows col currentRow : nat) (m : list (list cell)) : Prop :=
  forall r k, (currentRow <= r < rows)%nat -> (k < col)%nat -> entry m r k = Num 0.

(** Row [r] has its pivot in column [c]: the entry is 1, and it is the only
    1 of the column. *)
Definition pivot_at (rows : nat) (m : list (list cell)) (r c : nat) : Prop :=
  entry m r c = Num 1 /\
  forall r', (r' < rows)%nat -> r' <> r -> entry m r' c = Num 0.

(** The rows below [currentRow] have their pivots where [pivotColumns]
    says, in columns below [col]. *)
Definition pivots_ok (rows col currentRow : nat) (pivotColumns : list Z)
    (m : list (list cell)) : Prop :=
  forall r, (r < currentRow)%nat ->
    exists c, (c < col)%nat /\ pivotColumns !! r = Some (Z.of_nat c) /\
              pivot_at rows m r c.

(** What the forward pass keeps true, before the visit of column [col]:
    the state has the solutions of the system [(m0, v0)] it started from. *)
Definition forward_inv (rows cols : nat) (m0 : list (list cell)) (v0 : list cell)
    (col currentRow : nat) (pivotColumns : list Z) (s : value_state) : Prop :=
  well_formed rows cols s /\
  (currentRow <= rows)%nat /\ (col <= cols)%nat /\
  length pivotColumns = rows /\
  (forall x, bits cols x -> solves s.1 s.2 x <-> solves m0 v0 x) /\
  cleared_below rows col currentRow s.1 /\
  pivots_ok rows col currentRow pivotColumns s.1.

(** What the back-substitution keeps true of [solution], the rows in
    [done] being visited: their pivot columns hold the entries of the
    vector, the other columns 0. *)
Definition back_inv (cols : nat) (pivotColumns : list Z) (v : list cell)
    (done : list nat) (solution : list cell) : Prop :=
  bits cols solution /\
  (forall r c, In r done -> pivotColumns !! r = Some (Z.of_nat c) ->
               js_get solution c = js_get v r) /\
  (forall k, js_get solution k = Num 1 ->
             exists r, In r done /\ pivotColumns !! r = Some (Z.of_nat k)).

(** A row that [clear_column] changes: not the pivot row, with a 1 in the
    pivot column. *)
Definition hit (col currentRow r : nat) (a : list cell) : bool :=
  negb (r =? currentRow)%nat && strict_eq (js_get a col) 1.

(** The row that [swap_rows] puts at [r]. *)
Definition swapped (currentRow pivotRow r : nat) : nat :=
  if decide (r = currentRow) then pivotRow
  else if decide (r = pivotRow) then currentRow else r.

(** * Properties *)

(** ** Cells and bit vectors *)

Lemma is_bit_cases v : is_bit v = true -> v = Num 0 \/ v = Num 1.
Proof.
  destruct v as [| |z]; simpl; try discriminate.
  destruct z as [|p|p]; try discriminate; auto.
  destruct p; try discriminate; auto.
Qed.

Lemma js_xor_bit x y :
  is_bit x = true -> is_bit y = true -> is_bit (js_xor x y) = true.
Proof.
  intros [->| ->]%is_bit_cases [->| ->]%is_bit_cases; reflexivity.
Qed.

Lemma js_xor_assoc_bit x y z :
  is_bit x = true -> is_bit y = true -> is_bit z = true ->
  js_xor (js_xor x y) z = js_xor x (js_xor y z).
Proof.
  intros [->| ->]%is_bit_cases [->| ->]%is_bit_cases [->| ->]%is_bit_cases;
    reflexivity.
Qed.

Lemma js_xor_comm x y : js_xor x y = js_xor y x.
Proof. unfold js_xor. by rewrite Z.lxor_comm. Qed.

Lemma js_xor_zero_r x : is_bit x = true -> js_xor x (Num 0) = x.
Proof. intros [->| ->]%is_bit_cases; reflexivity. Qed.

Lemma js_xor_self x : is_bit x = true -> js_xor x x = Num 0.
Proof. intros [->| ->]%is_bit_cases; reflexivity. Qed.

Lemma bits_lookup n a i x : bits n a -> a !! i = Some x -> is_bit x = true.
Proof.
  intros [_ Hb] Hi. rewrite forallb_forall in Hb. apply Hb.
  apply list_elem_of_In. by eapply list_elem_of_lookup_2.
Qed.

Lemma bits_intro n a :
  length a = n -> (forall i x, a !! i = Some x -> is_bit x = true) -> bits n a.
Proof.
  intros Hl Hb. split; [done|]. apply forallb_forall. intros x Hx.
  apply list_elem_of_In, list_elem_of_lookup in Hx as [i Hi]. eauto.
Qed.

Lemma bits_get n a i :
  bits n a -> (i < n)%nat -> a !! i = Some (js_get a i) /\ is_bit (js_get a i) = true.
Proof.
  intros Ha Hi. destruct (lookup_lt_is_Some_2 a i) as [x Hx].
  { destruct Ha as [-> _]. done. }
  pose proof (bits_lookup _ _ _ _ Ha Hx) as Hb.
  unfold js_get. rewrite Hx.
  destruct (is_bit_cases _ Hb) as [->| ->]; auto.
Qed.

Lemma bits_spread n a : bits n a -> spread a = a.
Proof.
  intros Ha. unfold spread. apply list_eq. intros i.
  rewrite list_lookup_fmap. destruct (a !! i) as [x|] eqn:Hx; [|done].
  simpl. destruct (is_bit_cases _ (bits_lookup _ _ _ _ Ha Hx)) as [->| ->]; done.
Qed.

Lemma bits_zero n : bits n (filled n (Num 0)).
Proof.
  apply bits_intro.
  - apply length_replicate.
  - intros i x [-> _]%lookup_replicate. done.
Qed.

Lemma is_board_bits b : is_board b <-> bits (Z.to_nat BOARD_CELLS) b.
Proof. done. Qed.

Lemma zero_board_bits : bits 25 zero_board.
Proof. apply (bits_zero 25). Qed.

Lemma vxor_bits n a b : bits n a -> bits n b -> bits n (vxor a b).
Proof.
  intros Ha Hb. apply bits_intro.
  - unfold vxor. rewrite length_zip_with. destruct Ha as [-> _], Hb as [-> _]. lia.
  - intros i x. unfold vxor. rewrite lookup_zip_with.
    destruct (a !! i) as [u|] eqn:Hu; [|done].
    destruct (b !! i) as [w|] eqn:Hw; [|done].
    simpl. intros [= <-]. eauto using js_xor_bit, bits_lookup.
Qed.

Lemma vxor_comm a b : vxor a b = vxor b a.
Proof.
  apply list_eq. intros i. unfold vxor. rewrite !lookup_zip_with.
  destruct (a !! i), (b !! i); simpl; try done. by rewrite js_xor_comm.
Qed.

Lemma vxor_assoc n a b c :
  bits n a -> bits n b -> bits n c -> vxor (vxor a b) c = vxor a (vxor b c).
Proof.
  intros Ha Hb Hc. apply list_eq. intros i. unfold vxor.
  rewrite !lookup_zip_with.
  destruct (a !! i) as [x|] eqn:Hx; [|done].
  destruct (b !! i) as [y|] eqn:Hy; [|done].
  destruct (c !! i) as [z|] eqn:Hz; [|done].
  simpl. f_equal. eauto using js_xor_assoc_bit, bits_lookup.
Qed.

Lemma vxor_zero_r n a : bits n a -> vxor a (filled n (Num 0)) = a.
Proof.
  intros Ha. apply list_eq. intros i. unfold vxor, filled.
  rewrite lookup_zip_with.
  destruct (a !! i) as [x|] eqn:Hx; [|done]. simpl.
  rewrite lookup_replicate_2.
  - simpl. f_equal. eauto using js_xor_zero_r, bits_lookup.
  - destruct Ha as [<- _]. by eapply lookup_lt_Some.
Qed.

Lemma vxor_self n a : bits n a -> vxor a a = filled n (Num 0).
Proof.
  intros Ha. apply list_eq. intros i. unfold vxor, filled.
  rewrite lookup_zip_with.
  destruct (a !! i) as [x|] eqn:Hx; simpl.
  - rewrite (js_xor_self x) by eauto using bits_lookup.
    symmetry. apply lookup_replicate_2.
    destruct Ha as [<- _]. by eapply lookup_lt_Some.
  - symmetry. apply lookup_replicate_None.
    destruct Ha as [<- _]. by apply lookup_ge_None.
Qed.

(** ** The board mutator *)

Lemma toggle_offset_spec row col next off :
  toggle_offset row col next off =
  match neighbour row col off with
  | Some k => flip_cell k next
  | None => next
  end.
Proof.
  unfold toggle_offset, neighbour.
  destruct (in_grid _ _) eqn:Hin; [|done].
  destruct (coordToIndex _ _) as [|z] eqn:Hz; simpl; [done|].
  destruct (decide (0 <= z)); done.
Qed.

Lemma neighbour_lt row col off k :
  neighbour row col off = Some k -> (k < 25)%nat.
Proof.
  unfold neighbour, in_grid, coordToIndex, GRID_SIZE.
  destruct (num_add row _) as [|r]; simpl; [done|].
  destruct (num_add col _) as [|c]; simpl; [rewrite andb_false_r; done|].
  destruct (0 <=? r) eqn:H1, (r <? 5) eqn:H2, (0 <=? c) eqn:H3, (c <? 5) eqn:H4;
    simpl; try done.
  destruct (decide _); [|done]. intros [= <-]. lia.
Qed.

Lemma flip_cell_bits n a k : bits n a -> (k < n)%nat -> bits n (flip_cell k a).
Proof.
  intros Ha Hk. destruct (bits_get _ _ _ Ha Hk) as [Hg Hb].
  unfold flip_cell, js_set. pose proof Ha as [Hl _].
  rewrite decide_True by lia. apply bits_intro.
  - by rewrite length_insert.
  - intros i x. destruct (decide (i = k)) as [->|Hne].
    + rewrite list_lookup_insert_eq by lia. intros [= <-].
      by apply js_xor_bit.
    + rewrite list_lookup_insert_ne by done. eauto using bits_lookup.
Qed.

Lemma flip_cell_vxor n a m k :
  bits n a -> bits n m -> (k < n)%nat ->
  flip_cell k (vxor a m) = vxor a (flip_cell k m).
Proof.
  intros Ha Hm Hk.
  pose proof (vxor_bits _ _ _ Ha Hm) as Hx.
  destruct (bits_get _ _ _ Ha Hk) as [Ha1 Ha2].
  destruct (bits_get _ _ _ Hm Hk) as [Hm1 Hm2].
  destruct (bits_get _ _ _ Hx Hk) as [Hx1 Hx2].
  unfold flip_cell, js_set.
  pose proof Hx as [Hlx _]. pose proof Hm as [Hlm _].
  rewrite !decide_True by lia.
  unfold vxor in *. rewrite lookup_zip_with, Ha1, Hm1 in Hx1. simpl in Hx1.
  injection Hx1 as <-.
  rewrite js_xor_assoc_bit by done.
  rewrite insert_zip_with. f_equal.
  by apply list_insert_id.
Qed.

Lemma toggle_offsets_bits n row col offs a :
  (25 <= n)%nat -> bits n a -> bits n (fold_left (toggle_offset row col) offs a).
Proof.
  intros Hn. revert a. induction offs as [|off offs IH]; intros a Ha; simpl; [done|].
  apply IH. rewrite toggle_offset_spec.
  destruct (neighbour row col off) as [k|] eqn:Hk; [|done].
  apply flip_cell_bits; [done|]. apply neighbour_lt in Hk. lia.
Qed.

Lemma toggle_offsets_vxor n row col offs a m :
  (25 <= n)%nat -> bits n a -> bits n m ->
  fold_left (toggle_offset row col) offs (vxor a m) =
  vxor a (fold_left (toggle_offset row col) offs m).
Proof.
  intros Hn Ha. revert m. induction offs as [|off offs IH]; intros m Hm; simpl; [done|].
  rewrite <- IH.
  - f_equal. rewrite !toggle_offset_spec.
    destruct (neighbour row col off) as [k|] eqn:Hk; [|done].
    apply (flip_cell_vxor n); [done..|]. apply neighbour_lt in Hk. lia.
  - rewrite toggle_offset_spec.
    destruct (neighbour row col off) as [k|] eqn:Hk; [|done].
    apply flip_cell_bits; [done|]. apply neighbour_lt in Hk. lia.
Qed.

(** [toggleCell] keeps a board a board, whatever the index. *)
Lemma toggleCell_board b index : is_board b -> is_board (toggleCell b index).
Proof.
  intros Hb. unfold toggleCell. rewrite (bits_spread _ _ Hb).
  destruct (indexToCoord index) as [row col].
  by apply (toggle_offsets_bits 25).
Qed.

(** Toggling is the entry-wise sum with the pattern of the index. *)
Lemma toggleCell_vxor a m index :
  is_board a -> is_board m ->
  toggleCell (vxor a m) index = vxor a (toggleCell m index).
Proof.
  intros Ha Hm. unfold toggleCell.
  rewrite (bits_spread _ _ Hm), (bits_spread _ _ (vxor_bits _ _ _ Ha Hm)).
  destruct (indexToCoord index) as [row col].
  by apply (toggle_offsets_vxor 25).
Qed.

Lemma toggleCell_pattern b index :
  is_board b -> toggleCell b index = vxor b (toggleCell zero_board index).
Proof.
  intros Hb. rewrite <- toggleCell_vxor by (done || apply zero_board_bits).
  f_equal. symmetry. by apply (vxor_zero_r 25).
Qed.

Lemma toggleCell_involutive b index :
  is_board b -> toggleCell (toggleCell b index) index = b.
Proof.
  intros Hb.
  pose proof (toggleCell_board _ index zero_board_bits) as Hp.
  rewrite (toggleCell_pattern b) by done.
  rewrite toggleCell_vxor by done.
  rewrite (toggleCell_pattern (toggleCell zero_board index)) by done.
  rewrite (vxor_self 25) by done.
  by apply (vxor_zero_r 25).
Qed.

(** C5. For every board [b] (25 cells holding 0 or 1) and every index [i]
    in [0, 25), toggling twice at [i] gives back [b]. *)
Theorem toggle_self_inverse (b : list cell) (i : Z) :
  is_board b -> 0 <= i < BOARD_CELLS ->
  toggleCell (toggleCell b (Int i)) (Int i) = b.
Proof. intros Hb _. by apply toggleCell_involutive. Qed.

Lemma toggle_self_inverse_witness :
  toggleCell (toggleCell zero_board (Int 12)) (Int 12) = zero_board.
Proof.
  apply (toggle_self_inverse zero_board 12).
  - split; reflexivity.
  - unfold BOARD_CELLS, GRID_SIZE. lia.
Defined.

Lemma flip_cell_changes n a k : bits n a -> (k < n)%nat -> flip_cell k a <> a.
Proof.
  intros Ha Hk Heq. destruct (bits_get _ _ _ Ha Hk) as [Hg Hb].
  assert (flip_cell k a !! k = Some (js_xor (js_get a k) (Num 1))) as Hf.
  { unfold flip_cell, js_set. destruct Ha as [Hl _].
    rewrite decide_True by lia. apply list_lookup_insert_eq. lia. }
  rewrite Heq, Hg in Hf. injection Hf as Hf.
  destruct (is_bit_cases _ Hb) as [H|H]; rewrite H in Hf; discriminate.
Qed.

Lemma toggleCell_25 b : is_board b -> toggleCell b (Int 25) = flip_cell 20 b.
Proof.
  intros Hb. unfold toggleCell. rewrite (bits_spread _ _ Hb).
  change (indexToCoord (Int 25)) with (Int 5, Int 0).
  unfold baseOffsets. cbn [fold_left]. rewrite !toggle_offset_spec.
  reflexivity.
Qed.

(** C10. [toggleCell] checks no bound on the index: on a board it returns a
    board for every index, and at index 25 it flips cell 20 (row 4,
    column 0), so that the board changes. *)
Theorem toggleCell_unchecked (b : list cell) :
  is_board b ->
  (forall index : Z, 0 <= index -> is_board (toggleCell b (Int index))) /\
  toggleCell b (Int 25) = flip_cell 20 b /\
  toggleCell b (Int 25) <> b.
Proof.
  intros Hb. split; [|split].
  - intros index _. by apply toggleCell_board.
  - by apply toggleCell_25.
  - rewrite toggleCell_25 by done. apply (flip_cell_changes 25); [done|lia].
Qed.

Lemma toggleCell_unchecked_witness :
  (forall index : Z, 0 <= index -> is_board (toggleCell zero_board (Int index))) /\
  toggleCell zero_board (Int 25) = flip_cell 20 zero_board /\
  toggleCell zero_board (Int 25) <> zero_board.
Proof. apply (toggleCell_unchecked zero_board). split; reflexivity. Defined.




(** ** The toggle matrix *)

Lemma toggleMatrix_shape :
  length toggleMatrix = 25%nat /\ Forall (bits 25) toggleMatrix.
Proof.
  split; [reflexivity|].
  assert (forallb (fun row => (length row =? 25)%nat && forallb is_bit row)
            toggleMatrix = true) as H by (vm_compute; reflexivity).
  rewrite forallb_forall in H. apply List.Forall_forall. intros row Hrow.
  apply H in Hrow.
  apply andb_true_iff in Hrow as [Hl Hb].
  split; [by apply Nat.eqb_eq|done].
Qed.

Lemma toggleMatrix_built :
  ('(m, h) ← buildToggleMatrix []; read_matrix m h) = Some toggleMatrix.
Proof. vm_compute. reflexivity. Qed.

Lemma toggleMatrix_columns :
  forallb (fun i => bool_decide
     (map (fun row => js_get row i) toggleMatrix
      = toggleCell zero_board (Int (Z.of_nat i)))) (seq 0 25) = true.
Proof. vm_compute. reflexivity. Qed.

Lemma toggleMatrix_symmetric_in_range :
  forallb (fun i => forallb (fun j =>
     bool_decide (entry toggleMatrix i j = entry toggleMatrix j i))
     (seq 0 25)) (seq 0 25) = true.
Proof. vm_compute. reflexivity. Qed.

Lemma entry_out_of_range i j :
  (25 <= i)%nat \/ (25 <= j)%nat -> entry toggleMatrix i j = Undef.
Proof.
  intros Hij. unfold entry.
  destruct (toggleMatrix !! i) as [row|] eqn:Hrow; simpl; [|done].
  destruct Hij as [Hi|Hj].
  - apply lookup_lt_Some in Hrow. change (length toggleMatrix) with 25%nat in Hrow. lia.
  - destruct toggleMatrix_shape as [_ Hall].
    rewrite Forall_lookup in Hall. destruct (Hall _ _ Hrow) as [Hl _].
    unfold js_get. rewrite lookup_ge_None_2; [done|lia].
Qed.

(** C6. The toggle matrix of the 5x5 grid is symmetric, and row [i] holds
    three 1s when cell [i] is a corner, four when it is on an edge but not
    a corner, and five when it is interior. *)
Theorem toggleMatrix_symmetric_popcount :
  (forall i j, entry toggleMatrix i j = entry toggleMatrix j i) /\
  map popcount toggleMatrix =
  map (fun i =>
         let border_row := on_border (row_of i) in
         let border_col := on_border (col_of i) in
         if border_row && border_col then 3%nat
         else if border_row || border_col then 4%nat
         else 5%nat)
      (seq 0 (Z.to_nat BOARD_CELLS)).
Proof.
  split; [|vm_compute; reflexivity].
  intros i j.
  destruct (decide (i < 25)%nat) as [Hi|Hi], (decide (j < 25)%nat) as [Hj|Hj].
  2-4: rewrite !entry_out_of_range by lia; done.
  pose proof toggleMatrix_symmetric_in_range as H.
  rewrite forallb_forall in H. specialize (H i).
  rewrite forallb_forall in H.
  specialize (H ltac:(apply in_seq; lia) j ltac:(apply in_seq; lia)).
  by apply bool_decide_eq_true in H.
Qed.

(** ** The solution planner *)

Lemma indexToCoord_nat (i : nat) :
  indexToCoord (Int (Z.of_nat i))
  = (Int (Z.of_nat (row_of i)), Int (Z.of_nat (col_of i))).
Proof.
  unfold indexToCoord, floor_div, num_rem, row_of, col_of, GRID_SIZE.
  rewrite Z.rem_mod_nonneg by lia.
  by rewrite Nat2Z.inj_div, Nat2Z.inj_mod.
Qed.

Lemma distance_nat (i : nat) : distance i = Int (manhattan i).
Proof. unfold distance. by rewrite indexToCoord_nat. Qed.

(** The comparator puts [b] before [a] exactly when [a] is not
    [planned_before b]. *)
Lemma goes_after_spec a b :
  goes_after compare_cells a b = true <-> ~ planned_before a b.
Proof.
  unfold goes_after, compare_cells, planned_before.
  rewrite !distance_nat, !indexToCoord_nat. simpl.
  destruct (manhattan a - manhattan b) eqn:Hd; simpl;
    [destruct (Z.of_nat (row_of a) - Z.of_nat (row_of b)) eqn:Hr; simpl|..];
    rewrite Z.ltb_lt; lia.
Qed.

Lemma planned_before_total a b : planned_before a b \/ planned_before b a.
Proof. unfold planned_before. lia. Qed.

Lemma planned_before_trans a b c :
  planned_before a b -> planned_before b c -> planned_before a c.
Proof. unfold planned_before. lia. Qed.

Lemma sort_insert_perm x l : Permutation (sort_insert compare_cells x l) (x :: l).
Proof.
  induction l as [|y l IH]; simpl; [done|].
  destruct (goes_after compare_cells y x); [done|].
  rewrite IH. apply perm_swap.
Qed.

Lemma sort_insert_sorted x l :
  StronglySorted planned_before l ->
  StronglySorted planned_before (sort_insert compare_cells x l).
Proof.
  induction 1 as [|y l Hs IH Hy]; simpl.
  - repeat constructor.
  - destruct (goes_after compare_cells y x) eqn:Hg.
    + apply goes_after_spec in Hg.
      assert (planned_before x y) as Hxy
        by (destruct (planned_before_total x y); tauto).
      constructor; [by constructor|].
      constructor; [done|].
      eapply List.Forall_impl; [|exact Hy]. eauto using planned_before_trans.
    + assert (planned_before y x) as Hyx.
      { destruct (planned_before_total y x) as [|Hxy]; [done|].
        destruct (decide (goes_after compare_cells y x = true)) as [Ht|Hf];
          [congruence|].
        rewrite goes_after_spec in Hf. unfold planned_before in *. lia. }
      constructor; [done|].
      rewrite sort_insert_perm. by constructor.
Qed.

Lemma js_sort_sorted_from acc l :
  StronglySorted planned_before acc ->
  StronglySorted planned_before
    (fold_left (fun sorted x => sort_insert compare_cells x sorted) l acc)
  /\ Permutation
       (fold_left (fun sorted x => sort_insert compare_cells x sorted) l acc)
       (l ++ acc).
Proof.
  revert acc. induction l as [|x l IH]; intros acc Hacc; simpl; [done|].
  destruct (IH (sort_insert compare_cells x acc)) as [Hs Hp].
  { by apply sort_insert_sorted. }
  split; [done|]. rewrite Hp, sort_insert_perm.
  by rewrite Permutation_middle.
Qed.

Lemma plan_ordered solutionVector :
  StronglySorted planned_before (plan solutionVector).
Proof.
  unfold plan, js_sort.
  by destruct (js_sort_sorted_from [] (support solutionVector)) as [Hs _];
    [constructor|].
Qed.

Lemma plan_permutation solutionVector :
  Permutation (plan solutionVector) (support solutionVector).
Proof.
  unfold plan, js_sort.
  destruct (js_sort_sorted_from [] (support solutionVector)) as [_ Hp];
    [constructor|].
  by rewrite app_nil_r in Hp.
Qed.

Lemma planned_before_antisym a b :
  planned_before a b -> planned_before b a -> a = b.
Proof.
  unfold planned_before, row_of, col_of. intros Hab Hba.
  change (Z.to_nat GRID_SIZE) with 5%nat in *.
  pose proof (Nat.div_mod_eq a 5). pose proof (Nat.div_mod_eq b 5). lia.
Qed.

(** Whatever algorithm the engine's [sort] runs, its result is this plan:
    a list with the same elements that is in the order of the comparator
    is equal to it. *)
Lemma plan_unique solutionVector l :
  Permutation l (support solutionVector) ->
  StronglySorted planned_before l ->
  l = plan solutionVector.
Proof.
  intros Hp Hs.
  apply (StronglySorted_unique_strong planned_before);
    [eauto using planned_before_antisym|done|apply plan_ordered|].
  by rewrite plan_permutation.
Qed.

(** C7. For every solution vector, the plan lists the indices set to 1 by
    non-decreasing Manhattan distance from the centre, then by
    non-decreasing row, then by non-decreasing column. *)
Theorem plan_sorted (solutionVector : list cell) :
  StronglySorted planned_before (plan solutionVector) /\
  Permutation (plan solutionVector) (support solutionVector).
Proof. split; [apply plan_ordered|apply plan_permutation]. Qed.

(** ** Concrete scenarios *)

(** C2. Toggling the centre (index 12) of the all-zero board sets exactly
    the cells 7, 11, 12, 13 and 17, and the solver, run on the toggle matrix
    and that board, returns the vector whose only 1 is at index 12. *)
Theorem center_toggle_scenario :
  is_board (toggleCell zero_board (Int 12)) /\
  set_bits (toggleCell zero_board (Int 12)) = [7; 11; 12; 13; 17]%nat /\
  solve toggleMatrix (toggleCell zero_board (Int 12))
    = Some (Some (<[12%nat:=Num 1]> (filled 25 (Num 0)))).
Proof.
  split; [split; reflexivity|].
  split; vm_compute; reflexivity.
Qed.

(** C8. On the all-zero board the solver returns the all-zero vector, so
    the plan is empty and not [null], and [isSolved] is true. *)
Theorem solved_board_scenario :
  solve toggleMatrix zero_board = Some (Some (filled 25 (Num 0))) /\
  computeSolution zero_board = Some (Some []) /\
  computeSolution zero_board <> Some None /\
  isSolved zero_board = true.
Proof.
  assert (computeSolution zero_board = Some (Some [])) as H
    by (vm_compute; reflexivity).
  split; [vm_compute; reflexivity|].
  split; [exact H|]. split; [|reflexivity].
  rewrite H. discriminate.
Qed.

(** A board with a single 1 in a corner has no solution: [null] does
    occur, and differs from the empty plan. *)
Lemma corner_board_unsolvable :
  computeSolution (<[0%nat:=Num 1]> zero_board) = Some None.
Proof. vm_compute. reflexivity. Qed.

(** ** The puzzle generator *)

Lemma solved_board_zero b : is_board b -> isSolved b = true -> b = zero_board.
Proof.
  intros Hb Hs. apply list_eq. intros i.
  unfold zero_board, filled.
  destruct (b !! i) as [x|] eqn:Hx.
  - rewrite lookup_replicate_2.
    + f_equal. unfold isSolved, every in Hs. rewrite forallb_forall in Hs.
      pose proof (bits_lookup _ _ _ _ Hb Hx) as Hbit.
      specialize (Hs x). 
      destruct (is_bit_cases _ Hbit) as [->| ->]; [done|].
      assert (In (Num 1) b) as Hin.
      { apply list_elem_of_In. by eapply list_elem_of_lookup_2. }
      specialize (Hs Hin). discriminate.
    + destruct Hb as [<- _]. by eapply lookup_lt_Some.
  - symmetry. apply lookup_replicate_None.
    destruct Hb as [<- _]. by apply lookup_ge_None.
Qed.

Lemma pattern_unsolved (k : Z) :
  0 <= k < BOARD_CELLS -> isSolved (toggleCell zero_board (Int k)) = false.
Proof.
  intros Hk.
  assert (forallb (fun i => negb (isSolved (toggleCell zero_board (Int (Z.of_nat i)))))
            (seq 0 25) = true) as H by (vm_compute; reflexivity).
  rewrite forallb_forall in H. specialize (H (Z.to_nat k)).
  rewrite Z2Nat.id in H by lia. apply negb_true_iff, H, in_seq.
  unfold BOARD_CELLS, GRID_SIZE in Hk. lia.
Qed.

Section GeneratorProofs.
Context {F : Type} (exceeds_cutoff : F -> nat -> bool) (pick : F -> Z).

Lemma generator_loop_reachable seed l st :
  reachable st.1 ->
  reachable (fold_left (generator_step exceeds_cutoff seed) l st).1.
Proof.
  revert st. induction l as [|it l IH]; intros st Hst; simpl; [done|].
  apply IH. unfold generator_step.
  destruct (over_threshold _ _ _); [|done]. simpl.
  apply reachable_toggle; [done|].
  unfold BOARD_CELLS, GRID_SIZE. split.
  - apply Z.rem_nonneg; lia.
  - apply Z.rem_bound_pos; lia.
Qed.

Lemma generator_loop_counter seed l st :
  0 <= st.2 /\ (st.2 = 0 -> st.1 = zero_board) ->
  let st' := fold_left (generator_step exceeds_cutoff seed) l st in
  0 <= st'.2 /\ (st'.2 = 0 -> st'.1 = zero_board).
Proof.
  revert st. induction l as [|it l IH]; intros st Hst; simpl; [done|].
  apply IH. unfold generator_step.
  destruct (over_threshold _ _ _); [|done]. simpl. lia.
Qed.
End GeneratorProofs.

Lemma reachable_board b : reachable b -> is_board b.
Proof.
  induction 1 as [|b i _ IH _]; [apply zero_board_bits|].
  by apply toggleCell_board.
Qed.

(** C4, as stated, fails for a seed that is not finite: on NaN no
    threshold test passes and the forced index is NaN, which names no cell,
    so the all-zero board is returned. *)
Lemma createPuzzle_NaN_solved :
  createPuzzle (F:=unit) (fun _ _ => true) (fun _ => 0) DNaN = zero_board /\
  isSolved (createPuzzle (F:=unit) (fun _ _ => true) (fun _ => 0) DNaN) = true.
Proof. split; vm_compute; reflexivity. Qed.

Lemma createPuzzle_reachable {F : Type}
    (exceeds_cutoff : F -> nat -> bool) (pick : F -> Z) (x : F) :
  0 <= pick x < BOARD_CELLS ->
  let b := createPuzzle exceeds_cutoff pick (DFinite x) in
  reachable b /\ is_board b /\ isSolved b = false.
Proof.
  intros Hp b.
  assert (reachable b /\ isSolved b = false) as [Hr Hs];
    [|by eauto using reachable_board].
  subst b. unfold createPuzzle.
  pose proof (generator_loop_reachable exceeds_cutoff (DFinite x)
                (seq 0 (Z.to_nat BOARD_CELLS)) (zero_board, 0) reachable_zero) as Hr.
  pose proof (generator_loop_counter exceeds_cutoff (DFinite x)
                (seq 0 (Z.to_nat BOARD_CELLS)) (zero_board, 0)) as Hc.
  cbv zeta in Hc.
  destruct (fold_left _ _ _) as [b toggles]. simpl in Hr, Hc.
  specialize (Hc ltac:(done)).
  destruct (isSolved b) eqn:Hs.
  - rewrite orb_true_r. simpl.
    rewrite (solved_board_zero b) by eauto using reachable_board.
    split; [|by apply pattern_unsolved].
    apply reachable_toggle; [constructor|done].
  - rewrite orb_false_r. destruct (toggles =? 0) eqn:Ht; [|done].
    apply Z.eqb_eq in Ht. rewrite (proj2 Hc Ht) in Hs. discriminate.
Qed.


(** ** The solver is linear in the vector *)

Lemma bind_run {T A B} (m : St T A) (f : A -> St T B) s :
  (m ≫= f) s = match m s with Some (x, s') => f x s' | None => None end.
Proof. reflexivity. Qed.

Section Linearity.
Variable n : nat.

Lemma sim3_ret {A} (RA : A -> A -> A -> Prop) a1 a2 a3 :
  RA a1 a2 a3 -> sim3 n RA (mret a1) (mret a2) (mret a3).
Proof. intros Ha s1 s2 s3 Hs. by exists a1, a2, a3, s1, s2, s3. Qed.

Lemma sim3_bind {A B} (RA : A -> A -> A -> Prop) (RB : B -> B -> B -> Prop)
    (m1 m2 m3 : St value_state A) (f1 f2 f3 : A -> St value_state B) :
  sim3 n RA m1 m2 m3 ->
  (forall a1 a2 a3, RA a1 a2 a3 -> sim3 n RB (f1 a1) (f2 a2) (f3 a3)) ->
  sim3 n RB (m1 ≫= f1) (m2 ≫= f2) (m3 ≫= f3).
Proof.
  intros Hm Hf s1 s2 s3 Hs.
  destruct (Hm _ _ _ Hs) as (a1 & a2 & a3 & s1' & s2' & s3' & E1 & E2 & E3 & Ha & Hs').
  rewrite !bind_run, E1, E2, E3. by apply Hf.
Qed.

Lemma sim3_weaken {A} (RA RB : A -> A -> A -> Prop) m1 m2 m3 :
  (forall a1 a2 a3, RA a1 a2 a3 -> RB a1 a2 a3) ->
  sim3 n RA m1 m2 m3 -> sim3 n RB m1 m2 m3.
Proof.
  intros Hw Hm s1 s2 s3 Hs.
  destruct (Hm _ _ _ Hs) as (a1 & a2 & a3 & s1' & s2' & s3' & E1 & E2 & E3 & Ha & Hs').
  exists a1, a2, a3, s1', s2', s3'. eauto 10.
Qed.

Lemma reads_ret {A} (a : A) : reads n (mret a).
Proof. intros s _. by exists a. Qed.

Lemma reads_bind {A B} (m : St value_state A) (f : A -> St value_state B) :
  reads n m -> (forall a, reads n (f a)) -> reads n (m ≫= f).
Proof.
  intros Hm Hf s Hs. destruct (Hm s Hs) as [a Ha].
  rewrite bind_run, Ha. by apply Hf.
Qed.

(** A read-only computation run three times keeps the states related. *)
Lemma reads_sim3 {A} (RA : A -> A -> A -> Prop) (m1 m2 m3 : St value_state A) :
  reads n m1 -> reads n m2 -> reads n m3 ->
  (forall s1 s2 s3 a1 a2 a3, lin_states n s1 s2 s3 ->
     m1 s1 = Some (a1, s1) -> m2 s2 = Some (a2, s2) -> m3 s3 = Some (a3, s3) ->
     RA a1 a2 a3) ->
  sim3 n RA m1 m2 m3.
Proof.
  intros H1 H2 H3 HR s1 s2 s3 Hs.
  pose proof Hs as (E12 & E23 & Hl & _).
  destruct (H1 s1) as [a1 E1]; [done|].
  destruct (H2 s2) as [a2 E2]; [congruence|].
  destruct (H3 s3) as [a3 E3]; [congruence|].
  exists a1, a2, a3, s1, s2, s3. eauto 10.
Qed.

(** *** The memory operations *)

Lemma with_row_run {A} r (k : list cell -> St value_state A) s row :
  s.1 !! r = Some row -> with_row r k s = k row s.
Proof. unfold with_row. by intros ->. Qed.

Lemma reads_m_get r c : (r < n)%nat -> reads n (m_get value_mem r c).
Proof.
  intros Hr s Hs. destruct (lookup_lt_is_Some_2 s.1 r) as [row Hrow]; [lia|].
  exists (js_get row c). simpl. by rewrite (with_row_run _ _ _ row).
Qed.

Lemma reads_m_every_zero r : (r < n)%nat -> reads n (m_every_zero value_mem r).
Proof.
  intros Hr s Hs. destruct (lookup_lt_is_Some_2 s.1 r) as [row Hrow]; [lia|].
  eexists. simpl. by rewrite (with_row_run _ _ _ row).
Qed.

Lemma reads_v_get i : reads n (v_get value_mem i).
Proof. intros s _. by eexists. Qed.

Lemma sim3_m_get r c :
  (r < n)%nat ->
  sim3 n (same (fun _ => True)) (m_get value_mem r c) (m_get value_mem r c)
    (m_get value_mem r c).
Proof.
  intros Hr. apply reads_sim3; try by apply reads_m_get.
  intros s1 s2 s3 a1 a2 a3 (E12 & E23 & _). simpl. unfold with_row.
  rewrite <- E23, <- E12. destruct (s1.1 !! r); [|done].
  unfold mret, St_ret. intros [= <-] [= <-] [= <-]. done.
Qed.

Lemma sim3_m_every_zero r :
  (r < n)%nat ->
  sim3 n (same (fun _ => True)) (m_every_zero value_mem r)
    (m_every_zero value_mem r) (m_every_zero value_mem r).
Proof.
  intros Hr. apply reads_sim3; try by apply reads_m_every_zero.
  intros s1 s2 s3 a1 a2 a3 (E12 & E23 & _). simpl. unfold with_row.
  rewrite <- E23, <- E12. destruct (s1.1 !! r); [|done].
  unfold mret, St_ret. intros [= <-] [= <-] [= <-]. done.
Qed.

Lemma sim3_v_get i :
  (i < n)%nat ->
  sim3 n xor3 (v_get value_mem i) (v_get value_mem i) (v_get value_mem i).
Proof.
  intros Hi. apply reads_sim3; try by apply reads_v_get.
  intros s1 s2 s3 a1 a2 a3 (_ & _ & _ & Hb1 & Hb2 & E). simpl.
  intros [= <-] [= <-] [= <-].
  destruct (bits_get _ _ _ Hb1 Hi) as [G1 B1].
  destruct (bits_get _ _ _ Hb2 Hi) as [G2 B2].
  split; [done|]. split; [done|].
  destruct (bits_get _ _ _ (vxor_bits _ _ _ Hb1 Hb2) Hi) as [G3 _].
  rewrite E. unfold vxor in *. rewrite lookup_zip_with, G1, G2 in G3.
  simpl in G3. congruence.
Qed.

Lemma js_set_bits k a i x :
  bits k a -> (i < k)%nat -> is_bit x = true -> bits k (js_set a i x).
Proof.
  intros Ha Hi Hx. pose proof Ha as [Hl _]. unfold js_set.
  rewrite decide_True by lia. apply bits_intro.
  - by rewrite length_insert.
  - intros j y. destruct (decide (j = i)) as [->|Hne].
    + rewrite list_lookup_insert_eq by lia. by intros [= <-].
    + rewrite list_lookup_insert_ne by done. eauto using bits_lookup.
Qed.

Lemma js_set_vxor k a b i x y :
  bits k a -> bits k b -> (i < k)%nat ->
  js_set (vxor a b) i (js_xor x y) = vxor (js_set a i x) (js_set b i y).
Proof.
  intros Ha Hb Hi. pose proof Ha as [Hla _]. pose proof Hb as [Hlb _].
  pose proof (vxor_bits _ _ _ Ha Hb) as [Hlx _].
  unfold js_set. rewrite !decide_True by lia.
  unfold vxor. by rewrite insert_zip_with.
Qed.

Lemma sim3_v_set i x1 x2 x3 :
  (i < n)%nat -> xor3 x1 x2 x3 ->
  sim3 n (same (fun _ => True)) (v_set value_mem i x1) (v_set value_mem i x2)
    (v_set value_mem i x3).
Proof.
  intros Hi (B1 & B2 & ->) s1 s2 s3 (E12 & E23 & Hl & Hb1 & Hb2 & E).
  eexists tt, tt, tt, _, _, _. simpl.
  split; [done|]. split; [done|]. split; [done|]. split; [done|].
  unfold lin_states. simpl. split_and!; try done.
  - by apply js_set_bits.
  - by apply js_set_bits.
  - rewrite E. by apply (js_set_vxor n).
Qed.

Lemma sim3_m_set r c v :
  (r < n)%nat ->
  sim3 n (same (fun _ => True)) (m_set value_mem r c v) (m_set value_mem r c v)
    (m_set value_mem r c v).
Proof.
  intros Hr s1 s2 s3 (E12 & E23 & Hl & Hb1 & Hb2 & E).
  destruct (lookup_lt_is_Some_2 s1.1 r) as [row Hrow]; [lia|].
  eexists tt, tt, tt, _, _, _. simpl.
  unfold with_row. rewrite <- E23, <- E12, Hrow.
  split; [done|]. split; [done|]. split; [done|]. split; [done|].
  unfold lin_states. simpl. split_and!; try done; try congruence.
  by rewrite length_insert.
Qed.

Lemma sim3_m_swap a b :
  (a < n)%nat -> (b < n)%nat ->
  sim3 n (same (fun _ => True)) (m_swap value_mem a b) (m_swap value_mem a b)
    (m_swap value_mem a b).
Proof.
  intros Ha Hb s1 s2 s3 (E12 & E23 & Hl & Hb1 & Hb2 & E).
  destruct (lookup_lt_is_Some_2 s1.1 a) as [ra Hra]; [lia|].
  destruct (lookup_lt_is_Some_2 s1.1 b) as [rb Hrb]; [lia|].
  eexists tt, tt, tt, _, _, _. simpl.
  unfold with_row. rewrite <- E23, <- E12, Hrb, Hra.
  split; [done|]. split; [done|]. split; [done|]. split; [done|].
  unfold lin_states. simpl. split_and!; try done; try congruence.
  by rewrite !length_insert.
Qed.
End Linearity.

Section LinearityLoops.
Variables rows cols : nat.

Local Abbreviation unit3 := (same (fun _ : unit => True)).

Lemma sim3_for_each {X} (l : list X) (b1 b2 b3 : X -> St value_state unit) :
  (forall x, In x l -> sim3 rows unit3 (b1 x) (b2 x) (b3 x)) ->
  sim3 rows unit3 (for_each l b1) (for_each l b2) (for_each l b3).
Proof.
  induction l as [|x l IH]; intros Hb; simpl.
  - by apply sim3_ret.
  - eapply sim3_bind; [apply Hb; by left|]. intros _ _ _ _.
    apply IH. intros y Hy. apply Hb. by right.
Qed.

Lemma sim3_xor_row col currentRow row :
  (currentRow < rows)%nat -> (row < rows)%nat ->
  sim3 rows unit3 (xor_row value_mem cols col currentRow row)
    (xor_row value_mem cols col currentRow row)
    (xor_row value_mem cols col currentRow row).
Proof.
  intros Hc Hr. apply sim3_for_each. intros k _.
  eapply sim3_bind; [by apply sim3_m_get|]. intros a ? ? (<- & <- & _).
  eapply sim3_bind; [by apply sim3_m_get|]. intros b ? ? (<- & <- & _).
  by apply sim3_m_set.
Qed.

Lemma xor3_xor a1 a2 a3 b1 b2 b3 :
  xor3 a1 a2 a3 -> xor3 b1 b2 b3 ->
  xor3 (js_xor a1 b1) (js_xor a2 b2) (js_xor a3 b3).
Proof.
  intros (A1 & A2 & ->) (B1 & B2 & ->).
  split; [by apply js_xor_bit|]. split; [by apply js_xor_bit|].
  destruct (is_bit_cases _ A1) as [->| ->], (is_bit_cases _ A2) as [->| ->],
    (is_bit_cases _ B1) as [->| ->], (is_bit_cases _ B2) as [->| ->];
    reflexivity.
Qed.

Lemma sim3_clear_column col currentRow :
  (currentRow < rows)%nat ->
  sim3 rows unit3 (clear_column value_mem rows cols col currentRow)
    (clear_column value_mem rows cols col currentRow)
    (clear_column value_mem rows cols col currentRow).
Proof.
  intros Hc. apply sim3_for_each. intros row Hrow%in_seq.
  destruct (negb _); [|by apply sim3_ret].
  eapply sim3_bind; [apply sim3_m_get; lia|]. intros v ? ? (<- & <- & _).
  destruct (strict_eq v 1); [|by apply sim3_ret].
  eapply sim3_bind; [apply sim3_xor_row; lia|]. intros _ _ _ _.
  eapply sim3_bind; [apply sim3_v_get; lia|]. intros a1 a2 a3 Ha.
  eapply sim3_bind; [apply sim3_v_get; lia|]. intros b1 b2 b3 Hb.
  apply sim3_v_set; [lia|]. by apply xor3_xor.
Qed.

Lemma sim3_swap_rows currentRow pivotRow :
  (currentRow < rows)%nat -> (pivotRow < rows)%nat ->
  sim3 rows unit3 (swap_rows value_mem currentRow pivotRow)
    (swap_rows value_mem currentRow pivotRow)
    (swap_rows value_mem currentRow pivotRow).
Proof.
  intros Hc Hp. unfold swap_rows.
  eapply sim3_bind; [by apply sim3_m_swap|]. intros _ _ _ _.
  eapply sim3_bind; [by apply sim3_v_get|]. intros a1 a2 a3 Ha.
  eapply sim3_bind; [by apply sim3_v_get|]. intros b1 b2 b3 Hb.
  eapply sim3_bind; [by apply sim3_v_set|]. intros _ _ _ _.
  by apply sim3_v_set.
Qed.

Lemma sim3_find_pivot col candidates :
  Forall (fun r => r < rows)%nat candidates ->
  sim3 rows (same (fun p => p <= rows)%nat)
    (find_pivot value_mem rows col candidates)
    (find_pivot value_mem rows col candidates)
    (find_pivot value_mem rows col candidates).
Proof.
  induction 1 as [|r candidates Hr _ IH]; simpl.
  - by apply sim3_ret.
  - eapply sim3_bind; [by apply sim3_m_get|]. intros v ? ? (<- & <- & _).
    destruct (strict_eq v 0); [done|].
    apply sim3_ret. split_and!; try done. lia.
Qed.

Lemma sim3_forward columns currentRow pivotColumns :
  Forall (fun c => c < cols)%nat columns ->
  (locals_ok rows cols) (currentRow, pivotColumns) ->
  sim3 rows (same (locals_ok rows cols))
    (forward value_mem rows cols columns currentRow pivotColumns)
    (forward value_mem rows cols columns currentRow pivotColumns)
    (forward value_mem rows cols columns currentRow pivotColumns).
Proof.
  intros Hcols. revert currentRow pivotColumns.
  induction Hcols as [|col columns Hcol _ IH]; intros currentRow pivotColumns Hok;
    simpl.
  - by apply sim3_ret.
  - destruct (currentRow <? rows)%nat eqn:Hlt; [|by apply sim3_ret].
    apply Nat.ltb_lt in Hlt.
    eapply sim3_bind.
    { apply sim3_find_pivot. apply List.Forall_forall. intros r Hr%in_seq. lia. }
    intros pivotRow ? ? (<- & <- & Hp).
    destruct (pivotRow =? rows)%nat eqn:Hpr; [by apply IH|].
    apply Nat.eqb_neq in Hpr.
    eapply (sim3_bind rows unit3).
    { destruct (negb _); [|by apply sim3_ret].
      apply sim3_swap_rows; lia. }
    intros _ _ _ _.
    eapply sim3_bind; [by apply sim3_clear_column|]. intros _ _ _ _.
    apply IH. destruct Hok as [_ Hpc]. split; simpl; [lia|].
    apply Forall_insert; [done|lia].
Qed.
End LinearityLoops.

Section LinearityTail.
Variables rows cols : nat.

Lemma reads_inconsistent rows_left :
  Forall (fun r => r < rows)%nat rows_left ->
  reads rows (inconsistent value_mem rows_left).
Proof.
  induction 1 as [|row rows_left Hr _ IH]; simpl; [apply reads_ret|].
  apply reads_bind; [by apply reads_m_every_zero|]. intros sum.
  apply reads_bind; [by apply reads_v_get|]. intros v.
  destruct (_ && _); [apply reads_ret|done].
Qed.

Lemma reads_accumulate row columns solution accum :
  (row < rows)%nat -> reads rows (accumulate value_mem row columns solution accum).
Proof.
  intros Hr. revert accum. induction columns as [|col columns IH]; intros accum;
    simpl; [apply reads_ret|].
  apply reads_bind; [by apply reads_m_get|]. intros v. apply IH.
Qed.

Lemma reads_back_substitute pivotColumns rows_down solution :
  Forall (fun r => r < rows)%nat rows_down ->
  reads rows (back_substitute value_mem cols pivotColumns rows_down solution).
Proof.
  intros H. revert solution. induction H as [|row rows_down Hr _ IH];
    intros solution; simpl; [apply reads_ret|].
  destruct (_ =? -1); [done|].
  apply reads_bind; [by apply reads_v_get|]. intros accum0.
  apply reads_bind; [by apply reads_accumulate|]. intros accum. apply IH.
Qed.

Lemma sim3_inconsistent rows_left :
  Forall (fun r => r < rows)%nat rows_left ->
  sim3 rows bad3 (inconsistent value_mem rows_left)
    (inconsistent value_mem rows_left) (inconsistent value_mem rows_left).
Proof.
  induction 1 as [|row rows_left Hr Hrest IH]; simpl.
  - by apply sim3_ret.
  - eapply sim3_bind; [by apply sim3_m_every_zero|]. intros sum ? ? (<- & <- & _).
    eapply sim3_bind; [by apply sim3_v_get|]. intros v1 v2 v3 (B1 & B2 & ->).
    destruct sum; [|done]. simpl.
    destruct (is_bit_cases _ B1) as [->| ->], (is_bit_cases _ B2) as [->| ->];
      simpl; try done.
    all: apply reads_sim3;
      [apply reads_ret || by apply reads_inconsistent ..|].
    all: intros s1 s2 s3 a1 a2 a3 _ E1 E2 _; intros ? ?; simplify_eq.
Qed.

Lemma vxor3_get solution1 solution2 solution3 col :
  vxor3 cols solution1 solution2 solution3 -> (col < cols)%nat ->
  xor3 (js_get solution1 col) (js_get solution2 col) (js_get solution3 col).
Proof.
  intros (H1 & H2 & ->) Hc.
  destruct (bits_get _ _ _ H1 Hc) as [G1 B1].
  destruct (bits_get _ _ _ H2 Hc) as [G2 B2].
  destruct (bits_get _ _ _ (vxor_bits _ _ _ H1 H2) Hc) as [G3 _].
  split; [done|]. split; [done|].
  unfold vxor in *. rewrite lookup_zip_with, G1, G2 in G3. simpl in G3.
  congruence.
Qed.

Lemma sim3_accumulate row columns sol1 sol2 sol3 acc1 acc2 acc3 :
  (row < rows)%nat -> Forall (fun c => c < cols)%nat columns ->
  vxor3 cols sol1 sol2 sol3 -> xor3 acc1 acc2 acc3 ->
  sim3 rows xor3 (accumulate value_mem row columns sol1 acc1)
    (accumulate value_mem row columns sol2 acc2)
    (accumulate value_mem row columns sol3 acc3).
Proof.
  intros Hr Hcols Hsol. revert acc1 acc2 acc3.
  induction Hcols as [|col columns Hc _ IH]; intros acc1 acc2 acc3 Hacc; simpl.
  - by apply sim3_ret.
  - eapply sim3_bind; [by apply sim3_m_get|]. intros v ? ? (<- & <- & _).
    apply IH. destruct (strict_eq v 1); [|done].
    apply xor3_xor; [done|]. by apply vxor3_get.
Qed.

Lemma js_and_one_bit x : is_bit x = true -> js_and x (Num 1) = x.
Proof. intros [->| ->]%is_bit_cases; reflexivity. Qed.

Lemma sim3_back_substitute pivotColumns rows_down sol1 sol2 sol3 :
  Forall (fun r => r < rows)%nat rows_down ->
  Forall (fun p => -1 <= p < Z.of_nat cols) pivotColumns ->
  vxor3 cols sol1 sol2 sol3 ->
  sim3 rows (vxor3 cols)
    (back_substitute value_mem cols pivotColumns rows_down sol1)
    (back_substitute value_mem cols pivotColumns rows_down sol2)
    (back_substitute value_mem cols pivotColumns rows_down sol3).
Proof.
  intros Hrows Hpc. revert sol1 sol2 sol3.
  induction Hrows as [|row rows_down Hr _ IH]; intros sol1 sol2 sol3 Hsol; simpl.
  - by apply sim3_ret.
  - assert (-1 <= default (-1) (pivotColumns !! row) < Z.of_nat cols) as Hp.
    { destruct (pivotColumns !! row) as [p|] eqn:Hrow; simpl.
      - rewrite Forall_lookup in Hpc. eauto.
      - lia. }
    destruct (_ =? -1) eqn:Hm; [by apply IH|]. apply Z.eqb_neq in Hm.
    eapply sim3_bind; [by apply sim3_v_get|]. intros a1 a2 a3 Ha.
    eapply sim3_bind.
    { apply sim3_accumulate; try done.
      apply List.Forall_forall. intros c Hc%in_seq. lia. }
    intros c1 c2 c3 (C1 & C2 & ->).
    apply IH. destruct Hsol as (S1 & S2 & ->).
    rewrite !js_and_one_bit by (done || by apply js_xor_bit).
    split; [apply js_set_bits; (done || lia)|].
    split; [apply js_set_bits; (done || lia)|].
    apply (js_set_vxor cols); (done || lia).
Qed.
End LinearityTail.

Lemma sim3_eliminate rows cols :
  sim3 rows (result3 cols) (eliminate value_mem rows cols)
    (eliminate value_mem rows cols) (eliminate value_mem rows cols).
Proof.
  unfold eliminate.
  eapply sim3_bind.
  { apply (sim3_forward rows cols).
    - apply List.Forall_forall. intros c Hc%in_seq. lia.
    - split; simpl; [lia|]. apply Forall_replicate. lia. }
  intros [currentRow pivotColumns] ? ? (<- & <- & Hcr & Hpc). simpl in Hcr, Hpc.
  assert (Forall (fun r => r < rows)%nat (seq currentRow (rows - currentRow))) as Hup.
  { apply List.Forall_forall. intros r Hr%in_seq. lia. }
  assert (Forall (fun r => r < rows)%nat (rev (seq 0 currentRow))) as Hdown.
  { apply List.Forall_forall. intros r Hr%in_rev%in_seq. lia. }
  eapply sim3_bind; [by apply sim3_inconsistent|]. intros b1 b2 b3 Hb.
  assert (forall b : bool, reads rows
            (if b then mret None
             else back_substitute value_mem cols pivotColumns
                    (rev (seq 0 currentRow)) (filled cols (Num 0))
                  ≫= fun solution => mret (Some solution))) as Hreads.
  { intros [|]; [apply reads_ret|].
    apply reads_bind; [by apply reads_back_substitute|]. intros ?. apply reads_ret. }
  unfold bad3 in Hb. destruct b1, b2; [..|rewrite Hb by done].
  1-3: apply reads_sim3;
       [first [apply (Hreads true)|apply (Hreads false)|apply Hreads]..|];
       unfold result3;
       intros s1 s2 s3 a1 a2 a3 _ E1 E2 _ x1 x2 ? ?; simplify_eq.
  eapply sim3_bind.
  { apply (sim3_back_substitute rows cols); try done.
    split; [apply bits_zero|]. split; [apply bits_zero|].
    symmetry. apply (vxor_self cols), bits_zero. }
  intros x1 x2 x3 (X1 & X2 & ->). apply sim3_ret.
  intros ? ? [= <-] [= <-]. done.
Qed.

(** On any matrix, a solution for [v1] and a solution for [v2] give, as
    the solver's answer for their sum, the sum of the two solutions. *)
Theorem gauss_values_linear m v1 v2 x1 x2 :
  bits (length m) v1 -> bits (length m) v2 ->
  gauss_values m v1 = Some (Some x1) ->
  gauss_values m v2 = Some (Some x2) ->
  gauss_values m (vxor v1 v2) = Some (Some (vxor x1 x2)).
Proof.
  intros Hv1 Hv2. unfold gauss_values.
  destruct m as [|first m']; [done|]. set (m := first :: m') in *.
  rewrite (bits_spread _ _ Hv1), (bits_spread _ _ Hv2),
    (bits_spread _ _ (vxor_bits _ _ _ Hv1 Hv2)).
  destruct (sim3_eliminate (length m) (length first)
              (map spread m, v1) (map spread m, v2) (map spread m, vxor v1 v2))
    as (r1 & r2 & r3 & s1 & s2 & s3 & E1 & E2 & E3 & Hr & _).
  { unfold lin_states. simpl. split_and!; try done. by rewrite length_map. }
  rewrite E1, E2, E3. simpl. intros [= ->] [= ->].
  destruct (Hr x1 x2) as (_ & _ & ->); done.
Qed.

(** ** The solver does not throw on a matrix with at least one row *)

Section Totality.
Variables rows cols : nat.

Local Abbreviation any := (fun _ => True).

Lemma runs_ret {A} (P : A -> Prop) a : P a -> runs rows P (mret a).
Proof. intros Ha s Hs. by exists a, s. Qed.

Lemma runs_bind {A B} (P : A -> Prop) (Q : B -> Prop)
    (m : St value_state A) (f : A -> St value_state B) :
  runs rows P m -> (forall a, P a -> runs rows Q (f a)) -> runs rows Q (m ≫= f).
Proof.
  intros Hm Hf s Hs. destruct (Hm s Hs) as (a & s' & E & Hs' & Ha).
  rewrite bind_run, E. by apply Hf.
Qed.

Lemma reads_runs {A} (m : St value_state A) : reads rows m -> runs rows any m.
Proof. intros Hm s Hs. destruct (Hm s Hs) as [a E]. by exists a, s. Qed.

Lemma runs_m_set r c v : (r < rows)%nat -> runs rows any (m_set value_mem r c v).
Proof.
  intros Hr s Hs. destruct (lookup_lt_is_Some_2 s.1 r) as [row Hrow]; [lia|].
  simpl. unfold with_row. rewrite Hrow. eexists _, _. split; [done|].
  simpl. by rewrite length_insert.
Qed.

Lemma runs_m_swap a b :
  (a < rows)%nat -> (b < rows)%nat -> runs rows any (m_swap value_mem a b).
Proof.
  intros Ha Hb s Hs.
  destruct (lookup_lt_is_Some_2 s.1 a) as [ra Hra]; [lia|].
  destruct (lookup_lt_is_Some_2 s.1 b) as [rb Hrb]; [lia|].
  simpl. unfold with_row. rewrite Hrb, Hra. eexists _, _. split; [done|].
  simpl. by rewrite !length_insert.
Qed.

Lemma runs_v_set i v : runs rows any (v_set value_mem i v).
Proof. intros s Hs. by eexists _, _. Qed.

Lemma runs_for_each {X} (l : list X) (body : X -> St value_state unit) :
  (forall x, In x l -> runs rows any (body x)) -> runs rows any (for_each l body).
Proof.
  induction l as [|x l IH]; intros Hb; simpl; [by apply runs_ret|].
  eapply runs_bind; [apply Hb; by left|]. intros _ _.
  apply IH. intros y Hy. apply Hb. by right.
Qed.

Lemma runs_xor_row col currentRow row :
  (currentRow < rows)%nat -> (row < rows)%nat ->
  runs rows any (xor_row value_mem cols col currentRow row).
Proof.
  intros Hc Hr. apply runs_for_each. intros k _.
  eapply runs_bind; [by apply reads_runs, reads_m_get|]. intros a _.
  eapply runs_bind; [by apply reads_runs, reads_m_get|]. intros b _.
  by apply runs_m_set.
Qed.

Lemma runs_clear_column col currentRow :
  (currentRow < rows)%nat ->
  runs rows any (clear_column value_mem rows cols col currentRow).
Proof.
  intros Hc. apply runs_for_each. intros row Hrow%in_seq.
  destruct (negb _); [|by apply runs_ret].
  eapply runs_bind; [apply reads_runs, reads_m_get; lia|]. intros v _.
  destruct (strict_eq v 1); [|by apply runs_ret].
  eapply runs_bind; [apply runs_xor_row; lia|]. intros _ _.
  eapply runs_bind; [apply reads_runs, reads_v_get|]. intros a _.
  eapply runs_bind; [apply reads_runs, reads_v_get|]. intros b _.
  apply runs_v_set.
Qed.

Lemma runs_swap_rows currentRow pivotRow :
  (currentRow < rows)%nat -> (pivotRow < rows)%nat ->
  runs rows any (swap_rows value_mem currentRow pivotRow).
Proof.
  intros Hc Hp. unfold swap_rows.
  eapply runs_bind; [by apply runs_m_swap|]. intros _ _.
  eapply runs_bind; [apply reads_runs, reads_v_get|]. intros a _.
  eapply runs_bind; [apply reads_runs, reads_v_get|]. intros b _.
  eapply runs_bind; [apply runs_v_set|]. intros _ _.
  apply runs_v_set.
Qed.

Lemma runs_find_pivot col candidates :
  Forall (fun r => r < rows)%nat candidates ->
  runs rows (fun p => p <= rows)%nat (find_pivot value_mem rows col candidates).
Proof.
  induction 1 as [|r candidates Hr _ IH]; simpl; [by apply runs_ret|].
  eapply runs_bind; [by apply reads_runs, reads_m_get|]. intros v _.
  destruct (strict_eq v 0); [done|]. apply runs_ret. lia.
Qed.

Lemma runs_forward columns currentRow pivotColumns :
  (currentRow <= rows)%nat ->
  runs rows (fun st => st.1 <= rows)%nat
    (forward value_mem rows cols columns currentRow pivotColumns).
Proof.
  revert currentRow pivotColumns.
  induction columns as [|col columns IH]; intros currentRow pivotColumns Hc; simpl.
  - by apply runs_ret.
  - destruct (currentRow <? rows)%nat eqn:Hlt; [|by apply runs_ret].
    apply Nat.ltb_lt in Hlt.
    eapply runs_bind.
    { apply runs_find_pivot. apply List.Forall_forall. intros r Hr%in_seq. lia. }
    intros pivotRow Hp. simpl in Hp.
    destruct (pivotRow =? rows)%nat eqn:Hpr; [by apply IH|].
    apply Nat.eqb_neq in Hpr.
    eapply (runs_bind any).
    { destruct (negb _); [|by apply runs_ret]. apply runs_swap_rows; lia. }
    intros _ _.
    eapply runs_bind; [by apply runs_clear_column|]. intros _ _.
    apply IH. lia.
Qed.

Lemma runs_eliminate : runs rows any (eliminate value_mem rows cols).
Proof.
  unfold eliminate.
  eapply runs_bind; [apply runs_forward; lia|].
  intros [currentRow pivotColumns] Hc. simpl in Hc.
  eapply runs_bind.
  { apply reads_runs, reads_inconsistent.
    apply List.Forall_forall. intros r Hr%in_seq. lia. }
  intros [|] _; [by apply runs_ret|].
  eapply runs_bind; [|intros; by apply runs_ret].
  apply reads_runs, reads_back_substitute.
  apply List.Forall_forall. intros r Hr%in_rev%in_seq. lia.
Qed.
End Totality.

(** On a matrix with at least one row the value run returns. *)
Lemma gauss_values_total m v : m <> [] -> is_Some (gauss_values m v).
Proof.
  intros Hm. unfold gauss_values. destruct m as [|first m']; [done|].
  destruct (runs_eliminate (length (first :: m')) (length first)
              (map spread (first :: m'), spread v)) as (a & s' & -> & _).
  - simpl. by rewrite length_map.
  - by eexists.
Qed.

(** ** The solver on the store does what it does on values *)

Section Refinement.
Context {T1 T2 : Type} (R : T1 -> T2 -> Prop).

Lemma refines_ret {A} (a : A) : refines R (mret a) (mret a).
Proof. intros h s Hs. simpl. by exists h. Qed.

Lemma refines_bind {A B} (m1 : St T1 A) (m2 : St T2 A)
    (f1 : A -> St T1 B) (f2 : A -> St T2 B) :
  refines R m1 m2 -> (forall a, refines R (f1 a) (f2 a)) ->
  refines R (m1 ≫= f1) (m2 ≫= f2).
Proof.
  intros Hm Hf h s Hs. specialize (Hm h s Hs). rewrite !bind_run.
  destruct (m2 s) as [[a s']|].
  - destruct Hm as (h' & -> & Hs'). by apply Hf.
  - by rewrite Hm.
Qed.

Lemma refines_for_each {X} (l : list X) (b1 : X -> St T1 unit)
    (b2 : X -> St T2 unit) :
  (forall x, refines R (b1 x) (b2 x)) ->
  refines R (for_each l b1) (for_each l b2).
Proof.
  intros Hb. induction l as [|x l IH]; simpl; [apply refines_ret|].
  apply refines_bind; [done|]. by intros _.
Qed.

(** Two instances of the memory operations that agree on every operation
    agree on the whole solver. *)
Context (mem1 : mem_ops T1) (mem2 : mem_ops T2).
Hypothesis get_ok : forall r c, refines R (m_get mem1 r c) (m_get mem2 r c).
Hypothesis set_ok : forall r c v, refines R (m_set mem1 r c v) (m_set mem2 r c v).
Hypothesis swap_ok : forall a b, refines R (m_swap mem1 a b) (m_swap mem2 a b).
Hypothesis every_ok : forall r, refines R (m_every_zero mem1 r) (m_every_zero mem2 r).
Hypothesis vget_ok : forall i, refines R (v_get mem1 i) (v_get mem2 i).
Hypothesis vset_ok : forall i v, refines R (v_set mem1 i v) (v_set mem2 i v).

Ltac step :=
  first [ apply refines_ret
        | apply refines_bind; [solve [auto]|intros ?]
        | apply refines_for_each; intros ? ].

Lemma refines_find_pivot rows col candidates :
  refines R (find_pivot mem1 rows col candidates)
    (find_pivot mem2 rows col candidates).
Proof using get_ok.
  induction candidates as [|r candidates IH]; simpl; [step|].
  step. by destruct (strict_eq _ 0); [|step].
Qed.

Lemma refines_swap_rows currentRow pivotRow :
  refines R (swap_rows mem1 currentRow pivotRow)
    (swap_rows mem2 currentRow pivotRow).
Proof using swap_ok vget_ok vset_ok. unfold swap_rows. repeat step. auto. Qed.

Lemma refines_xor_row cols col currentRow row :
  refines R (xor_row mem1 cols col currentRow row)
    (xor_row mem2 cols col currentRow row).
Proof using get_ok set_ok. unfold xor_row. repeat step. auto. Qed.

Lemma refines_clear_column rows cols col currentRow :
  refines R (clear_column mem1 rows cols col currentRow)
    (clear_column mem2 rows cols col currentRow).
Proof using get_ok set_ok vget_ok vset_ok.
  unfold clear_column. step. destruct (negb _); [|step].
  step. destruct (strict_eq _ 1); [|step].
  apply refines_bind; [apply refines_xor_row|]. intros _.
  repeat step. auto.
Qed.

Lemma refines_forward rows cols columns currentRow pivotColumns :
  refines R (forward mem1 rows cols columns currentRow pivotColumns)
    (forward mem2 rows cols columns currentRow pivotColumns).
Proof using get_ok set_ok swap_ok vget_ok vset_ok.
  revert currentRow pivotColumns.
  induction columns as [|col columns IH]; intros currentRow pivotColumns; simpl;
    [step|].
  destruct (currentRow <? rows)%nat; [|step].
  apply refines_bind; [apply refines_find_pivot|]. intros pivotRow.
  destruct (pivotRow =? rows)%nat; [done|].
  apply refines_bind.
  { destruct (negb _); [apply refines_swap_rows|step]. }
  intros _. apply refines_bind; [apply refines_clear_column|]. by intros _.
Qed.

Lemma refines_inconsistent rows_left :
  refines R (inconsistent mem1 rows_left) (inconsistent mem2 rows_left).
Proof using every_ok vget_ok.
  induction rows_left as [|row rows_left IH]; simpl; [step|].
  do 2 step. by destruct (_ && _); [step|].
Qed.

Lemma refines_accumulate row columns solution accum :
  refines R (accumulate mem1 row columns solution accum)
    (accumulate mem2 row columns solution accum).
Proof using get_ok.
  revert accum. induction columns as [|col columns IH]; intros accum; simpl;
    [step|].
  step. apply IH.
Qed.

Lemma refines_back_substitute cols pivotColumns rows_down solution :
  refines R (back_substitute mem1 cols pivotColumns rows_down solution)
    (back_substitute mem2 cols pivotColumns rows_down solution).
Proof using get_ok vget_ok.
  revert solution. induction rows_down as [|row rows_down IH]; intros solution;
    simpl; [step|].
  destruct (_ =? -1); [done|]. step.
  apply refines_bind; [apply refines_accumulate|]. by intros accum.
Qed.

Lemma refines_eliminate rows cols :
  refines R (eliminate mem1 rows cols) (eliminate mem2 rows cols).
Proof using get_ok set_ok swap_ok every_ok vget_ok vset_ok.
  unfold eliminate.
  apply refines_bind; [apply refines_forward|]. intros [currentRow pivotColumns].
  apply refines_bind; [apply refines_inconsistent|]. intros [|]; [step|].
  apply refines_bind; [apply refines_back_substitute|]. intros ?. step.
Qed.
End Refinement.

(** *** The operations on the store *)

Lemma refs_at_run h m rs : h !! m = Some (Refs rs) -> refs_at m h = Some (rs, h).
Proof. unfold refs_at. by intros ->. Qed.

Lemma nums_at_run h l a : h !! l = Some (Nums a) -> nums_at l h = Some (a, h).
Proof. unfold nums_at. by intros ->. Qed.

Lemma row_at_run h m rs r :
  h !! m = Some (Refs rs) ->
  row_at m r h = match rs !! r with Some l => Some (l, h) | None => None end.
Proof.
  intros Hm. unfold row_at. rewrite bind_run, (refs_at_run _ _ _ Hm).
  by destruct (rs !! r).
Qed.

Lemma put_run h l o :
  (l < length h)%nat -> put l o h = Some (tt, <[l:=o]> h).
Proof. intros Hl. unfold put. by rewrite decide_True. Qed.

Lemma rows_lookup {h : store} {rs : list loc} {rows : list (list cell)} r :
  Forall2 (fun l row => h !! l = Some (Nums row)) rs rows ->
  match rows !! r with
  | Some row => exists l, rs !! r = Some l /\ h !! l = Some (Nums row)
  | None => rs !! r = None
  end.
Proof.
  intros H. apply Forall2_same_length_lookup in H as [Hlen H].
  destruct (rows !! r) as [row|] eqn:Hrow.
  - destruct (lookup_lt_is_Some_2 rs r) as [l Hl].
    { rewrite Hlen. by eapply lookup_lt_Some. }
    eauto.
  - apply lookup_ge_None. rewrite Hlen. by apply lookup_ge_None.
Qed.

(** Exchanging two entries of a list. *)
Lemma lookup_swap {A} (l : list A) a b x y i :
  l !! a = Some x -> l !! b = Some y ->
  <[b:=x]> (<[a:=y]> l) !! i
  = l !! (if decide (i = b) then a else if decide (i = a) then b else i).
Proof.
  intros Ha Hb.
  pose proof (lookup_lt_Some _ _ _ Ha). pose proof (lookup_lt_Some _ _ _ Hb).
  destruct (decide (i = b)) as [->|Hib].
  - rewrite list_lookup_insert_eq by (rewrite length_insert; lia). done.
  - rewrite list_lookup_insert_ne by done.
    destruct (decide (i = a)) as [->|Hia].
    + rewrite list_lookup_insert_eq by lia. done.
    + by rewrite list_lookup_insert_ne.
Qed.

Lemma NoDup_swap {A} (l : list A) a b x y :
  l !! a = Some x -> l !! b = Some y -> NoDup l -> NoDup (<[b:=x]> (<[a:=y]> l)).
Proof.
  intros Ha Hb Hnd. apply NoDup_alt. intros i j z.
  rewrite !(lookup_swap l a b x y) by done. intros Hi Hj.
  pose proof (proj1 (NoDup_alt l) Hnd _ _ _ Hi Hj) as E.
  repeat case_decide; subst; congruence.
Qed.

Section StoreOperations.
Variables (h0 : store) (matrix vector : loc).

Local Abbreviation R := (store_rel h0 matrix vector).
Local Abbreviation mem := (store_mem matrix vector).

Lemma store_get_ok r c : refines R (m_get mem r c) (m_get value_mem r c).
Proof.
  intros h s (Hframe & Hm & Hv & Hne & Hvec & rs & Hrs & Hnd & Hfresh & Hrows).
  simpl. unfold with_row. pose proof (rows_lookup r Hrows) as Hr.
  rewrite bind_run, (row_at_run _ _ _ _ Hrs).
  destruct (s.1 !! r) as [row|].
  - destruct Hr as (l & -> & Hl). rewrite bind_run, (nums_at_run _ _ _ Hl).
    exists h. split; [done|]. unfold store_rel. eauto 10.
  - by rewrite Hr.
Qed.

Lemma store_every_ok r :
  refines R (m_every_zero mem r) (m_every_zero value_mem r).
Proof.
  intros h s (Hframe & Hm & Hv & Hne & Hvec & rs & Hrs & Hnd & Hfresh & Hrows).
  simpl. unfold with_row. pose proof (rows_lookup r Hrows) as Hr.
  rewrite bind_run, (row_at_run _ _ _ _ Hrs).
  destruct (s.1 !! r) as [row|].
  - destruct Hr as (l & -> & Hl). rewrite bind_run, (nums_at_run _ _ _ Hl).
    exists h. split; [done|]. unfold store_rel. eauto 10.
  - by rewrite Hr.
Qed.

Lemma store_vget_ok i : refines R (v_get mem i) (v_get value_mem i).
Proof.
  intros h s (Hframe & Hm & Hv & Hne & Hvec & Hmat). simpl.
  rewrite bind_run, (nums_at_run _ _ _ Hvec).
  exists h. split; [done|]. unfold store_rel. eauto 10.
Qed.

Lemma store_vset_ok i v : refines R (v_set mem i v) (v_set value_mem i v).
Proof.
  intros h s (Hframe & Hm & Hv & Hne & Hvec & rs & Hrs & Hnd & Hfresh & Hrows).
  simpl. rewrite bind_run, (nums_at_run _ _ _ Hvec).
  pose proof (lookup_lt_Some _ _ _ Hvec) as Hlt.
  rewrite put_run by done. eexists. split; [done|].
  unfold store_rel, holds_vector. simpl. split_and!; try done.
  - intros l Hl. rewrite list_lookup_insert_ne by lia. by apply Hframe.
  - by apply list_lookup_insert_eq.
  - exists rs. split_and!; try done.
    + by rewrite list_lookup_insert_ne.
    + apply Forall2_same_length_lookup in Hrows as [Hlen Hrows].
      apply Forall2_same_length_lookup. split; [done|].
      intros k l row Hl Hrow. rewrite list_lookup_insert_ne; [by eauto|].
      rewrite Forall_lookup in Hfresh. destruct (Hfresh _ _ Hl) as (_ & _ & ?).
      done.
Qed.

Lemma store_set_ok r c v : refines R (m_set mem r c v) (m_set value_mem r c v).
Proof.
  intros h s (Hframe & Hm & Hv & Hne & Hvec & rs & Hrs & Hnd & Hfresh & Hrows).
  simpl. unfold with_row. pose proof (rows_lookup r Hrows) as Hr.
  rewrite bind_run, (row_at_run _ _ _ _ Hrs).
  destruct (s.1 !! r) as [row|] eqn:Hrow; [|by rewrite Hr].
  destruct Hr as (l & Hl & Hhl). rewrite Hl, bind_run, (nums_at_run _ _ _ Hhl).
  pose proof (lookup_lt_Some _ _ _ Hhl) as Hlt.
  rewrite put_run by done. eexists. split; [done|].
  rewrite Forall_lookup in Hfresh.
  destruct (Hfresh _ _ Hl) as (Hl0 & Hlm & Hlv).
  unfold store_rel, holds_vector. simpl. split_and!; try done.
  - intros l' Hl'. rewrite list_lookup_insert_ne by lia. by apply Hframe.
  - by rewrite list_lookup_insert_ne.
  - exists rs. split_and!; try done.
    + by rewrite list_lookup_insert_ne.
    + by apply Forall_lookup.
    + apply Forall2_same_length_lookup in Hrows as [Hlen Hrows].
      apply Forall2_same_length_lookup. split; [by rewrite length_insert|].
      intros k l' row' Hl' Hrow'.
      destruct (decide (k = r)) as [->|Hkr].
      * rewrite list_lookup_insert_eq in Hrow'
          by (by eapply lookup_lt_Some).
        simplify_eq. by apply list_lookup_insert_eq.
      * rewrite list_lookup_insert_ne in Hrow' by done.
        rewrite list_lookup_insert_ne; [by eauto|].
        intros <-. apply Hkr. symmetry. by eapply NoDup_lookup.
Qed.

Lemma store_swap_ok a b : refines R (m_swap mem a b) (m_swap value_mem a b).
Proof.
  intros h s (Hframe & Hm & Hv & Hne & Hvec & rs & Hrs & Hnd & Hfresh & Hrows).
  simpl. unfold with_row.
  pose proof (rows_lookup b Hrows) as Hb. pose proof (rows_lookup a Hrows) as Ha.
  rewrite bind_run, (row_at_run _ _ _ _ Hrs).
  destruct (s.1 !! b) as [rowb|] eqn:Hrowb; [|by rewrite Hb].
  destruct Hb as (lb & Hlb & Hhb). rewrite Hlb.
  rewrite bind_run, (row_at_run _ _ _ _ Hrs).
  destruct (s.1 !! a) as [rowa|] eqn:Hrowa; [|by rewrite Ha].
  destruct Ha as (la & Hla & Hha). rewrite Hla.
  pose proof (lookup_lt_Some _ _ _ Hrs) as Hlt.
  rewrite bind_run, (refs_at_run _ _ _ Hrs), bind_run, put_run by done.
  rewrite bind_run, (refs_at_run _ _ (<[a:=lb]> rs))
    by (by apply list_lookup_insert_eq).
  rewrite put_run by (by rewrite length_insert).
  eexists. split; [done|].
  rewrite Forall_lookup in Hfresh.
  unfold store_rel, holds_vector. simpl. split_and!; try done.
  - intros l' Hl'. rewrite !list_lookup_insert_ne by lia. by apply Hframe.
  - by rewrite !list_lookup_insert_ne.
  - exists (<[b:=la]> (<[a:=lb]> rs)). split_and!.
    + apply list_lookup_insert_eq. by rewrite length_insert.
    + by apply NoDup_swap.
    + apply Forall_insert; [apply Forall_insert|]; [by apply Forall_lookup|eauto..].
    + apply Forall2_same_length_lookup in Hrows as [Hlen Hrows].
      apply Forall2_same_length_lookup.
      split; [by rewrite !length_insert|].
      intros k l' row'.
      rewrite (lookup_swap rs a b la lb), (lookup_swap s.1 a b rowa rowb) by done.
      intros Hl' Hrow'. destruct (Hfresh _ _ Hl') as (_ & ? & _).
      rewrite !list_lookup_insert_ne by done. eauto.
Qed.

(** The whole elimination on the store does what it does on values. *)
Lemma store_eliminate rows cols :
  refines R (eliminate mem rows cols) (eliminate value_mem rows cols).
Proof.
  apply refines_eliminate;
    auto using store_get_ok, store_set_ok, store_swap_ok, store_every_ok,
      store_vget_ok, store_vset_ok.
Qed.
End StoreOperations.

(** *** The copies *)

Lemma alloc_run h o : alloc o h = Some (length h, h ++ [o]).
Proof. reflexivity. Qed.

Lemma copy_rows_run h rs rows :
  Forall2 (fun r row => h !! r = Some (Nums row)) rs rows ->
  copy_rows rs h
  = Some (seq (length h) (length rs),
          h ++ map (fun row => Nums (spread row)) rows).
Proof.
  intros H. revert h H. revert rows.
  induction rs as [|r rs IH]; intros rows h H.
  - apply Forall2_nil_inv_l in H as ->. simpl. by rewrite app_nil_r.
  - apply Forall2_cons_inv_l in H as (row & rows' & Hr & Hrest & ->).
    simpl. rewrite bind_run, (nums_at_run _ _ _ Hr).
    rewrite bind_run, alloc_run, bind_run.
    rewrite (IH rows').
    + simpl. rewrite length_app. simpl. rewrite Nat.add_1_r.
      by rewrite <- app_assoc.
    + eapply List.Forall2_impl; [|exact Hrest]. simpl. intros l x Hl.
      by apply lookup_app_l_Some.
Qed.

(** The store after the copies are made, against the copied values. *)
Lemma copies_related h rows v :
  let copies := seq (length h) (length rows) in
  let h1 := h ++ map (fun row => Nums (spread row)) rows in
  let h2 := h1 ++ [Refs copies] in
  let h3 := h2 ++ [Nums (spread v)] in
  store_rel h (length h1) (length h2) h3 (map spread rows, spread v).
Proof.
  intros copies h1 h2 h3.
  assert (length h1 = length h + length rows)%nat as Hl1.
  { subst h1. by rewrite length_app, length_map. }
  assert (length h2 = S (length h1)) as Hl2.
  { subst h2. rewrite length_app. simpl. lia. }
  unfold store_rel, holds_vector. simpl. split_and!; try lia.
  - intros l Hl. subst h3 h2 h1. rewrite !lookup_app_l; try done.
    all: rewrite ?length_app, ?length_map; simpl; lia.
  - subst h3. by apply list_lookup_middle.
  - exists copies. split_and!.
    + subst h3 h2. rewrite lookup_app_l by (rewrite length_app; simpl; lia).
      by rewrite list_lookup_middle.
    + apply NoDup_seq.
    + apply Forall_seq. intros j Hj. lia.
    + apply Forall2_same_length_lookup.
      split; [subst copies; by rewrite length_seq, length_map|].
      intros i l row [-> Hi]%lookup_seq Hrow.
      apply list_lookup_fmap_Some in Hrow as (row0 & -> & Hrow0).
      subst h3 h2 h1.
      rewrite !lookup_app_l by (rewrite ?length_app, ?length_map; simpl; lia).
      rewrite lookup_app_r by lia.
      replace (length h + i - length h)%nat with i by lia.
      by rewrite list_lookup_fmap, Hrow0.
Qed.

(** On a store that holds a matrix and a vector, [gaussianEliminationGF2]
    returns what [gauss_values] returns on them, throws when it throws, and
    leaves every object of the store as it was. *)
Theorem gauss_refines h inputMatrix inputVector rows v :
  holds_matrix h inputMatrix rows -> holds_vector h inputVector v ->
  match gauss_values rows v with
  | Some result =>
      exists h', gaussianEliminationGF2 inputMatrix inputVector h = Some (result, h')
                 /\ forall l, (l < length h)%nat -> h' !! l = h !! l
  | None => gaussianEliminationGF2 inputMatrix inputVector h = None
  end.
Proof.
  intros (rs & Hm & Hrows) Hv. unfold gaussianEliminationGF2, gauss_values.
  rewrite bind_run, (refs_at_run _ _ _ Hm).
  destruct rows as [|first rows'].
  { by apply Forall2_nil_inv_r in Hrows as ->. }
  pose proof Hrows as Hrows'.
  apply Forall2_cons_inv_r in Hrows' as (r0 & rs' & Hr0 & _ & ->).
  set (rows := first :: rows') in *.
  cbv zeta. rewrite bind_run, (nums_at_run _ _ _ Hr0).
  set (rs := r0 :: rs') in *.
  rewrite bind_run, (copy_rows_run _ _ _ Hrows).
  rewrite bind_run, alloc_run.
  rewrite bind_run, (nums_at_run _ _ v)
    by (by do 2 apply lookup_app_l_Some).
  rewrite bind_run, alloc_run.
  assert (length rs = length rows) as ->
    by (apply Forall2_same_length_lookup in Hrows; tauto).
  pose proof (store_eliminate h _ _ (length rows) (length first) _ _
                (copies_related h rows v)) as H.
  cbv zeta in H.
  destruct (eliminate value_mem _ _ _) as [[result s']|]; simpl.
  - destruct H as (h' & E & Hframe & _). exists h'. split; [exact E|exact Hframe].
  - exact H.
Qed.

Lemma store_of_matrix m v : holds_matrix (store_of m v) (length m) m.
Proof.
  exists (seq 0 (length m)). unfold store_of. split.
  - rewrite lookup_app_r by (by rewrite length_map).
    rewrite length_map. by replace (_ - _)%nat with 0%nat by lia.
  - apply Forall2_same_length_lookup. split; [by rewrite length_seq|].
    intros i l row [-> Hi]%lookup_seq Hrow. simpl.
    rewrite lookup_app_l by (by rewrite length_map).
    by rewrite list_lookup_fmap, Hrow.
Qed.

Lemma store_of_vector m v : holds_vector (store_of m v) (S (length m)) v.
Proof.
  unfold holds_vector, store_of.
  rewrite lookup_app_r by (rewrite length_map; lia).
  rewrite length_map. by replace (_ - _)%nat with 1%nat by lia.
Qed.

(** [solve] is the value run. *)
Theorem solve_values m v : solve m v = gauss_values m v.
Proof.
  unfold solve.
  pose proof (gauss_refines (store_of m v) (length m) (S (length m)) m v
                (store_of_matrix m v) (store_of_vector m v)) as H.
  destruct (gauss_values m v) as [result|].
  - by destruct H as (h' & -> & _).
  - by rewrite H.
Qed.

(** The result of the solver does not depend on where the arrays live. *)
Corollary solve_any_store h inputMatrix inputVector rows v :
  holds_matrix h inputMatrix rows -> holds_vector h inputVector v ->
  fst <$> gaussianEliminationGF2 inputMatrix inputVector h = solve rows v.
Proof.
  intros Hm Hv. rewrite solve_values.
  pose proof (gauss_refines h inputMatrix inputVector rows v Hm Hv) as H.
  destruct (gauss_values rows v) as [result|].
  - by destruct H as (h' & -> & _).
  - by rewrite H.
Qed.

Lemma frame_keeps_inputs (h h' : store) inputMatrix inputVector rows v :
  holds_matrix h inputMatrix rows -> holds_vector h inputVector v ->
  (forall l, (l < length h)%nat -> h' !! l = h !! l) ->
  holds_matrix h' inputMatrix rows /\ holds_vector h' inputVector v.
Proof.
  intros (rs & Hrs & Hrows) Hv Hframe. split.
  - exists rs. split.
    + rewrite Hframe; [done|]. by eapply lookup_lt_Some.
    + eapply List.Forall2_impl; [|exact Hrows]. simpl. intros l row Hl.
      rewrite Hframe; [done|]. by eapply lookup_lt_Some.
  - unfold holds_vector in *. rewrite Hframe; [done|]. by eapply lookup_lt_Some.
Qed.

(** C9. On a store in which [inputMatrix] refers to a matrix and
    [inputVector] to a vector, [gaussianEliminationGF2] returns when the
    matrix has a row, and whenever it returns, every object that was in the
    store is unchanged: in particular the caller's matrix, its rows and the
    caller's vector. *)
Theorem solver_keeps_inputs (h : store) (inputMatrix inputVector : loc)
    (rows : list (list cell)) (v : list cell) :
  holds_matrix h inputMatrix rows -> holds_vector h inputVector v ->
  (rows <> [] ->
   exists result h',
     gaussianEliminationGF2 inputMatrix inputVector h = Some (result, h')) /\
  (forall result h',
     gaussianEliminationGF2 inputMatrix inputVector h = Some (result, h') ->
     (forall l, (l < length h)%nat -> h' !! l = h !! l) /\
     holds_matrix h' inputMatrix rows /\ holds_vector h' inputVector v).
Proof.
  intros Hm Hv.
  pose proof (gauss_refines h inputMatrix inputVector rows v Hm Hv) as H.
  split.
  - intros Hrows. destruct (gauss_values_total rows v Hrows) as [r Hr].
    rewrite Hr in H. destruct H as (h' & E & _). eauto.
  - intros result h' Hrun.
    destruct (gauss_values rows v) as [r|]; [|congruence].
    destruct H as (h'' & E & Hframe). rewrite Hrun in E. injection E as <- <-.
    split; [done|]. by apply (frame_keeps_inputs h).
Qed.

Lemma solver_keeps_inputs_witness :
  let h := [Nums [Num 1; Num 1]; Nums [Num 0; Num 1];
            Refs [0; 1]%nat; Nums [Num 1; Num 0]] in
  let rows := [[Num 1; Num 1]; [Num 0; Num 1]] in
  let v := [Num 1; Num 0] in
  (rows <> [] ->
   exists result h', gaussianEliminationGF2 2%nat 3%nat h = Some (result, h')) /\
  (forall result h',
     gaussianEliminationGF2 2%nat 3%nat h = Some (result, h') ->
     (forall l, (l < length h)%nat -> h' !! l = h !! l) /\
     holds_matrix h' 2%nat rows /\ holds_vector h' 3%nat v).
Proof.
  intros h rows v. apply (solver_keeps_inputs h 2%nat 3%nat rows v).
  - exists [0; 1]%nat. split; [reflexivity|]. repeat constructor.
  - reflexivity.
Defined.

(** On that store the solver returns the vector [1; 0] and allocates its
    working copies after the caller's four objects. *)
Example solver_run_small :
  gaussianEliminationGF2 2%nat 3%nat
    [Nums [Num 1; Num 1]; Nums [Num 0; Num 1]; Refs [0; 1]%nat; Nums [Num 1; Num 0]]
  = Some (Some [Num 1; Num 0],
          [Nums [Num 1; Num 1]; Nums [Num 0; Num 1]; Refs [0; 1]%nat;
           Nums [Num 1; Num 0];
           Nums [Num 1; Num 0]; Nums [Num 0; Num 1]; Refs [4; 5]%nat;
           Nums [Num 1; Num 0]]).
Proof. vm_compute. reflexivity. Qed.

(** ** Reachable boards are solved *)

Lemma toggle_all_board l b : is_board b -> is_board (toggle_all l b).
Proof.
  revert b. induction l as [|i l IH]; intros b Hb; simpl; [done|].
  apply IH. by apply toggleCell_board.
Qed.

Lemma pattern_board i : is_board (pattern i).
Proof. apply toggleCell_board, zero_board_bits. Qed.

Lemma toggle_all_cons i l :
  toggle_all (i :: l) zero_board = vxor (pattern i) (toggle_all l zero_board).
Proof.
  revert i. induction l as [|j l IH]; intros i.
  - simpl. symmetry. apply (vxor_zero_r 25), pattern_board.
  - change (toggle_all (i :: j :: l) zero_board)
      with (toggle_all (j :: l) (pattern i)).
    change (toggle_all (j :: l) (pattern i))
      with (toggle_all l (toggleCell (pattern i) (Int (Z.of_nat j)))).
    rewrite toggleCell_pattern by apply pattern_board.
    fold (pattern j).
    assert (forall a c, is_board a -> is_board c ->
              toggle_all l (vxor a c) = vxor a (toggle_all l c)) as Hgen.
    { clear. induction l as [|k l IH]; intros a c Ha Hc; simpl; [done|].
      rewrite toggleCell_vxor by done. apply IH; [done|].
      by apply toggleCell_board. }
    rewrite Hgen by apply pattern_board.
    reflexivity.
Qed.

Lemma toggle_all_vxor l b :
  is_board b -> toggle_all l b = vxor b (toggle_all l zero_board).
Proof.
  revert b. induction l as [|i l IH]; intros b Hb.
  - simpl. symmetry. by apply (vxor_zero_r 25).
  - rewrite toggle_all_cons. simpl.
    rewrite IH by (by apply toggleCell_board).
    rewrite toggleCell_pattern by done. fold (pattern i).
    apply (vxor_assoc 25); [done|apply pattern_board|].
    apply toggle_all_board, zero_board_bits.
Qed.

Lemma toggle_all_app l1 l2 :
  toggle_all (l1 ++ l2) zero_board
  = vxor (toggle_all l1 zero_board) (toggle_all l2 zero_board).
Proof.
  unfold toggle_all at 1. rewrite fold_left_app.
  fold (toggle_all l1 zero_board).
  apply (toggle_all_vxor l2), toggle_all_board, zero_board_bits.
Qed.

Lemma toggle_all_perm l l' :
  Permutation l l' -> toggle_all l zero_board = toggle_all l' zero_board.
Proof.
  induction 1 as [|i l l' _ IH|i j l|l l' l'' _ IH1 _ IH2].
  - done.
  - by rewrite !toggle_all_cons, IH.
  - rewrite !toggle_all_cons.
    pose proof (toggle_all_board l _ zero_board_bits) as Hl.
    rewrite <- !(vxor_assoc 25) by (done || apply pattern_board).
    by rewrite (vxor_comm (pattern j)).
  - congruence.
Qed.

Lemma vxor_cancel n p a b :
  bits n p -> bits n a -> bits n b -> vxor (vxor p a) (vxor p b) = vxor a b.
Proof.
  intros Hp Ha Hb.
  rewrite (vxor_comm p a).
  rewrite (vxor_assoc n a p) by (done || by apply vxor_bits).
  rewrite <- (vxor_assoc n p p b) by done.
  rewrite (vxor_self n p) by done.
  rewrite (vxor_comm _ b), (vxor_zero_r n b) by done. done.
Qed.

(** The toggles of a sum of two vectors of bits: the sum of their toggles. *)
Lemma support_via_linear g n x e :
  bits n x -> bits n e ->
  toggle_all (support_via g (vxor x e)) zero_board
  = vxor (toggle_all (support_via g x) zero_board)
         (toggle_all (support_via g e) zero_board).
Proof.
  revert g n e. induction x as [|a x IH]; intros g n e Hx He.
  - assert (e = []) as ->.
    { destruct Hx as [<- _], He as [He _]. by destruct e. }
    change (zero_board = vxor zero_board zero_board).
    symmetry. apply (vxor_self 25), zero_board_bits.
  - destruct e as [|c e].
    { destruct Hx as [<- _], He as [He _]. done. }
    destruct n as [|n]; [by destruct Hx|].
    assert (bits n x /\ is_bit a = true) as [Hx' Ha].
    { destruct Hx as [Hl Hb]. simpl in Hl, Hb.
      apply andb_true_iff in Hb as [? ?]. split; [split|]; [lia|done..]. }
    assert (bits n e /\ is_bit c = true) as [He' Hc].
    { destruct He as [Hl Hb]. simpl in Hl, Hb.
      apply andb_true_iff in Hb as [? ?]. split; [split|]; [lia|done..]. }
    specialize (IH (g ∘ S) n e Hx' He').
    pose proof (toggle_all_board (support_via (g ∘ S) x) _ zero_board_bits) as Bx.
    pose proof (toggle_all_board (support_via (g ∘ S) e) _ zero_board_bits) as Be.
    pose proof (pattern_board (g 0%nat)) as Bp.
    set (tx := toggle_all (support_via (g ∘ S) x) zero_board) in *.
    set (te := toggle_all (support_via (g ∘ S) e) zero_board) in *.
    set (p := pattern (g 0%nat)) in *.
    assert (forall y, support_via g (Num 0 :: y) = support_via (g ∘ S) y) as H0
      by reflexivity.
    assert (forall y, support_via g (Num 1 :: y) = g 0%nat :: support_via (g ∘ S) y)
      as H1 by reflexivity.
    change (vxor (a :: x) (c :: e)) with (js_xor a c :: vxor x e).
    destruct (is_bit_cases _ Ha) as [->| ->], (is_bit_cases _ Hc) as [->| ->].
    + change (js_xor (Num 0) (Num 0)) with (Num 0). by rewrite !H0.
    + change (js_xor (Num 0) (Num 1)) with (Num 1).
      rewrite !H0, !H1, !toggle_all_cons, IH. fold p tx te.
      rewrite <- !(vxor_assoc 25) by done. by rewrite (vxor_comm p tx).
    + change (js_xor (Num 1) (Num 0)) with (Num 1).
      rewrite !H0, !H1, !toggle_all_cons, IH. fold p tx te.
      by rewrite <- !(vxor_assoc 25) by done.
    + change (js_xor (Num 1) (Num 1)) with (Num 0).
      rewrite !H0, !H1, !toggle_all_cons, IH. fold p tx te.
      symmetry. by apply (vxor_cancel 25).
Qed.

Lemma support_is_via x : support x = support_via id x.
Proof. reflexivity. Qed.

(** The solver answers the pattern of each of the 25 cells. *)
Lemma patterns_answered :
  forallb (fun i => answers (pattern i) (gauss_values toggleMatrix (pattern i)))
    (seq 0 25) = true.
Proof. vm_compute. reflexivity. Qed.

Lemma answers_spec p r :
  answers p r = true ->
  exists e, r = Some (Some e) /\ bits 25 e /\
            toggle_all (support e) zero_board = p.
Proof.
  unfold answers. destruct r as [[e|]|]; try done.
  intros [[Hl Hb]%andb_true_iff Ht%bool_decide_eq_true]%andb_true_iff.
  exists e. split; [done|]. split; [|done]. split; [by apply Nat.eqb_eq|done].
Qed.

(** Every reachable board has an answer. *)
Lemma reachable_answered b :
  reachable b -> answers b (gauss_values toggleMatrix b) = true.
Proof.
  induction 1 as [|b i Hb IH Hi].
  - vm_compute. reflexivity.
  - apply answers_spec in IH as (x & Hx & Bx & Tx).
    pose proof (proj1 (forallb_forall _ _) patterns_answered (Z.to_nat i)) as Hp.
    cbv beta in Hp.
    apply answers_spec in Hp as (e & He & Be & Te).
    2:{ apply in_seq. unfold BOARD_CELLS, GRID_SIZE in Hi. lia. }
    pose proof (reachable_board _ Hb) as Bb.
    rewrite toggleCell_pattern by done.
    replace (Int i) with (Int (Z.of_nat (Z.to_nat i))) by (f_equal; lia).
    fold (pattern (Z.to_nat i)).
    rewrite (gauss_values_linear toggleMatrix b (pattern (Z.to_nat i)) x e
               Bb (pattern_board _) Hx He).
    unfold answers.
    pose proof (vxor_bits _ _ _ Bx Be) as [Hl Hbits].
    rewrite Hl, Hbits. apply bool_decide_eq_true.
    rewrite support_is_via in Tx, Te |- *.
    rewrite (support_via_linear id 25) by assumption.
    rewrite Tx, Te. reflexivity.
Qed.

Lemma reachable_cleared b :
  reachable b ->
  exists x, solve toggleMatrix b = Some (Some x) /\
            forall l, Permutation l (support x) -> toggle_all l b = zero_board.
Proof.
  intros Hb. pose proof (reachable_board _ Hb) as Bb.
  destruct (answers_spec _ _ (reachable_answered b Hb)) as (x & Hx & Bx & Tx).
  rewrite <- solve_values in Hx.
  exists x. split; [done|].
  intros l Hl. rewrite toggle_all_vxor by done.
  rewrite (toggle_all_perm _ _ Hl), Tx. by apply (vxor_self 25).
Qed.

(** C3. For every board reachable from the all-zero board by in-range
    toggles, the solver run on the toggle matrix and the board returns a
    solution vector, not [null]; toggling, in any order, the cells that the
    vector sets gives the all-zero board. *)
Theorem reachable_solved (b : list cell) :
  reachable b ->
  exists x, solve toggleMatrix b = Some (Some x) /\
            computeSolution b = Some (Some (plan x)) /\
            forall l, Permutation l (support x) -> toggle_all l b = zero_board.
Proof.
  intros Hb. destruct (reachable_cleared b Hb) as (x & Hx & Hall).
  exists x. split; [done|]. split; [|done].
  unfold computeSolution. by rewrite Hx.
Qed.

Lemma reachable_solved_witness :
  exists x, solve toggleMatrix (toggleCell zero_board (Int 12)) = Some (Some x) /\
            computeSolution (toggleCell zero_board (Int 12)) = Some (Some (plan x)) /\
            forall l, Permutation l (support x) ->
                      toggle_all l (toggleCell zero_board (Int 12)) = zero_board.
Proof.
  apply (reachable_solved (toggleCell zero_board (Int 12))).
  apply reachable_toggle; [apply reachable_zero|].
  unfold BOARD_CELLS, GRID_SIZE. lia.
Defined.

(** A reachable board that is not solved has a plan with at least one
    move. *)
Lemma unsolved_plan_nonempty b :
  reachable b -> isSolved b = false ->
  exists p, computeSolution b = Some (Some p) /\ p <> [].
Proof.
  intros Hr Hs.
  destruct (reachable_cleared _ Hr) as (s & Hsolve & Hall).
  exists (plan s). unfold computeSolution. rewrite Hsolve. split; [done|].
  intros Hnil. specialize (Hall (plan s) (plan_permutation s)).
  rewrite Hnil in Hall. unfold toggle_all in Hall. cbn [fold_left] in Hall.
  rewrite Hall in Hs. discriminate Hs.
Qed.

(** A generated board always has such a plan: the generator's boards are
    reachable and not solved. *)
Corollary generated_solvable {F : Type}
    (exceeds_cutoff : F -> nat -> bool) (pick : F -> Z) (x : F) :
  0 <= pick x < BOARD_CELLS ->
  exists p, computeSolution (createPuzzle exceeds_cutoff pick (DFinite x))
            = Some (Some p) /\ p <> [].
Proof.
  intros Hp.
  destruct (createPuzzle_reachable exceeds_cutoff pick x Hp) as (Hr & _ & Hs).
  exact (unsolved_plan_nonempty _ Hr Hs).
Qed.

(** The plan itself clears the board. *)
Corollary plan_clears b x :
  reachable b -> solve toggleMatrix b = Some (Some x) ->
  toggle_all (plan x) b = zero_board.
Proof.
  intros Hb Hx. destruct (reachable_cleared b Hb) as (x' & Hx' & Hall).
  assert (x' = x) as -> by congruence.
  apply Hall, plan_permutation.
Qed.

(** ** The generated puzzle *)

(** [Math.floor(Math.abs(p) % BOARD_CELLS)] names a cell of the grid,
    whatever the finite double [p]. *)
Lemma forced_cell_range (p : Q) : 0 <= forced_cell p < BOARD_CELLS.
Proof.
  unfold forced_cell, js_rem. change (inject_Z BOARD_CELLS) with (25 # 1)%Q.
  pose proof (Qabs_nonneg p) as Ha. set (a := Qabs p) in *.
  assert (Qtrunc (a / (25 # 1)) = Qfloor (a / (25 # 1))) as ->.
  { assert (0 <= a / (25 # 1))%Q as Hq by (apply Qle_shift_div_l; lra).
    destruct (a / (25 # 1))%Q as [n d]. unfold Qtrunc, Qfloor. cbn [Qnum Qden].
    apply Z.quot_div_nonneg; [|lia].
    unfold Qle in Hq. simpl in Hq. lia. }
  pose proof (Qfloor_le (a / (25 # 1))) as Hlo.
  pose proof (Qlt_floor (a / (25 # 1))) as Hhi.
  rewrite inject_Z_plus in Hhi.
  set (t := inject_Z (Qfloor (a / (25 # 1)))) in *.
  assert (a == (25 # 1) * (a / (25 # 1)))%Q as Hdiv by (field).
  assert (0 <= a - (25 # 1) * t)%Q as Hr0 by lra.
  assert (a - (25 # 1) * t < 25 # 1)%Q as Hr1.
  { change (inject_Z 1) with 1%Q in Hhi. lra. }
  split.
  - change 0 with (Qfloor 0). by apply Qfloor_resp_le.
  - unfold BOARD_CELLS, GRID_SIZE. rewrite Zlt_Qlt.
    eapply Qle_lt_trans; [apply Qfloor_le|]. exact Hr1.
Qed.

Section GeneratorForm.
Context {F : Type} (exceeds_cutoff : F -> nat -> bool) (pick : F -> Z).

Lemma generator_loop_form seed l st :
  Forall (fun i => i < 25)%nat l ->
  fold_left (generator_step exceeds_cutoff seed) l st
  = (toggle_all (List.filter (over_threshold exceeds_cutoff seed) l) st.1,
     st.2 + Z.of_nat (length (List.filter (over_threshold exceeds_cutoff seed) l))).
Proof.
  revert st. induction l as [|i l IH]; intros [b t] Hl.
  - simpl. f_equal. lia.
  - apply Forall_cons in Hl as [Hi Hl]. cbn [fold_left List.filter].
    rewrite IH by exact Hl. unfold generator_step.
    destruct (over_threshold exceeds_cutoff seed i); [|reflexivity].
    cbn [fst snd length]. unfold toggle_all at 2. cbn [fold_left].
    fold (toggle_all (List.filter (over_threshold exceeds_cutoff seed) l)
            (toggleCell b (Int (Z.of_nat i)))).
    rewrite Z.rem_small by (unfold BOARD_CELLS, GRID_SIZE; lia).
    f_equal. lia.
Qed.
End GeneratorForm.

(** The generator as the toggles of the passing iterations, with the
    forced toggle exactly when they leave the board solved. *)
Lemma createPuzzle_form {F : Type} (exceeds_cutoff : F -> nat -> bool)
    (pick : F -> Z) (randomSeed : double F) :
  createPuzzle exceeds_cutoff pick randomSeed
  = (let passing := List.filter (over_threshold exceeds_cutoff randomSeed)
                      (seq 0 (Z.to_nat BOARD_CELLS)) in
     let board := toggle_all passing zero_board in
     if isSolved board then toggleCell zero_board (forced_index pick randomSeed)
     else board).
Proof.
  unfold createPuzzle. rewrite generator_loop_form.
  - cbv zeta. cbn [fst snd].
    generalize (List.filter (over_threshold exceeds_cutoff randomSeed)
                  (seq 0 (Z.to_nat BOARD_CELLS))) as passing.
    intros passing.
    pose proof (toggle_all_board passing zero_board zero_board_bits) as Hb.
    destruct (isSolved (toggle_all passing zero_board)) eqn:Hs.
    + rewrite orb_true_r. by rewrite (solved_board_zero _ Hb Hs).
    + rewrite orb_false_r. destruct passing as [|i passing].
      * unfold toggle_all in Hs. cbn [fold_left] in Hs. discriminate Hs.
      * replace (0 + Z.of_nat (length (i :: passing)) =? 0) with false;
          [reflexivity|].
        symmetry. apply Z.eqb_neq. simpl. lia.
  - apply List.Forall_forall. intros i Hi%in_seq.
    change (Z.to_nat BOARD_CELLS) with 25%nat in Hi. lia.
Qed.

(** C4, amended. For every finite seed, whatever the threshold tests give
    and whatever finite double [Math.sin(seed) * BOARD_CELLS] is: the
    forced index [Math.floor(Math.abs(...) % BOARD_CELLS)] names a cell of
    the grid; when the loop applies no toggle or leaves the board solved,
    the result is the board of the loop with one more toggle, at the
    forced index; otherwise it is the board of the loop; and in both cases
    it is a board reachable from the all-zero board by in-range toggles
    that is not solved.  (The generator is a function of the seed, so
    equal seeds give equal boards.) *)
Theorem createPuzzle_finite_unsolved {F : Type}
    (exceeds_cutoff : F -> nat -> bool) (scaled_sine : F -> Q) (x : F) :
  let forced := forced_cell (scaled_sine x) in
  let passing := List.filter (over_threshold exceeds_cutoff (DFinite x))
                   (seq 0 (Z.to_nat BOARD_CELLS)) in
  let looped := toggle_all passing zero_board in
  let b := createPuzzle exceeds_cutoff (sine_pick scaled_sine) (DFinite x) in
  0 <= forced < BOARD_CELLS /\
  (passing = [] \/ isSolved looped = true ->
   b = toggleCell looped (Int forced)) /\
  (passing <> [] -> isSolved looped = false -> b = looped) /\
  reachable b /\ is_board b /\ isSolved b = false.
Proof.
  intros forced passing looped b.
  pose proof (forced_cell_range (scaled_sine x)) as Hrange.
  fold forced in Hrange. split; [exact Hrange|].
  pose proof (createPuzzle_form exceeds_cutoff (sine_pick scaled_sine)
                (DFinite x)) as Hform.
  cbv zeta in Hform. fold passing in Hform. fold looped in Hform.
  fold b in Hform. cbn [forced_index] in Hform.
  change (sine_pick scaled_sine x) with forced in Hform.
  pose proof (toggle_all_board passing zero_board zero_board_bits) as Hl.
  fold looped in Hl.
  assert (passing = [] -> isSolved looped = true) as Hnone.
  { intros E. subst looped. rewrite E. reflexivity. }
  split; [|split].
  - intros Hcase.
    assert (isSolved looped = true) as Hs by (destruct Hcase; auto).
    rewrite Hs in Hform. by rewrite (solved_board_zero _ Hl Hs).
  - intros _ Hs. by rewrite Hs in Hform.
  - exact (createPuzzle_reachable exceeds_cutoff (sine_pick scaled_sine) x
             Hrange).
Qed.

Lemma createPuzzle_finite_unsolved_witness :
  0 <= forced_cell (7 # 2) < BOARD_CELLS /\
  createPuzzle (F:=unit) (fun _ _ => false) (sine_pick (fun _ => 7 # 2))
    (DFinite tt) = toggleCell zero_board (Int (forced_cell (7 # 2))) /\
  isSolved (createPuzzle (F:=unit) (fun _ _ => false)
              (sine_pick (fun _ => 7 # 2)) (DFinite tt)) = false.
Proof.
  destruct (createPuzzle_finite_unsolved (F:=unit) (fun _ _ => false)
              (fun _ => 7 # 2) tt) as (Hrange & Hforced & _ & _ & _ & Hs).
  split; [exact Hrange|]. split; [|exact Hs].
  apply Hforced. left. reflexivity.
Defined.

(** * Further properties of the code *)

(** ** Coordinates *)

(** X1. [coordToIndex] undoes [indexToCoord] on every non-negative safe
    integer; on a negative index that is not a multiple of 5 the result
    is the index minus 5 (when that is a safe integer), because [%] keeps
    the sign of the index while [Math.floor] rounds down. *)
Theorem coordToIndex_indexToCoord (i : Z) :
  let rc := indexToCoord (Int i) in
  (0 <= i -> safe_integer i -> coordToIndex rc.1 rc.2 = Int i) /\
  (i < 0 -> safe_integer (i - GRID_SIZE) -> i mod GRID_SIZE <> 0 ->
   coordToIndex rc.1 rc.2 = Int (i - GRID_SIZE)).
Proof.
  unfold indexToCoord, coordToIndex, GRID_SIZE. simpl.
  pose proof (Z.div_mod i 5 ltac:(lia)) as Hdiv.
  pose proof (Z.mod_pos_bound i 5 ltac:(lia)) as Hmod.
  pose proof (Z.quot_rem' i 5) as Hquot.
  split.
  - intros Hi _. f_equal. pose proof (Z.rem_bound_pos i 5 Hi ltac:(lia)). lia.
  - intros Hi _ Hne. f_equal.
    pose proof (Z.rem_bound_pos_neg i 5 ltac:(lia) ltac:(lia)). lia.
Qed.

Lemma coordToIndex_indexToCoord_witness :
  coordToIndex (indexToCoord (Int 13)).1 (indexToCoord (Int 13)).2 = Int 13 /\
  coordToIndex (indexToCoord (Int (-1))).1 (indexToCoord (Int (-1))).2 = Int (-6).
Proof.
  split.
  - apply (coordToIndex_indexToCoord 13); [lia|]. unfold safe_integer. lia.
  - apply (coordToIndex_indexToCoord (-1)); [lia| |].
    + unfold safe_integer, GRID_SIZE. lia.
    + unfold GRID_SIZE. discriminate.
Defined.

(** X2. [indexToCoord] undoes [coordToIndex] on every row from 0 up and
    every column of the grid, as long as the index is a safe integer. *)
Theorem indexToCoord_coordToIndex (row col : Z) :
  0 <= row -> 0 <= col < GRID_SIZE ->
  safe_integer (row * GRID_SIZE + col) ->
  indexToCoord (coordToIndex (Int row) (Int col)) = (Int row, Int col).
Proof.
  unfold indexToCoord, coordToIndex, GRID_SIZE. simpl. intros Hr Hc _.
  rewrite Z.rem_mod_nonneg by lia.
  f_equal; f_equal.
  - rewrite Z.div_add_l by lia. rewrite Z.div_small by lia. lia.
  - rewrite Z.add_comm, Z.mod_add by lia. apply Z.mod_small. lia.
Qed.

Lemma indexToCoord_coordToIndex_witness :
  indexToCoord (coordToIndex (Int 4) (Int 3)) = (Int 4, Int 3).
Proof.
  apply (indexToCoord_coordToIndex 4 3); unfold safe_integer, GRID_SIZE; lia.
Defined.

(** ** The board mutator, cell by cell *)

Lemma vxor_get n a b k :
  bits n a -> bits n b -> (k < n)%nat ->
  js_get (vxor a b) k = js_xor (js_get a k) (js_get b k).
Proof.
  intros Ha Hb Hk.
  destruct (bits_get _ _ _ Ha Hk) as [Ga _].
  destruct (bits_get _ _ _ Hb Hk) as [Gb _].
  destruct (bits_get _ _ _ (vxor_bits _ _ _ Ha Hb) Hk) as [Gx _].
  unfold vxor in *. rewrite lookup_zip_with, Ga, Gb in Gx. simpl in Gx.
  congruence.
Qed.

(** The pattern of a cell holds 1 exactly at the cell and at the cells one
    step away from it. *)
Lemma pattern_table :
  forallb (fun i => forallb (fun k =>
     bool_decide (js_get (pattern i) k
                  = Num (if cell_distance i k <=? 1 then 1 else 0)))
     (seq 0 25)) (seq 0 25) = true.
Proof. vm_compute. reflexivity. Qed.

Lemma pattern_get i k :
  (i < 25)%nat -> (k < 25)%nat ->
  js_get (pattern i) k = Num (if cell_distance i k <=? 1 then 1 else 0).
Proof.
  intros Hi Hk. pose proof pattern_table as H.
  rewrite forallb_forall in H. specialize (H i ltac:(apply in_seq; lia)).
  cbv beta in H. rewrite forallb_forall in H.
  specialize (H k ltac:(apply in_seq; lia)). by apply bool_decide_eq_true in H.
Qed.

(** X3. On a board, a toggle at a cell [i] of the grid flips cell [i]
    and the cells one step above, below, left and right of it that are on
    the grid, and leaves every other cell as it was. *)
Theorem toggleCell_cells (b : list cell) (i k : nat) :
  is_board b -> (i < 25)%nat -> (k < 25)%nat ->
  js_get (toggleCell b (Int (Z.of_nat i))) k =
  if cell_distance i k <=? 1 then js_xor (js_get b k) (Num 1) else js_get b k.
Proof.
  intros Hb Hi Hk. rewrite toggleCell_pattern by done. fold (pattern i).
  rewrite (vxor_get 25) by (done || apply pattern_board).
  rewrite pattern_get by done.
  destruct (cell_distance i k <=? 1); [done|].
  apply js_xor_zero_r. by destruct (bits_get _ _ _ Hb Hk).
Qed.

Lemma toggleCell_cells_witness :
  js_get (toggleCell zero_board (Int (Z.of_nat 6))) 7 =
  if cell_distance 6 7 <=? 1 then js_xor (js_get zero_board 7) (Num 1)
  else js_get zero_board 7.
Proof.
  apply (toggleCell_cells zero_board 6 7); [split; reflexivity|lia|lia].
Defined.

Lemma toggle_all_perm_any l l' b :
  is_board b -> Permutation l l' -> toggle_all l b = toggle_all l' b.
Proof.
  intros Hb Hp. rewrite (toggle_all_vxor l), (toggle_all_vxor l') by done.
  by rewrite (toggle_all_perm _ _ Hp).
Qed.

(** X4. Toggles commute: on a board, two toggles give the same board in
    either order, whatever the two indices, and a sequence of toggles
    gives the same board in any order. *)
Theorem toggles_commute (b : list cell) :
  is_board b ->
  (forall i j : number,
     toggleCell (toggleCell b i) j = toggleCell (toggleCell b j) i) /\
  (forall l l', Permutation l l' -> toggle_all l b = toggle_all l' b).
Proof.
  intros Hb. split; [|intros; by apply toggle_all_perm_any].
  intros i j.
  pose proof (toggleCell_board _ i zero_board_bits) as Hi.
  pose proof (toggleCell_board _ j zero_board_bits) as Hj.
  rewrite (toggleCell_pattern (toggleCell b i)) by (by apply toggleCell_board).
  rewrite (toggleCell_pattern (toggleCell b j)) by (by apply toggleCell_board).
  rewrite (toggleCell_pattern b i), (toggleCell_pattern b j) by done.
  rewrite !(vxor_assoc 25) by done. f_equal. apply vxor_comm.
Qed.

Lemma toggles_commute_witness :
  (forall i j : number,
     toggleCell (toggleCell zero_board i) j = toggleCell (toggleCell zero_board j) i) /\
  (forall l l', Permutation l l' -> toggle_all l zero_board = toggle_all l' zero_board).
Proof. apply (toggles_commute zero_board). split; reflexivity. Defined.

Lemma js_get_column (m : list (list cell)) i k :
  js_get (map (fun row => js_get row i) m) k = entry m k i.
Proof.
  unfold entry. revert k. induction m as [|row m IH]; intros [|k]; try done.
  - simpl. unfold js_get at 1. simpl. unfold js_get.
    by destruct (row !! i) as [[]|].
  - apply IH.
Qed.

(** X5. The toggle matrix is the table of [toggleCell]: on a board, a
    toggle at cell [i] changes cell [k] by the entry in row [k], column
    [i] of the matrix. *)
Theorem toggleMatrix_is_toggleCell (b : list cell) (i k : nat) :
  is_board b -> (i < 25)%nat -> (k < 25)%nat ->
  js_get (toggleCell b (Int (Z.of_nat i))) k
  = js_xor (js_get b k) (entry toggleMatrix k i).
Proof.
  intros Hb Hi Hk. rewrite toggleCell_pattern by done. fold (pattern i).
  rewrite (vxor_get 25) by (done || apply pattern_board). f_equal.
  pose proof toggleMatrix_columns as H. rewrite forallb_forall in H.
  specialize (H i ltac:(apply in_seq; lia)). apply bool_decide_eq_true in H.
  fold (pattern i) in H. rewrite <- H. apply js_get_column.
Qed.

Lemma toggleMatrix_is_toggleCell_witness :
  js_get (toggleCell zero_board (Int (Z.of_nat 12))) 7
  = js_xor (js_get zero_board 7) (entry toggleMatrix 7 12).
Proof.
  apply (toggleMatrix_is_toggleCell zero_board 12 7); [split; reflexivity|lia|lia].
Defined.

(** ** The solver on any matrix *)

(** X6. On a store holding a matrix and a vector, the solver throws
    exactly when the matrix has no row (it reads the length of row 0);
    with at least one row it returns, whatever the rows and the vector
    hold. *)
Theorem solver_throws_iff_empty (h : store) (inputMatrix inputVector : loc)
    (rows : list (list cell)) (v : list cell) :
  holds_matrix h inputMatrix rows -> holds_vector h inputVector v ->
  gaussianEliminationGF2 inputMatrix inputVector h = None <-> rows = [].
Proof.
  intros Hm Hv.
  pose proof (gauss_refines h inputMatrix inputVector rows v Hm Hv) as H.
  split.
  - intros Hnone. destruct rows as [|first rows']; [done|].
    destruct (gauss_values_total (first :: rows') v) as [r Hr]; [done|].
    rewrite Hr in H. destruct H as (h' & E & _). congruence.
  - intros ->. exact H.
Qed.

Lemma solver_throws_iff_empty_witness :
  gaussianEliminationGF2 0%nat 1%nat [Refs []; Nums [Num 1]] = None
  <-> @nil (list cell) = [].
Proof.
  apply (solver_throws_iff_empty [Refs []; Nums [Num 1]] 0%nat 1%nat [] [Num 1]).
  - exists []. split; [reflexivity|constructor].
  - reflexivity.
Defined.

Lemma js_and_one_is_bit a : is_bit (js_and a (Num 1)) = true.
Proof.
  unfold js_and. change (to_int32 (Num 1)) with 1.
  change 1 with (Z.ones 1) at 1. rewrite Z.land_ones by lia.
  pose proof (Z.mod_pos_bound (to_int32 a) (2 ^ 1) ltac:(lia)) as H.
  change (2 ^ 1) with 2 in *.
  destruct (to_int32 a mod 2) as [|p|p] eqn:E; try done; [|lia].
  destruct p; try done; lia.
Qed.

Section SolutionShape.
Variables rows cols : nat.

Lemma runs_weaken {A} (P Q : A -> Prop) (m : St value_state A) :
(forall a, P a -> Q a) -> runs rows P m -> runs rows Q m.
Proof.
intros HPQ Hm s Hs. destruct (Hm s Hs) as (a & s' & E & Hs' & Ha).
exists a, s'. eauto.
Qed.

Lemma runs_forward_locals columns currentRow pivotColumns :
Forall (fun c => c < cols)%nat columns ->
locals_ok rows cols (currentRow, pivotColumns) ->
runs rows (locals_ok rows cols)
  (forward value_mem rows cols columns currentRow pivotColumns).
Proof.
intros Hcols. revert currentRow pivotColumns.
induction Hcols as [|col columns Hcol _ IH]; intros currentRow pivotColumns Hok;
  simpl.
- by apply runs_ret.
- destruct (currentRow <? rows)%nat eqn:Hlt; [|by apply runs_ret].
  apply Nat.ltb_lt in Hlt.
  eapply runs_bind.
  { apply runs_find_pivot. apply List.Forall_forall. intros r Hr%in_seq. lia. }
  intros pivotRow Hp. simpl in Hp.
  destruct (pivotRow =? rows)%nat eqn:Hpr; [by apply IH|].
  apply Nat.eqb_neq in Hpr.
  eapply (runs_bind rows (fun _ => True)).
  { destruct (negb _); [|by apply runs_ret]. apply runs_swap_rows; lia. }
  intros _ _.
  eapply runs_bind; [by apply runs_clear_column|]. intros _ _.
  apply IH. destruct Hok as [_ Hpc]. split; simpl; [lia|].
  apply Forall_insert; [done|lia].
Qed.

Lemma runs_back_substitute_bits pivotColumns rows_down solution :
Forall (fun r => r < rows)%nat rows_down ->
Forall (fun p => -1 <= p < Z.of_nat cols) pivotColumns ->
bits cols solution ->
runs rows (bits cols)
  (back_substitute value_mem cols pivotColumns rows_down solution).
Proof.
intros Hrows Hpc. revert solution.
induction Hrows as [|row rows_down Hr _ IH]; intros solution Hsol; simpl.
- by apply runs_ret.
- assert (-1 <= default (-1) (pivotColumns !! row) < Z.of_nat cols) as Hp.
  { destruct (pivotColumns !! row) as [p|] eqn:Hrow; simpl; [|lia].
    rewrite Forall_lookup in Hpc. eauto. }
  destruct (_ =? -1) eqn:Hm; [by apply IH|]. apply Z.eqb_neq in Hm.
  eapply runs_bind; [apply reads_runs, reads_v_get|]. intros accum0 _.
  eapply runs_bind; [by apply reads_runs, reads_accumulate|]. intros accum _.
  apply IH. apply js_set_bits; [done|lia|apply js_and_one_is_bit].
Qed.

Lemma runs_eliminate_bits :
runs rows (fun r => forall x, r = Some x -> bits cols x)
  (eliminate value_mem rows cols).
Proof.
unfold eliminate.
eapply runs_bind.
{ apply runs_forward_locals.
  - apply List.Forall_forall. intros c Hc%in_seq. lia.
  - split; simpl; [lia|]. apply Forall_replicate. lia. }
intros [currentRow pivotColumns] [Hc Hpc]. simpl in Hc, Hpc.
eapply runs_bind.
{ apply reads_runs, reads_inconsistent.
  apply List.Forall_forall. intros r Hr%in_seq. lia. }
intros [|] _; [by apply runs_ret|].
eapply runs_bind.
{ apply runs_back_substitute_bits; [|done|apply bits_zero].
  apply List.Forall_forall. intros r Hr%in_rev%in_seq. lia. }
intros x Hx. apply runs_ret. by intros ? [= <-].
Qed.
End SolutionShape.

(** X7. Whatever the matrix and the vector hold, a solution returned by
    the solver has one entry per column of row 0, and every entry is 0
    or 1. *)
Theorem solution_shape (h : store) (inputMatrix inputVector : loc)
    (first : list cell) (rest : list (list cell)) (v x : list cell) (h' : store) :
  holds_matrix h inputMatrix (first :: rest) -> holds_vector h inputVector v ->
  gaussianEliminationGF2 inputMatrix inputVector h = Some (Some x, h') ->
  length x = length first /\ forallb is_bit x = true.
Proof.
  intros Hm Hv Hrun.
  pose proof (gauss_refines h inputMatrix inputVector _ v Hm Hv) as H.
  unfold gauss_values in H.
  destruct (runs_eliminate_bits (length (first :: rest)) (length first)
              (map spread (first :: rest), spread v))
    as (r & s' & E & _ & Hr).
  { simpl. by rewrite length_map. }
  rewrite E in H. simpl in H. destruct H as (h'' & E' & _).
  rewrite Hrun in E'. injection E' as <- _. by apply Hr.
Qed.

Lemma solution_shape_witness :
  length [Num 1; Num 0] = length [Num 1; Num 1] /\
  forallb is_bit [Num 1; Num 0] = true.
Proof.
  apply (solution_shape
           [Nums [Num 1; Num 1]; Nums [Num 0; Num 1]; Refs [0; 1]%nat;
            Nums [Num 1; Num 0]] 2%nat 3%nat
           [Num 1; Num 1] [[Num 0; Num 1]] [Num 1; Num 0] [Num 1; Num 0]
           [Nums [Num 1; Num 1]; Nums [Num 0; Num 1]; Refs [0; 1]%nat;
            Nums [Num 1; Num 0];
            Nums [Num 1; Num 0]; Nums [Num 0; Num 1]; Refs [4; 5]%nat;
            Nums [Num 1; Num 0]]).
  - exists [0; 1]%nat. split; [reflexivity|]. repeat constructor.
  - reflexivity.
  - vm_compute. reflexivity.
Defined.

(** *** Adding a vector that has a solution *)

Lemma sim3_inconsistent_follows rows rows_left :
  Forall (fun r => r < rows)%nat rows_left ->
  sim3 rows bad_follows (inconsistent value_mem rows_left)
    (inconsistent value_mem rows_left) (inconsistent value_mem rows_left).
Proof.
  induction 1 as [|row rows_left Hr Hrest IH]; simpl.
  - by apply sim3_ret.
  - eapply sim3_bind; [by apply sim3_m_every_zero|]. intros sum ? ? (<- & <- & _).
    eapply sim3_bind; [by apply sim3_v_get|]. intros v1 v2 v3 (B1 & B2 & ->).
    destruct sum; [|done]. simpl.
    destruct (is_bit_cases _ B1) as [->| ->], (is_bit_cases _ B2) as [->| ->];
      simpl; try done.
    all: apply reads_sim3;
      [apply reads_ret || by apply (reads_inconsistent rows) ..|].
    all: unfold bad_follows; intros s1 s2 s3 a1 a2 a3 _ E1 E2 E3 ?;
      cbv [mret St_ret] in *; by simplify_eq.
Qed.

Lemma sim3_eliminate_follows rows cols :
  sim3 rows (result_follows cols) (eliminate value_mem rows cols)
    (eliminate value_mem rows cols) (eliminate value_mem rows cols).
Proof.
  unfold eliminate.
  eapply sim3_bind.
  { apply (sim3_forward rows cols).
    - apply List.Forall_forall. intros c Hc%in_seq. lia.
    - split; simpl; [lia|]. apply Forall_replicate. lia. }
  intros [currentRow pivotColumns] ? ? (<- & <- & Hcr & Hpc). simpl in Hcr, Hpc.
  assert (Forall (fun r => r < rows)%nat (seq currentRow (rows - currentRow))) as Hup.
  { apply List.Forall_forall. intros r Hr%in_seq. lia. }
  assert (Forall (fun r => r < rows)%nat (rev (seq 0 currentRow))) as Hdown.
  { apply List.Forall_forall. intros r Hr%in_rev%in_seq. lia. }
  eapply sim3_bind; [by apply sim3_inconsistent_follows|]. intros b1 b2 b3 Hb.
  assert (forall b : bool, reads rows
            (if b then mret None
             else back_substitute value_mem cols pivotColumns
                    (rev (seq 0 currentRow)) (filled cols (Num 0))
                  ≫= fun solution => mret (Some solution))) as Hreads.
  { intros [|]; [apply reads_ret|].
    apply reads_bind; [by apply reads_back_substitute|]. intros ?. apply reads_ret. }
  unfold bad_follows in Hb. destruct b1.
  { apply reads_sim3;
      [first [apply (Hreads true)|apply Hreads]..|].
    unfold result_follows. intros s1 s2 s3 a1 a2 a3 _ E1 _ _ x1 ?.
    cbv [mret St_ret] in *. simplify_eq. }
  rewrite Hb by done. destruct b2.
  { apply reads_sim3;
      [first [apply (Hreads true)|apply (Hreads false)]..|].
    unfold result_follows. intros s1 s2 s3 a1 a2 a3 _ _ E2 E3 x1 _.
    cbv [mret St_ret] in *. by simplify_eq. }
  eapply sim3_bind.
  { apply (sim3_back_substitute rows cols); try done.
    split; [apply bits_zero|]. split; [apply bits_zero|].
    symmetry. apply (vxor_self cols), bits_zero. }
  intros x1 x2 x3 (X1 & X2 & ->). apply sim3_ret.
  intros ? [= <-]. done.
Qed.

Lemma gauss_values_shift m v1 v2 x1 :
  bits (length m) v1 -> bits (length m) v2 ->
  gauss_values m v1 = Some (Some x1) ->
  gauss_values m (vxor v1 v2)
  = option_map (option_map (vxor x1)) (gauss_values m v2).
Proof.
  intros Hv1 Hv2. unfold gauss_values.
  destruct m as [|first m']; [done|]. set (m := first :: m') in *.
  rewrite (bits_spread _ _ Hv1), (bits_spread _ _ Hv2),
    (bits_spread _ _ (vxor_bits _ _ _ Hv1 Hv2)).
  destruct (sim3_eliminate_follows (length m) (length first)
              (map spread m, v1) (map spread m, v2) (map spread m, vxor v1 v2))
    as (r1 & r2 & r3 & s1 & s2 & s3 & E1 & E2 & E3 & Hr & _).
  { unfold lin_states. simpl. split_and!; try done. by rewrite length_map. }
  rewrite E1, E2, E3. simpl. intros [= ->].
  specialize (Hr x1 eq_refl). destruct r2 as [x2|]; simpl.
  - by destruct Hr as (_ & _ & ->).
  - by rewrite Hr.
Qed.

(** X8. The solver is linear in the vector, on any matrix: when [v1] has
    the solution [x1], the answer for the entry-wise sum of [v1] and [v2]
    is the answer for [v2] with [x1] added, and is [null] when [v2] has no
    solution. *)
Theorem solve_linear (m : list (list cell)) (v1 v2 x1 : list cell) :
  bits (length m) v1 -> bits (length m) v2 ->
  solve m v1 = Some (Some x1) ->
  solve m (vxor v1 v2) = option_map (option_map (vxor x1)) (solve m v2).
Proof. rewrite !solve_values. apply gauss_values_shift. Qed.

Lemma solve_linear_witness :
  solve [[Num 1; Num 1]; [Num 0; Num 1]] (vxor [Num 1; Num 0] [Num 0; Num 1])
  = option_map (option_map (vxor [Num 1; Num 0]))
      (solve [[Num 1; Num 1]; [Num 0; Num 1]] [Num 0; Num 1]).
Proof.
  apply (solve_linear [[Num 1; Num 1]; [Num 0; Num 1]]
           [Num 1; Num 0] [Num 0; Num 1] [Num 1; Num 0]).
  - split; reflexivity.
  - split; reflexivity.
  - vm_compute. reflexivity.
Defined.

(** X9. The answer of the solver depends only on what the matrix and the
    vector hold, not on where they live in the store nor on what else the
    store holds. *)
Theorem solver_reads_contents (h1 h2 : store) (m1 v1 m2 v2 : loc)
    (rows : list (list cell)) (v : list cell) :
  holds_matrix h1 m1 rows -> holds_vector h1 v1 v ->
  holds_matrix h2 m2 rows -> holds_vector h2 v2 v ->
  fst <$> gaussianEliminationGF2 m1 v1 h1 = fst <$> gaussianEliminationGF2 m2 v2 h2.
Proof.
  intros Hm1 Hv1 Hm2 Hv2.
  by rewrite (solve_any_store h1 m1 v1 rows v), (solve_any_store h2 m2 v2 rows v).
Qed.

Lemma solver_reads_contents_witness :
  fst <$> gaussianEliminationGF2 1%nat 2%nat
            [Nums [Num 1]; Refs [0%nat]; Nums [Num 1]]
  = fst <$> gaussianEliminationGF2 3%nat 0%nat
              [Nums [Num 1]; Nums [Num 0; Num 0]; Nums [Num 1];
               Refs [2%nat]].
Proof.
  apply (solver_reads_contents _ _ 1%nat 2%nat 3%nat 0%nat [[Num 1]] [Num 1]).
  - exists [0%nat]. split; [reflexivity|]. repeat constructor.
  - reflexivity.
  - exists [2%nat]. split; [reflexivity|]. repeat constructor.
  - reflexivity.
Defined.

(** ** Every board: reachable or without solution *)

Lemma reachable_toggle_all l b :
  reachable b -> Forall (fun i => i < 25)%nat l -> reachable (toggle_all l b).
Proof.
  intros Hb Hl. revert b Hb. induction Hl as [|i l Hi _ IH]; intros b Hb; [done|].
  simpl. apply IH. apply reachable_toggle; [done|].
  unfold BOARD_CELLS, GRID_SIZE. lia.
Qed.

Lemma reachable_as_toggles b :
  reachable b -> exists l, Forall (fun i => i < 25)%nat l /\ b = toggle_all l zero_board.
Proof.
  induction 1 as [|b i _ (l & Hl & ->) Hi].
  - by exists [].
  - exists (l ++ [Z.to_nat i]). split.
    + apply Forall_app. split; [done|]. constructor; [|done].
      unfold BOARD_CELLS, GRID_SIZE in Hi. lia.
    + unfold toggle_all. rewrite fold_left_app. simpl.
      by rewrite Z2Nat.id by lia.
Qed.

Lemma reachable_vxor a b : reachable a -> reachable b -> reachable (vxor a b).
Proof.
  intros Ha Hb. destruct (reachable_as_toggles b Hb) as (l & Hl & ->).
  rewrite <- toggle_all_vxor by (by apply reachable_board).
  by apply reachable_toggle_all.
Qed.

Lemma support_via_lt g x j :
  j ∈ support_via g x -> exists i, (i < length x)%nat /\ j = g i.
Proof.
  unfold support_via. intros ([i v] & Hin & Hf)%list_elem_of_omap.
  apply elem_of_lookup_imap in Hin as (k & w & [= -> ->] & Hk).
  exists k. split; [by eapply lookup_lt_Some|].
  destruct w; try done; by destruct (strict_eq _ _); simplify_eq.
Qed.

Lemma support_lt x : Forall (fun j => j < length x)%nat (support x).
Proof.
  rewrite support_is_via. apply List.Forall_forall. intros j Hj.
  apply list_elem_of_In in Hj.
  apply support_via_lt in Hj as (i & Hi & ->). done.
Qed.

(** A board that the solver answers is reachable. *)
Lemma answered_reachable p r : answers p r = true -> reachable p.
Proof.
  intros (e & _ & [He _] & <-)%answers_spec.
  apply reachable_toggle_all; [constructor|].
  rewrite <- He. apply support_lt.
Qed.

(** Every board with a single 1 is, up to a reachable board, its class
    board. *)
Lemma units_classified :
  forallb (fun i =>
     answers (vxor (unit_board i) (unit_class i))
       (gauss_values toggleMatrix (vxor (unit_board i) (unit_class i))))
    (seq 0 25) = true.
Proof. vm_compute. reflexivity. Qed.

Lemma unit_class_in i : In (unit_class i) class_boards.
Proof.
  unfold unit_class, class_boards.
  destruct (strict_eq _ 1), (strict_eq _ 1); simpl; auto.
Qed.

Lemma class_boards_bits c : In c class_boards -> is_board c.
Proof.
  intros [<-|[<-|[<-|[<-|[]]]]]; split; reflexivity.
Qed.

Lemma class_boards_closed c c' :
  In c class_boards -> In c' class_boards -> In (vxor c c') class_boards.
Proof.
  assert (forallb (fun c => forallb (fun c' =>
            existsb (fun d => bool_decide (vxor c c' = d)) class_boards)
            class_boards) class_boards = true) as H by (vm_compute; reflexivity).
  intros Hc Hc'. rewrite forallb_forall in H. specialize (H c Hc).
  rewrite forallb_forall in H. specialize (H c' Hc').
  apply existsb_exists in H as (d & Hd & E). by apply bool_decide_eq_true in E as ->.
Qed.

Lemma class_boards_unsolvable c :
  In c class_boards -> c <> zero_board -> gauss_values toggleMatrix c = Some None.
Proof.
  assert (forallb (fun c => bool_decide (c = zero_board)
                           || bool_decide (gauss_values toggleMatrix c = Some None))
            class_boards = true) as H by (vm_compute; reflexivity).
  intros Hc Hne. rewrite forallb_forall in H. specialize (H c Hc).
  apply orb_true_iff in H as [H|H]; apply bool_decide_eq_true in H;
    [by destruct Hne|exact H].
Qed.

Lemma vxor_swap4 n a b c d :
  bits n a -> bits n b -> bits n c -> bits n d ->
  vxor (vxor a b) (vxor c d) = vxor (vxor a c) (vxor b d).
Proof.
  intros Ha Hb Hc Hd.
  rewrite (vxor_assoc n a b) by (done || by apply vxor_bits).
  rewrite <- (vxor_assoc n b c d) by done.
  rewrite (vxor_comm b c).
  rewrite (vxor_assoc n c b d) by done.
  by rewrite <- (vxor_assoc n a c) by (done || by apply vxor_bits).
Qed.

Lemma unit_board_bits k : (k < 25)%nat -> is_board (unit_board k).
Proof.
  intros Hk. pose proof (js_set_bits 25 zero_board k (Num 1) zero_board_bits Hk
                           eq_refl) as H.
  unfold js_set in H. change (length zero_board) with 25%nat in H.
  by rewrite decide_True in H by lia.
Qed.

Lemma unit_classified k :
  (k < 25)%nat ->
  exists u, reachable u /\ unit_board k = vxor u (unit_class k).
Proof.
  intros Hk. pose proof (proj1 (forallb_forall _ _) units_classified k) as H.
  cbv beta in H. apply answered_reachable in H; [|apply in_seq; lia].
  exists (vxor (unit_board k) (unit_class k)). split; [done|].
  pose proof (class_boards_bits _ (unit_class_in k)) as Hc.
  pose proof (unit_board_bits k Hk) as Hu.
  rewrite (vxor_assoc 25) by done. rewrite (vxor_self 25) by done.
  symmetry. by apply (vxor_zero_r 25).
Qed.

Lemma zeros_then k t :
  (k + length t = 25)%nat -> forallb is_bit t = true ->
  exists r c, reachable r /\ In c class_boards /\
              replicate k (Num 0) ++ t = vxor r c.
Proof.
  revert k. induction t as [|a t IH]; intros k Hk Ht.
  - exists zero_board, zero_board. split; [constructor|]. split; [by left|].
    simpl in Hk. rewrite app_nil_r. replace k with 25%nat by lia. reflexivity.
  - simpl in Hk, Ht. apply andb_true_iff in Ht as [Ha Ht].
    destruct (IH (S k) ltac:(lia) Ht) as (r & c & Hr & Hc & E).
    assert (replicate (S k) (Num 0) ++ t = replicate k (Num 0) ++ Num 0 :: t) as E0.
    { rewrite replicate_S_end, <- app_assoc. done. }
    destruct (is_bit_cases _ Ha) as [->| ->].
    { exists r, c. by rewrite <- E0. }
    destruct (unit_classified k ltac:(lia)) as (u & Hu & Eu).
    exists (vxor r u), (vxor c (unit_class k)).
    split; [by apply reachable_vxor|].
    split; [apply class_boards_closed; [done|apply unit_class_in]|].
    pose proof (class_boards_bits _ Hc). pose proof (reachable_board _ Hr).
    pose proof (reachable_board _ Hu).
    pose proof (class_boards_bits _ (unit_class_in k)).
    rewrite <- (vxor_swap4 25) by done. rewrite <- E, <- Eu, E0.
    unfold unit_board, zero_board, filled.
    change (Z.to_nat BOARD_CELLS) with 25%nat.
    rewrite insert_replicate_lt by lia.
    unfold vxor. rewrite zip_with_app by done.
    rewrite zip_with_replicate. simpl. f_equal. f_equal.
    symmetry. apply (vxor_zero_r (24 - k)). split; [lia|done].
Qed.

(** A board is reachable, or the solver returns [null] on it. *)
Lemma board_dichotomy b :
  is_board b ->
  reachable b \/ gauss_values toggleMatrix b = Some None.
Proof.
  intros Hb. destruct (zeros_then 0 b) as (r & c & Hr & Hc & E);
    [by destruct Hb|by destruct Hb|].
  simpl in E. subst b.
  destruct (decide (c = zero_board)) as [->|Hne].
  - left. by rewrite (vxor_zero_r 25) by (by apply reachable_board).
  - right. destruct (answers_spec _ _ (reachable_answered r Hr)) as (x & Hx & _).
    rewrite (gauss_values_shift _ _ _ x);
      [|by apply reachable_board|by apply class_boards_bits|done].
    by rewrite class_boards_unsolvable.
Qed.

(** X10. On every board the solver decides reachability: [computeSolution]
    never throws, it returns [null] exactly when the board cannot be
    reached from the all-zero board by toggles, and a plan it returns
    clears the board. *)
Theorem computeSolution_decides (b : list cell) :
  is_board b ->
  computeSolution b <> None /\
  (computeSolution b = Some None <-> ~ reachable b) /\
  (forall p, computeSolution b = Some (Some p) ->
             reachable b /\ toggle_all p b = zero_board).
Proof.
  intros Hb. unfold computeSolution.
  destruct (board_dichotomy b Hb) as [Hr|Hnone].
  - destruct (reachable_cleared b Hr) as (x & Hx & Hall). rewrite Hx. simpl.
    split; [done|]. split; [split; [done|tauto]|].
    intros p [= <-]. split; [done|]. apply Hall, plan_permutation.
  - rewrite <- solve_values in Hnone. rewrite Hnone. simpl.
    split; [done|]. split; [|done]. split; [|done].
    intros _ Hr. destruct (reachable_cleared b Hr) as (x & Hx & _). congruence.
Qed.

Lemma computeSolution_decides_witness :
  computeSolution (unit_board 0) <> None /\
  (computeSolution (unit_board 0) = Some None <-> ~ reachable (unit_board 0)) /\
  (forall p, computeSolution (unit_board 0) = Some (Some p) ->
             reachable (unit_board 0) /\ toggle_all p (unit_board 0) = zero_board).
Proof. apply (computeSolution_decides (unit_board 0)). split; reflexivity. Defined.

(** ** What a plan is made of *)

Lemma support_via_spec g x j :
  j ∈ support_via g x <->
  exists i v, x !! i = Some v /\ g i = j /\ v <> Hole /\
              strict_eq (js_and v (Num 1)) 1 = true.
Proof.
  unfold support_via. rewrite list_elem_of_omap. split.
  - intros ([i v] & Hin & Hf).
    apply elem_of_lookup_imap in Hin as (k & w & [= -> ->] & Hk).
    exists k, w. destruct w; try done;
      destruct (strict_eq _ _) eqn:E; simplify_eq; done.
  - intros (i & v & Hi & <- & Hv & Hs). exists (g i, v). split.
    + apply elem_of_lookup_imap. eauto.
    + destruct v; try done; by rewrite Hs.
Qed.

Lemma support_bits n x j :
  bits n x -> j ∈ support x <-> js_get x j = Num 1.
Proof.
  intros Hx. rewrite support_is_via, support_via_spec. split.
  - intros (i & v & Hi & <- & _ & Hs). unfold js_get. simpl. rewrite Hi.
    destruct (is_bit_cases _ (bits_lookup _ _ _ _ Hx Hi)) as [->| ->]; done.
  - intros Hj. unfold js_get in Hj.
    destruct (x !! j) as [[| |z]|] eqn:E; try done.
    exists j, (Num z). simplify_eq. done.
Qed.

Lemma support_via_NoDup g x : Inj (=) (=) g -> NoDup (support_via g x).
Proof.
  revert g. induction x as [|v x IH]; intros g Hg; [constructor|].
  assert (support_via g (v :: x) = support_via (g ∘ S) x
          \/ support_via g (v :: x) = g 0%nat :: support_via (g ∘ S) x) as [->| ->].
  { unfold support_via. rewrite imap_cons. simpl.
    destruct v as [| |z]; auto; simpl.
    destruct (_ =? 1); auto. }
  - apply IH. intros a b E. apply Hg in E. by injection E.
  - constructor.
    + intros (i & w & _ & E & _)%support_via_spec. simpl in E. by apply Hg in E.
    + apply IH. intros a b E. apply Hg in E. by injection E.
Qed.

Lemma support_NoDup x : NoDup (support x).
Proof. rewrite support_is_via. apply support_via_NoDup. by intros ? ?. Qed.

(** The solver's answers to the 25 patterns: cells 23 and 24 are never
    set, and the pattern of a cell below 23 is answered by that cell
    alone. *)
Lemma patterns_canonical :
  forallb (fun i =>
     match gauss_values toggleMatrix (pattern i) with
     | Some (Some e) =>
         strict_eq (js_get e 23) 0 && strict_eq (js_get e 24) 0 &&
         ((23 <=? i)%nat || bool_decide (e = unit_board i))
     | _ => false
     end) (seq 0 25) = true.
Proof. vm_compute. reflexivity. Qed.

Lemma pattern_canonical i :
  (i < 25)%nat ->
  exists e, gauss_values toggleMatrix (pattern i) = Some (Some e) /\
            js_get e 23 = Num 0 /\ js_get e 24 = Num 0 /\
            ((i < 23)%nat -> e = unit_board i).
Proof.
  intros Hi. pose proof (proj1 (forallb_forall _ _) patterns_canonical i) as H.
  cbv beta in H. specialize (H ltac:(apply in_seq; lia)).
  destruct (gauss_values toggleMatrix (pattern i)) as [[e|]|]; try done.
  apply andb_true_iff in H as [[H23 H24]%andb_true_iff H].
  exists e. split; [done|].
  assert (forall v, strict_eq v 0 = true -> v = Num 0) as Hz.
  { intros [| |z]; try done. simpl. by intros ->%Z.eqb_eq. }
  split; [by apply Hz|]. split; [by apply Hz|].
  intros Hlt. apply orb_true_iff in H as [H|H].
  - apply Nat.leb_le in H. lia.
  - by apply bool_decide_eq_true in H.
Qed.

(** The solution of a reachable board never sets cells 23 and 24. *)
Lemma reachable_canonical b :
  reachable b ->
  exists x, gauss_values toggleMatrix b = Some (Some x) /\ bits 25 x /\
            js_get x 23 = Num 0 /\ js_get x 24 = Num 0.
Proof.
  induction 1 as [|b i Hb (x & Hx & Bx & H23 & H24) Hi].
  - exists (filled 25 (Num 0)). split; [vm_compute; reflexivity|].
    split; [apply bits_zero|]. done.
  - assert (Z.to_nat i < 25)%nat as Hi'
      by (unfold BOARD_CELLS, GRID_SIZE in Hi; lia).
    destruct (pattern_canonical _ Hi') as (e & He & E23 & E24 & _).
    pose proof (reachable_board _ Hb) as Bb.
    pose proof (answers_spec _ _ (reachable_answered _
                  (reachable_toggle _ _ reachable_zero Hi))) as (e' & He' & Be & _).
    replace (Int i) with (Int (Z.of_nat (Z.to_nat i))) in * by (f_equal; lia).
    fold (pattern (Z.to_nat i)) in He'. rewrite He in He'. injection He' as <-.
    exists (vxor x e). split; [|clear Hx He; split].
    + rewrite toggleCell_pattern by exact Bb. fold (pattern (Z.to_nat i)).
      exact (gauss_values_linear toggleMatrix b (pattern (Z.to_nat i)) x e
               Bb (pattern_board _) Hx He).
    + by apply vxor_bits.
    + rewrite !(vxor_get 25 x e) by (assumption || lia).
      by rewrite H23, H24, E23, E24.
Qed.

Lemma computeSolution_plan b p :
  computeSolution b = Some (Some p) ->
  exists x, solve toggleMatrix b = Some (Some x) /\ p = plan x.
Proof.
  unfold computeSolution.
  destruct (solve toggleMatrix b) as [[x|]|]; simpl; intros [= <-]. eauto.
Qed.

(** X11. Every planned move is a cell of the grid other than the last two
    (row 4, columns 3 and 4), no cell is planned twice, and so a plan has at
    most 23 moves, on every board that has a plan. *)
Theorem plan_moves (b : list cell) (p : list nat) :
  is_board b -> computeSolution b = Some (Some p) ->
  NoDup p /\ Forall (fun i => i < 23)%nat p /\ (length p <= 23)%nat.
Proof.
  intros Hb (x & Hx & ->)%computeSolution_plan. rewrite solve_values in Hx.
  assert (reachable b) as Hr.
  { destruct (board_dichotomy b Hb) as [Hr|Hnone]; [exact Hr|].
    rewrite Hnone in Hx. discriminate Hx. }
  destruct (reachable_canonical b Hr) as (x' & Hx' & Bx & H23 & H24).
  rewrite Hx in Hx'. injection Hx' as <-. clear Hx.
  assert (NoDup (plan x)) as Hnd.
  { rewrite plan_permutation. apply support_NoDup. }
  assert (Forall (fun i => i < 23)%nat (plan x)) as Hlt.
  { rewrite plan_permutation. apply List.Forall_forall. intros j Hj.
    apply list_elem_of_In in Hj. pose proof Hj as Hj'.
    apply (support_bits 25) in Hj; [|done].
    pose proof (support_lt x) as Hall. rewrite List.Forall_forall in Hall.
    apply list_elem_of_In, Hall in Hj'. destruct Bx as [Bl _]. rewrite Bl in Hj'.
    destruct (decide (j = 23%nat)) as [->|]; [congruence|].
    destruct (decide (j = 24%nat)) as [->|]; [congruence|]. lia. }
  split; [done|]. split; [done|].
  replace 23%nat with (length (seq 0 23)) by apply length_seq.
  apply NoDup_incl_length; [by apply NoDup_ListNoDup|].
  intros j Hj. rewrite List.Forall_forall in Hlt. apply Hlt in Hj.
  apply in_seq. lia.
Qed.

Lemma plan_moves_witness :
  NoDup [12%nat] /\ Forall (fun i => i < 23)%nat [12%nat] /\
  (length [12%nat] <= 23)%nat.
Proof.
  apply (plan_moves (toggleCell zero_board (Int 12)) [12%nat]).
  - split; reflexivity.
  - vm_compute. reflexivity.
Defined.

(** ** Following the plan *)

Lemma unit_board_get i j :
  (i < 25)%nat -> (j < 25)%nat ->
  js_get (unit_board i) j = if decide (j = i) then Num 1 else Num 0.
Proof.
  intros Hi Hj. unfold js_get, unit_board, zero_board, filled.
  change (Z.to_nat BOARD_CELLS) with 25%nat.
  destruct (decide (j = i)) as [->|Hne].
  - by rewrite list_lookup_insert_eq by (by rewrite length_replicate).
  - rewrite list_lookup_insert_ne by done. by rewrite lookup_replicate_2.
Qed.

Lemma js_get_ge n x j : bits n x -> (n <= j)%nat -> js_get x j = Undef.
Proof.
  intros [Hl _] Hj. unfold js_get. by rewrite lookup_ge_None_2 by lia.
Qed.

(** Playing the first planned move leaves a board whose solution is the
    old one without that move. *)
Lemma support_without x h :
  bits 25 x -> (h < 25)%nat -> js_get x h = Num 1 ->
  Permutation (support x) (h :: support (vxor x (unit_board h))).
Proof.
  intros Bx Hh Hx.
  pose proof (unit_board_bits h Hh) as Bu. apply is_board_bits in Bu.
  change (Z.to_nat BOARD_CELLS) with 25%nat in Bu.
  pose proof (vxor_bits _ _ _ Bx Bu) as Bv.
  assert (js_get (vxor x (unit_board h)) h = Num 0) as Hv.
  { rewrite (vxor_get 25) by done. rewrite Hx, unit_board_get by done.
    by rewrite decide_True. }
  apply NoDup_Permutation.
  - apply support_NoDup.
  - constructor; [|apply support_NoDup].
    rewrite (support_bits 25) by done. by rewrite Hv.
  - intros j. rewrite elem_of_cons, !(support_bits 25) by done.
    destruct (decide (j = h)) as [->|Hne]; [by split; auto|].
    destruct (decide (j < 25)%nat) as [Hj|Hj].
    + rewrite (vxor_get 25), unit_board_get by done.
      rewrite decide_False by done.
      destruct (bits_get _ _ _ Bx Hj) as [_ Hb].
      rewrite js_xor_zero_r by done. split; [auto|]. by intros [?|?].
    + rewrite !(js_get_ge 25) by (done || lia). split; [done|]. by intros [?|?].
Qed.

Lemma plan_step b h t :
  is_board b -> computeSolution b = Some (Some (h :: t)) ->
  (h < 23)%nat /\
  computeSolution (toggleCell b (Int (Z.of_nat h))) = Some (Some t).
Proof.
  intros Hb (x & Hx & Hp)%computeSolution_plan. rewrite solve_values in Hx.
  assert (reachable b) as Hr.
  { destruct (board_dichotomy b Hb) as [Hr|Hnone]; [exact Hr|].
    rewrite Hnone in Hx. discriminate Hx. }
  destruct (reachable_canonical b Hr) as (x' & Hx' & Bx & H23 & H24).
  rewrite Hx in Hx'. injection Hx' as <-.
  assert (h ∈ support x) as Hin.
  { rewrite <- plan_permutation, <- Hp. by left. }
  pose proof Hin as Hone. apply (support_bits 25) in Hone; [|done].
  assert (h < 23)%nat as Hh.
  { pose proof (support_lt x) as Hall. rewrite List.Forall_forall in Hall.
    apply list_elem_of_In, Hall in Hin. destruct Bx as [Bl _]. rewrite Bl in Hin.
    destruct (decide (h = 23%nat)) as [->|]; [congruence|].
    destruct (decide (h = 24%nat)) as [->|]; [congruence|]. lia. }
  split; [exact Hh|].
  destruct (pattern_canonical h ltac:(lia)) as (e & He & _ & _ & Hu).
  rewrite (Hu Hh) in He. clear Hu e.
  pose proof (gauss_values_linear toggleMatrix b (pattern h) x (unit_board h)
                Hb (pattern_board _) Hx He) as Hnew.
  clear Hx He. unfold computeSolution.
  rewrite toggleCell_pattern by exact Hb. fold (pattern h).
  rewrite solve_values, Hnew. clear Hnew.
  cbn [option_map plan_result]. do 2 f_equal.
  symmetry. apply plan_unique.
  - apply (Permutation_cons_inv (a := h)).
    rewrite <- (support_without x h Bx ltac:(lia) Hone).
    rewrite Hp. apply plan_permutation.
  - pose proof (plan_ordered x) as Hs. rewrite <- Hp in Hs.
    by apply StronglySorted_inv in Hs as [Hs _].
Qed.

Lemma plan_empty_iff b :
  is_board b -> computeSolution b = Some (Some []) <-> isSolved b = true.
Proof.
  intros Hb. split.
  - intros (x & Hx & Hp)%computeSolution_plan.
    assert (reachable b) as Hr.
    { destruct (board_dichotomy b Hb) as [Hr|Hnone]; [exact Hr|].
      rewrite solve_values, Hnone in Hx. discriminate Hx. }
    destruct (reachable_cleared b Hr) as (x' & Hx' & Hall).
    rewrite Hx in Hx'. injection Hx' as <-. clear Hx.
    specialize (Hall []). rewrite <- plan_permutation, <- Hp in Hall.
    specialize (Hall ltac:(reflexivity)). unfold toggle_all in Hall.
    cbn [fold_left] in Hall. rewrite Hall. reflexivity.
  - intros Hs. rewrite (solved_board_zero b Hb Hs). vm_compute. reflexivity.
Qed.

(** X12. The hint is the next move of the plan: when [requestHint] sets a
    hint on a board, the plan starts with the hinted cell, and after the
    move on that cell the plan of the new board is the rest of the old
    plan; the move counter, when it is a safe integer, has grown by
    one. *)
Theorem hint_is_next_move (s : GameSnapshot) (ui : HintState)
    (aiPlan : option (list nat)) (h : nat) :
  is_board (board s) -> computeSolution (board s) = Some aiPlan ->
  hintIndex (requestHint aiPlan ui) = Some h ->
  exists rest,
    aiPlan = Some (h :: rest) /\
    computeSolution (board (makeMove s (Int (Z.of_nat h)))) = Some (Some rest) /\
    (safe_integer (moves s) ->
     moves (makeMove s (Int (Z.of_nat h))) = moves s + 1).
Proof.
  intros Hb Hp Hh. destruct aiPlan as [[|first rest]|]; try discriminate Hh.
  injection Hh as ->. exists rest. split; [reflexivity|].
  split; [|reflexivity]. exact (proj2 (plan_step _ _ _ Hb Hp)).
Qed.

Lemma hint_is_next_move_witness :
  exists rest,
    Some [12%nat] = Some (12%nat :: rest) /\
    computeSolution
      (board (makeMove (mkSnapshot (toggleCell zero_board (Int 12)) 0)
                (Int (Z.of_nat 12)))) = Some (Some rest) /\
    moves (makeMove (mkSnapshot (toggleCell zero_board (Int 12)) 0)
             (Int (Z.of_nat 12)))
    = moves (mkSnapshot (toggleCell zero_board (Int 12)) 0) + 1.
Proof.
  destruct (hint_is_next_move (mkSnapshot (toggleCell zero_board (Int 12)) 0)
              (mkHint None false) (Some [12%nat]) 12)
    as (rest & Hplan & Hnext & Hmoves).
  - split; reflexivity.
  - vm_compute. reflexivity.
  - reflexivity.
  - exists rest. split; [exact Hplan|]. split; [exact Hnext|].
    apply Hmoves. unfold safe_integer. simpl. lia.
Defined.

(** X13. [requestHint] leaves the hint empty exactly when the board is
    solved or has no plan. *)
Theorem no_hint_iff_solved (b : list cell) (ui : HintState)
    (aiPlan : option (list nat)) :
  is_board b -> computeSolution b = Some aiPlan ->
  hintIndex (requestHint aiPlan ui) = None <->
  isSolved b = true \/ aiPlan = None.
Proof.
  intros Hb Hp. destruct aiPlan as [[|first rest]|]; simpl.
  - split; [|done]. intros _. left. by apply plan_empty_iff.
  - split; [done|]. intros [Hs|?]; [|done].
    apply plan_empty_iff in Hs; [|done]. rewrite Hs in Hp. discriminate Hp.
  - split; [|done]. intros _. by right.
Qed.

Lemma no_hint_iff_solved_witness :
  hintIndex (requestHint (Some []) (mkHint (Some 3%nat) true)) = None <->
  isSolved zero_board = true \/ Some (@nil nat) = None.
Proof.
  apply (no_hint_iff_solved zero_board (mkHint (Some 3%nat) true) (Some [])).
  - split; reflexivity.
  - vm_compute. reflexivity.
Defined.

Lemma play_all_plan k : forall s p,
  is_board (board s) -> computeSolution (board s) = Some (Some p) ->
  (k <= length p)%nat ->
  is_board (board (play_all s (take k p))) /\
  moves (play_all s (take k p)) = moves s + Z.of_nat k /\
  computeSolution (board (play_all s (take k p))) = Some (Some (drop k p)).
Proof.
  induction k as [|k IH]; intros s p Hb Hp Hk.
  - change (take 0 p) with (@nil nat). change (drop 0 p) with p.
    unfold play_all. cbn [fold_left].
    split; [exact Hb|]. split; [lia|exact Hp].
  - destruct p as [|h t]; [simpl in Hk; lia|]. simpl in Hk.
    destruct (plan_step _ _ _ Hb Hp) as [_ Hstep].
    destruct (IH (makeMove s (Int (Z.of_nat h))) t) as (Hb' & Hm & Hc);
      [by apply toggleCell_board|exact Hstep|lia|].
    change (play_all s (take (S k) (h :: t)))
      with (play_all (makeMove s (Int (Z.of_nat h))) (take k t)).
    change (drop (S k) (h :: t)) with (drop k t).
    split; [exact Hb'|]. split; [|exact Hc].
    rewrite Hm. unfold makeMove. cbn [moves]. lia.
Qed.

(** X14. Playing the plan solves the board at its last move and not
    before: after the first [k] planned moves the plan of the board is the
    rest of the plan, the board is solved exactly when [k] is the length
    of the plan, and the counter, when it starts and ends at safe
    integers, has advanced by [k]. *)
Theorem plan_plays_out (s : GameSnapshot) (p : list nat) (k : nat) :
  is_board (board s) -> computeSolution (board s) = Some (Some p) ->
  (k <= length p)%nat ->
  (safe_integer (moves s) -> safe_integer (moves s + Z.of_nat k) ->
   moves (play_all s (take k p)) = moves s + Z.of_nat k) /\
  computeSolution (board (play_all s (take k p))) = Some (Some (drop k p)) /\
  (isSolved (board (play_all s (take k p))) = true <-> k = length p).
Proof.
  intros Hb Hp Hk.
  destruct (play_all_plan k s p Hb Hp Hk) as (Hb' & Hm & Hc).
  split; [intros _ _; exact Hm|]. split; [exact Hc|].
  rewrite <- (plan_empty_iff _ Hb'), Hc. split.
  - intros [= Hd]. apply (f_equal length) in Hd.
    rewrite length_drop in Hd. simpl in Hd. lia.
  - intros ->. by rewrite drop_all.
Qed.

Lemma plan_plays_out_witness :
  moves (play_all (mkSnapshot (toggleCell zero_board (Int 12)) 0)
           (take 1 [12%nat]))
  = moves (mkSnapshot (toggleCell zero_board (Int 12)) 0) + Z.of_nat 1 /\
  computeSolution
    (board (play_all (mkSnapshot (toggleCell zero_board (Int 12)) 0)
              (take 1 [12%nat]))) = Some (Some (drop 1 [12%nat])) /\
  (isSolved (board (play_all (mkSnapshot (toggleCell zero_board (Int 12)) 0)
                      (take 1 [12%nat]))) = true
   <-> 1%nat = length [12%nat]).
Proof.
  destruct (plan_plays_out (mkSnapshot (toggleCell zero_board (Int 12)) 0)
              [12%nat] 1) as (Hmoves & Hplan & Hsolved).
  - split; reflexivity.
  - vm_compute. reflexivity.
  - simpl. lia.
  - split; [|split; [exact Hplan|exact Hsolved]].
    apply Hmoves; unfold safe_integer; simpl; lia.
Defined.

(** ** Sessions *)

Section Session.
Context {F : Type} (exceeds_cutoff : F -> nat -> bool) (pick : F -> Z).
Hypothesis pick_in_grid : forall x, 0 <= pick x < BOARD_CELLS.

Lemma session_reachable s :
  in_session exceeds_cutoff pick s ->
  reachable (board s) /\ 0 <= moves s /\
  (moves s = 0 -> isSolved (board s) = false).
Proof using pick_in_grid.
  induction 1 as [x|s index _ (Hr & Hm & _) Hi].
  - destruct (createPuzzle_reachable exceeds_cutoff pick x (pick_in_grid x))
      as (Hr & _ & Hs).
    split; [exact Hr|]. split; [simpl; lia|]. intros _. exact Hs.
  - split; [by apply reachable_toggle|]. unfold makeMove. cbn [moves].
    split; lia.
Qed.
End Session.

(** X15. Throughout a session (a puzzle generated from a finite seed,
    then moves on cells of the grid) the board stays reachable from the
    all-zero board, so the strategist always has a plan, and a solved
    board is only seen after at least one move. *)
Theorem session_invariant {F : Type} (exceeds_cutoff : F -> nat -> bool)
    (pick : F -> Z) (s : GameSnapshot) :
  (forall x, 0 <= pick x < BOARD_CELLS) ->
  in_session exceeds_cutoff pick s ->
  reachable (board s) /\ 0 <= moves s /\
  (isSolved (board s) = true -> 0 < moves s) /\
  exists p, computeSolution (board s) = Some (Some p).
Proof.
  intros Hpick Hs.
  destruct (session_reachable exceeds_cutoff pick Hpick s Hs) as (Hr & Hm & H0).
  split; [exact Hr|]. split; [exact Hm|]. split.
  - intros Hsolved. destruct (decide (moves s = 0)) as [Hz|Hz]; [|lia].
    rewrite (H0 Hz) in Hsolved. discriminate Hsolved.
  - destruct (reachable_cleared _ Hr) as (x & Hx & _).
    exists (plan x). unfold computeSolution. rewrite Hx. reflexivity.
Qed.

Lemma session_invariant_witness :
  reachable (board (makeMove (startSnapshot (F:=unit) (fun _ _ => false)
                                (fun _ => 7) (DFinite tt)) (Int 3))) /\
  0 <= moves (makeMove (startSnapshot (F:=unit) (fun _ _ => false)
                          (fun _ => 7) (DFinite tt)) (Int 3)) /\
  (isSolved (board (makeMove (startSnapshot (F:=unit) (fun _ _ => false)
                                (fun _ => 7) (DFinite tt)) (Int 3))) = true ->
   0 < moves (makeMove (startSnapshot (F:=unit) (fun _ _ => false)
                          (fun _ => 7) (DFinite tt)) (Int 3))) /\
  exists p,
    computeSolution
      (board (makeMove (startSnapshot (F:=unit) (fun _ _ => false)
                          (fun _ => 7) (DFinite tt)) (Int 3)))
    = Some (Some p).
Proof.
  apply (session_invariant (F:=unit) (fun _ _ => false) (fun _ => 7)).
  - intros _. unfold BOARD_CELLS, GRID_SIZE. lia.
  - apply session_move; [apply session_start|].
    unfold BOARD_CELLS, GRID_SIZE. lia.
Defined.

(** ** The order of the plan does not depend on the engine *)

Lemma cell_of_coords a b :
  row_of a = row_of b -> col_of a = col_of b -> a = b.
Proof.
  unfold row_of, col_of. change (Z.to_nat GRID_SIZE) with 5%nat. intros Hr Hc.
  rewrite (Nat.div_mod_eq a 5), (Nat.div_mod_eq b 5). congruence.
Qed.

(** X16. The comparator given to [sort] is a consistent order on cells:
    swapping its arguments negates the result, and it returns 0 only on
    equal cells. *)
Theorem compare_cells_order (a b : nat) :
  exists z, compare_cells a b = Int z /\ compare_cells b a = Int (- z) /\
            (z = 0 <-> a = b).
Proof.
  unfold compare_cells. rewrite !distance_nat, !indexToCoord_nat. simpl.
  assert (manhattan a - manhattan b = 0 ->
          Z.of_nat (row_of a) - Z.of_nat (row_of b) = 0 ->
          Z.of_nat (col_of a) - Z.of_nat (col_of b) = 0 -> a = b) as Heq.
  { intros _ Hr Hc. apply cell_of_coords; lia. }
  assert (a = b -> manhattan a - manhattan b = 0 /\
          Z.of_nat (row_of a) - Z.of_nat (row_of b) = 0 /\
          Z.of_nat (col_of a) - Z.of_nat (col_of b) = 0) as Hne.
  { intros ->. lia. }
  replace (manhattan b - manhattan a) with (- (manhattan a - manhattan b)) by lia.
  replace (Z.of_nat (row_of b) - Z.of_nat (row_of a))
    with (- (Z.of_nat (row_of a) - Z.of_nat (row_of b))) by lia.
  replace (Z.of_nat (col_of b) - Z.of_nat (col_of a))
    with (- (Z.of_nat (col_of a) - Z.of_nat (col_of b))) by lia.
  destruct (manhattan a - manhattan b) as [|d|d] eqn:Hd; simpl.
  - destruct (Z.of_nat (row_of a) - Z.of_nat (row_of b)) as [|r|r] eqn:Hr; simpl.
    + eexists. split; [reflexivity|]. split; [reflexivity|].
      split; [by apply Heq|]. intros H. by apply Hne in H as (_ & _ & ->).
    + eexists. split; [reflexivity|]. split; [reflexivity|].
      split; [lia|]. intros H. apply Hne in H as (_ & ? & _). lia.
    + eexists. split; [reflexivity|]. split; [reflexivity|].
      split; [lia|]. intros H. apply Hne in H as (_ & ? & _). lia.
  - eexists. split; [reflexivity|]. split; [reflexivity|].
    split; [lia|]. intros H. apply Hne in H as (? & _ & _). lia.
  - eexists. split; [reflexivity|]. split; [reflexivity|].
    split; [lia|]. intros H. apply Hne in H as (? & _ & _). lia.
Qed.

(** X17. The plan does not depend on the sorting algorithm of the engine:
    any arrangement of the cells set in the solution in which the
    comparator never puts a later cell before an earlier one is the plan
    computed by the stable insertion sort. *)
Theorem plan_any_sort (solutionVector : list cell) (l : list nat) :
  Permutation l (support solutionVector) ->
  StronglySorted (fun a b => goes_after compare_cells a b = false) l ->
  l = plan solutionVector.
Proof.
  intros Hp Hs. apply plan_unique; [exact Hp|]. clear Hp.
  induction Hs as [|a l _ IH Hall]; constructor.
  - apply IH.
  - eapply List.Forall_impl; [|exact Hall]. intros b Hb. cbv beta in Hb.
    destruct (planned_before_total a b) as [H|H]; [exact H|].
    assert (~ ~ planned_before a b) as Hnn.
    { rewrite <- goes_after_spec. by rewrite Hb. }
    unfold planned_before in *. lia.
Qed.

Lemma plan_any_sort_witness : [12%nat; 7%nat; 0%nat] = plan (map Num
  [1; 0; 0; 0; 0; 0; 0; 1; 0; 0; 0; 0; 1; 0; 0; 0; 0; 0; 0; 0; 0; 0; 0; 0; 0]).
Proof.
  apply plan_any_sort.
  - vm_compute. apply perm_trans with [7%nat; 12%nat; 0%nat];
      [apply perm_swap|].
    apply perm_trans with [7%nat; 0%nat; 12%nat];
      [apply perm_skip, perm_swap|apply perm_swap].
  - repeat constructor.
Defined.

(** ** Quiet patterns and the parity test *)

Lemma quiet_patterns_zero :
  toggle_all (support quiet1) zero_board = zero_board /\
  toggle_all (support quiet2) zero_board = zero_board.
Proof. split; vm_compute; reflexivity. Qed.

Lemma toggle_all_quiet q l b :
  is_board b -> toggle_all q zero_board = zero_board ->
  toggle_all (l ++ q) b = toggle_all l b.
Proof.
  intros Hb Hq. pose proof (toggle_all_board l b Hb) as Hl.
  unfold toggle_all at 1. rewrite fold_left_app.
  fold (toggle_all l b). fold (toggle_all q (toggle_all l b)).
  rewrite (toggle_all_vxor q) by exact Hl.
  rewrite Hq. by apply (vxor_zero_r 25).
Qed.

(** X18. Toggling all cells of a quiet pattern changes no board: appended
    to any sequence of moves, either pattern leaves its result as it is. *)
Theorem quiet_patterns_change_nothing (b : list cell) (l : list nat) :
  is_board b ->
  toggle_all (l ++ support quiet1) b = toggle_all l b /\
  toggle_all (l ++ support quiet2) b = toggle_all l b.
Proof.
  intros Hb. split.
  - exact (toggle_all_quiet _ l b Hb (proj1 quiet_patterns_zero)).
  - exact (toggle_all_quiet _ l b Hb (proj2 quiet_patterns_zero)).
Qed.

Lemma quiet_patterns_change_nothing_witness :
  toggle_all ([3%nat] ++ support quiet1) (unit_board 0)
  = toggle_all [3%nat] (unit_board 0) /\
  toggle_all ([3%nat] ++ support quiet2) (unit_board 0)
  = toggle_all [3%nat] (unit_board 0).
Proof.
  apply (quiet_patterns_change_nothing (unit_board 0) [3%nat]).
  split; reflexivity.
Defined.

Lemma overlap_bit n : forall a q,
  bits n a -> bits n q -> is_bit (overlap a q) = true.
Proof.
  induction n as [|n IH]; intros a q [La Ba] [Lq Bq].
  - destruct a, q; done.
  - destruct a as [|x a], q as [|z q]; try done.
    simpl in La, Ba, Lq, Bq. apply andb_true_iff in Ba as [Hx Ba].
    apply andb_true_iff in Bq as [Hz Bq].
    unfold overlap. cbn [zip_with foldr]. apply js_xor_bit.
    + destruct (is_bit_cases _ Hx) as [->| ->],
        (is_bit_cases _ Hz) as [->| ->]; reflexivity.
    + apply IH; split; (lia || done).
Qed.

Lemma overlap_linear n : forall a b q,
  bits n a -> bits n b -> bits n q ->
  overlap (vxor a b) q = js_xor (overlap a q) (overlap b q).
Proof.
  induction n as [|n IH]; intros a b q [La Ba] [Lb Bb] [Lq Bq].
  - destruct a, b, q; try done.
  - destruct a as [|x a], b as [|y b], q as [|z q]; try done.
    simpl in La, Ba, Lb, Bb, Lq, Bq. apply andb_true_iff in Ba as [Hx Ba].
    apply andb_true_iff in Bb as [Hy Bb]. apply andb_true_iff in Bq as [Hz Bq].
    assert (bits n a) as Ha' by (split; [lia|done]).
    assert (bits n b) as Hb' by (split; [lia|done]).
    assert (bits n q) as Hq' by (split; [lia|done]).
    pose proof (overlap_bit n a q Ha' Hq') as Ha.
    pose proof (overlap_bit n b q Hb' Hq') as Hb.
    specialize (IH a b q Ha' Hb' Hq').
    unfold overlap, vxor in *. cbn [zip_with foldr]. rewrite IH.
    destruct (is_bit_cases _ Ha) as [->| ->], (is_bit_cases _ Hb) as [->| ->],
      (is_bit_cases _ Hx) as [->| ->], (is_bit_cases _ Hy) as [->| ->],
      (is_bit_cases _ Hz) as [->| ->]; reflexivity.
Qed.

Lemma patterns_even :
  forallb (fun i => strict_eq (overlap (pattern i) quiet1) 0
                    && strict_eq (overlap (pattern i) quiet2) 0)
    (seq 0 25) = true.
Proof. vm_compute. reflexivity. Qed.

Lemma quiet_bits : bits 25 quiet1 /\ bits 25 quiet2.
Proof. split; split; reflexivity. Qed.

Lemma reachable_even b :
  reachable b -> overlap b quiet1 = Num 0 /\ overlap b quiet2 = Num 0.
Proof.
  destruct quiet_bits as [Q1 Q2].
  induction 1 as [|b i Hb [IH1 IH2] Hi]; [split; reflexivity|].
  pose proof (reachable_board _ Hb) as Bb.
  assert (Z.to_nat i < 25)%nat as Hi'
    by (unfold BOARD_CELLS, GRID_SIZE in Hi; lia).
  pose proof (proj1 (forallb_forall _ _) patterns_even (Z.to_nat i)) as H.
  cbv beta in H. specialize (H ltac:(apply in_seq; lia)).
  apply andb_true_iff in H as [H1 H2].
  assert (forall v, strict_eq v 0 = true -> v = Num 0) as Hz.
  { intros [| |z]; try done. simpl. by intros ->%Z.eqb_eq. }
  apply Hz in H1, H2.
  replace (Int i) with (Int (Z.of_nat (Z.to_nat i))) by (f_equal; lia).
  rewrite toggleCell_pattern by exact Bb. fold (pattern (Z.to_nat i)).
  rewrite !(overlap_linear 25) by (done || apply pattern_board).
  by rewrite IH1, IH2, H1, H2.
Qed.

Lemma class_boards_odd c :
  In c class_boards -> overlap c quiet1 = Num 0 -> overlap c quiet2 = Num 0 ->
  c = zero_board.
Proof.
  intros [<-|[<-|[<-|[<-|[]]]]]; [done|..]; vm_compute; discriminate.
Qed.

Lemma even_reachable b :
  is_board b -> overlap b quiet1 = Num 0 -> overlap b quiet2 = Num 0 ->
  reachable b.
Proof.
  intros Hb H1 H2. destruct quiet_bits as [Q1 Q2].
  destruct (zeros_then 0 b) as (r & c & Hr & Hc & E);
    [by destruct Hb|by destruct Hb|].
  simpl in E. subst b.
  pose proof (reachable_board _ Hr) as Br.
  pose proof (class_boards_bits _ Hc) as Bc.
  destruct (reachable_even r Hr) as [R1 R2].
  rewrite (overlap_linear 25) in H1, H2 by done. rewrite R1 in H1. rewrite R2 in H2.
  pose proof (overlap_bit 25 c quiet1 Bc Q1) as B1.
  pose proof (overlap_bit 25 c quiet2 Bc Q2) as B2.
  assert (overlap c quiet1 = Num 0) as C1
    by (destruct (is_bit_cases _ B1) as [E|E]; rewrite E in H1; done).
  assert (overlap c quiet2 = Num 0) as C2
    by (destruct (is_bit_cases _ B2) as [E|E]; rewrite E in H2; done).
  rewrite (class_boards_odd c Hc C1 C2).
  by rewrite (vxor_zero_r 25).
Qed.

(** X19. The parity test: a board can be cleared exactly when it has an
    even number of lit cells on each of the two quiet patterns, and
    [computeSolution] returns [null] exactly when one of the two counts is
    odd. *)
Theorem parity_test (b : list cell) :
  is_board b ->
  (reachable b <-> overlap b quiet1 = Num 0 /\ overlap b quiet2 = Num 0) /\
  (computeSolution b = Some None <->
   overlap b quiet1 = Num 1 \/ overlap b quiet2 = Num 1).
Proof.
  intros Hb.
  assert (reachable b <-> overlap b quiet1 = Num 0 /\ overlap b quiet2 = Num 0)
    as Hiff.
  { split; [apply reachable_even|]. intros [H1 H2]. by apply even_reachable. }
  split; [exact Hiff|].
  pose proof (overlap_bit 25 b quiet1 Hb (proj1 quiet_bits)) as B1.
  pose proof (overlap_bit 25 b quiet2 Hb (proj2 quiet_bits)) as B2.
  assert (computeSolution b = Some None <-> ~ reachable b) as ->.
  { unfold computeSolution. destruct (board_dichotomy b Hb) as [Hr|Hnone].
    - destruct (reachable_cleared b Hr) as (x & Hx & _). rewrite Hx.
      cbn [option_map plan_result]. split; [discriminate|tauto].
    - rewrite solve_values, Hnone. cbn [option_map plan_result].
      split; [|reflexivity]. intros _ Hr.
      destruct (reachable_cleared b Hr) as (x & Hx & _).
      rewrite solve_values, Hnone in Hx. discriminate Hx. }
  rewrite Hiff.
  destruct (is_bit_cases _ B1) as [->| ->], (is_bit_cases _ B2) as [->| ->];
    split; intros H; try tauto; try (destruct H as [H|H]; discriminate H);
    try (intros [? ?]; discriminate); try (by left); try (by right).
Qed.

Lemma parity_test_witness :
  (reachable (unit_board 0) <->
   overlap (unit_board 0) quiet1 = Num 0 /\ overlap (unit_board 0) quiet2 = Num 0) /\
  (computeSolution (unit_board 0) = Some None <->
   overlap (unit_board 0) quiet1 = Num 1 \/ overlap (unit_board 0) quiet2 = Num 1).
Proof. apply (parity_test (unit_board 0)). split; reflexivity. Defined.

(** ** The generator in closed form *)

(** X20. The generator in closed form, for every seed: the board is the
    all-zero board toggled at the iterations whose threshold test passes,
    unless that board is solved, in which case it is the all-zero board
    toggled at the forced index.  The counter [toggles] never decides:
    when it is 0 the board is solved anyway. *)
Theorem createPuzzle_closed_form {F : Type} (exceeds_cutoff : F -> nat -> bool)
    (pick : F -> Z) (randomSeed : double F) :
  createPuzzle exceeds_cutoff pick randomSeed
  = (let passing := List.filter (over_threshold exceeds_cutoff randomSeed)
                      (seq 0 (Z.to_nat BOARD_CELLS)) in
     let board := toggle_all passing zero_board in
     if isSolved board then toggleCell zero_board (forced_index pick randomSeed)
     else board).
Proof. apply createPuzzle_form. Qed.

(** ** The solver on any system of equations *)

Lemma bits_ext n a b :
  bits n a -> bits n b ->
  (forall k, (k < n)%nat -> js_get a k = js_get b k) -> a = b.
Proof.
  intros Ha Hb H. apply list_eq. intros k.
  destruct (decide (k < n)%nat) as [Hk|Hk].
  - destruct (bits_get _ _ _ Ha Hk) as [-> _].
    destruct (bits_get _ _ _ Hb Hk) as [-> _]. f_equal. by apply H.
  - destruct Ha as [La _], Hb as [Lb _].
    by rewrite !lookup_ge_None_2 by lia.
Qed.

Lemma js_get_insert a i j x :
  (i < length a)%nat -> is_bit x = true ->
  js_get (<[i:=x]> a) j = if decide (j = i) then x else js_get a j.
Proof.
  intros Hi Hx. unfold js_get. destruct (decide (j = i)) as [->|Hne].
  - rewrite list_lookup_insert_eq by done.
    by destruct (is_bit_cases _ Hx) as [->| ->].
  - by rewrite list_lookup_insert_ne.
Qed.

Lemma js_set_in_range a i x : (i < length a)%nat -> js_set a i x = <[i:=x]> a.
Proof. intros Hi. unfold js_set. by rewrite decide_True. Qed.

Lemma bit_not_one v : is_bit v = true -> strict_eq v 1 = false -> v = Num 0.
Proof. by intros [->| ->]%is_bit_cases. Qed.

Lemma bit_not_zero v : is_bit v = true -> strict_eq v 0 = false -> v = Num 1.
Proof. by intros [->| ->]%is_bit_cases. Qed.

Lemma strict_eq_one v : strict_eq v 1 = true -> v = Num 1.
Proof. destruct v as [| |z]; try done. simpl. by intros ->%Z.eqb_eq. Qed.

Lemma strict_eq_zero v : strict_eq v 0 = true -> v = Num 0.
Proof. destruct v as [| |z]; try done. simpl. by intros ->%Z.eqb_eq. Qed.

Lemma m_get_run (s : value_state) r row c :
  s.1 !! r = Some row -> m_get value_mem r c s = Some (js_get row c, s).
Proof. intros H. simpl. unfold with_row. by rewrite H. Qed.

Lemma m_set_run (s : value_state) r row c x :
  s.1 !! r = Some row ->
  m_set value_mem r c x s = Some (tt, (<[r:=js_set row c x]> s.1, s.2)).
Proof. intros H. simpl. unfold with_row. by rewrite H. Qed.

Lemma m_swap_run (s : value_state) a b ra rb :
  s.1 !! a = Some ra -> s.1 !! b = Some rb ->
  m_swap value_mem a b s = Some (tt, (<[b:=ra]> (<[a:=rb]> s.1), s.2)).
Proof. intros Ha Hb. simpl. unfold with_row. by rewrite Hb, Ha. Qed.

Lemma m_every_zero_run (s : value_state) r row :
  s.1 !! r = Some row ->
  m_every_zero value_mem r s = Some (every (fun v => strict_eq v 0) row, s).
Proof. intros H. simpl. unfold with_row. by rewrite H. Qed.

Lemma entry_lookup m r row c : m !! r = Some row -> entry m r c = js_get row c.
Proof. intros H. unfold entry. by rewrite H. Qed.

Lemma well_formed_row rows cols s r :
  well_formed rows cols s -> (r < rows)%nat ->
  exists row, s.1 !! r = Some row /\ bits cols row.
Proof.
  intros (Hl & Hrows & _) Hr.
  destruct (lookup_lt_is_Some_2 s.1 r) as [row Hrow]; [lia|].
  exists row. split; [done|]. by eapply Forall_lookup_1.
Qed.

(** [xor_row] adds the pivot row to a row, from column [col] on. *)
Lemma xor_row_loop cols currentRow row b v n : forall k m a,
  row <> currentRow -> m !! row = Some a -> m !! currentRow = Some b ->
  bits cols a -> bits cols b -> (k + n = cols)%nat ->
  exists a',
    for_each (seq k n) (fun k =>
      x ← m_get value_mem row k;
      y ← m_get value_mem currentRow k;
      m_set value_mem row k (js_xor x y)) (m, v)
    = Some (tt, (<[row:=a']> m, v)) /\
    bits cols a' /\
    forall j, (j < cols)%nat ->
      js_get a' j = if (k <=? j)%nat then js_xor (js_get a j) (js_get b j)
                    else js_get a j.
Proof.
  induction n as [|n IH]; intros k m a Hne Ha Hb Ba Bb Hk.
  - exists a. simpl. rewrite list_insert_id by done. split; [done|].
    split; [done|]. intros j Hj. by rewrite (proj2 (Nat.leb_gt k j)) by lia.
  - cbn [seq for_each]. rewrite bind_run.
    rewrite bind_run, (m_get_run (m, v) row a) by done.
    rewrite bind_run, (m_get_run (m, v) currentRow b) by done.
    rewrite (m_set_run (m, v) row a) by done. cbn [fst snd].
    pose proof Ba as [La _].
    destruct (bits_get _ _ _ Ba (ltac:(lia) : (k < cols)%nat)) as [_ Hx].
    destruct (bits_get _ _ _ Bb (ltac:(lia) : (k < cols)%nat)) as [_ Hy].
    pose proof (js_xor_bit _ _ Hx Hy) as Hxy.
    pose proof (js_set_bits _ _ k _ Ba ltac:(lia) Hxy) as Ba2.
    destruct (IH (S k) (<[row:=js_set a k (js_xor (js_get a k) (js_get b k))]> m)
                (js_set a k (js_xor (js_get a k) (js_get b k))))
      as (a' & Hrun & Ba' & Hget); [done| | |done|done|lia|].
    { apply list_lookup_insert_eq. by eapply lookup_lt_Some. }
    { by rewrite list_lookup_insert_ne. }
    exists a'. rewrite Hrun, list_insert_insert_eq. split; [done|].
    split; [done|]. intros j Hj. rewrite (Hget j Hj).
    rewrite js_set_in_range by lia. rewrite js_get_insert by (done || lia).
    destruct (decide (j = k)) as [->|Hjk].
    + rewrite (proj2 (Nat.leb_gt (S k) k)) by lia.
      by rewrite (proj2 (Nat.leb_le k k)) by lia.
    + destruct (decide (k < j)%nat).
      * by rewrite (proj2 (Nat.leb_le (S k) j)), (proj2 (Nat.leb_le k j)) by lia.
      * by rewrite (proj2 (Nat.leb_gt (S k) j)), (proj2 (Nat.leb_gt k j)) by lia.
Qed.

(** When the pivot row is 0 below [col], [xor_row] adds the whole row. *)
Lemma xor_row_run cols col currentRow row m v a b :
  row <> currentRow -> m !! row = Some a -> m !! currentRow = Some b ->
  bits cols a -> bits cols b -> (col <= cols)%nat ->
  (forall k, (k < col)%nat -> js_get b k = Num 0) ->
  xor_row value_mem cols col currentRow row (m, v)
  = Some (tt, (<[row:=vxor a b]> m, v)).
Proof.
  intros Hne Ha Hb Ba Bb Hc Hz. unfold xor_row.
  destruct (xor_row_loop cols currentRow row b v (cols - col) col m a)
    as (a' & -> & Ba' & Hget); [done..|lia|].
  do 4 f_equal. apply (bits_ext cols); [done|by apply vxor_bits|].
  intros j Hj. rewrite (Hget j Hj), (vxor_get cols) by done.
  destruct (col <=? j)%nat eqn:E; [done|]. apply Nat.leb_gt in E.
  rewrite (Hz j E). destruct (bits_get _ _ _ Ba Hj) as [_ Hx].
  by rewrite js_xor_zero_r.
Qed.

Lemma well_formed_insert_row rows cols m v r a :
  well_formed rows cols (m, v) -> bits cols a ->
  well_formed rows cols (<[r:=a]> m, v).
Proof.
  intros (Hl & Hrows & Hv) Ha. simpl in *.
  split; [simpl; by rewrite length_insert|].
  split; [|done]. simpl.
  destruct (decide (r < length m)%nat) as [Hr|Hr].
  - by apply Forall_insert.
  - by rewrite list_insert_ge by lia.
Qed.

Lemma well_formed_set_vector rows cols m v i x :
  well_formed rows cols (m, v) -> (i < rows)%nat -> is_bit x = true ->
  well_formed rows cols (m, js_set v i x).
Proof.
  intros (Hl & Hrows & Hv) Hi Hx. split; [done|]. split; [done|].
  by apply js_set_bits.
Qed.

Lemma clear_column_loop rows cols col currentRow m v b n : forall i mi vi,
  (currentRow < rows)%nat -> m !! currentRow = Some b -> (col <= cols)%nat ->
  (forall k, (k < col)%nat -> js_get b k = Num 0) ->
  (i + n = rows)%nat ->
  well_formed rows cols (m, v) -> well_formed rows cols (mi, vi) ->
  (forall r a, m !! r = Some a ->
     mi !! r = Some (if (r <? i)%nat && hit col currentRow r a
                     then vxor a b else a) /\
     js_get vi r = if (r <? i)%nat && hit col currentRow r a
                   then js_xor (js_get v r) (js_get v currentRow)
                   else js_get v r) ->
  exists m' v',
    for_each (seq i n) (fun row =>
      if negb (Nat.eqb row currentRow) then
        x ← m_get value_mem row col;
        if strict_eq x 1 then
          _ ← xor_row value_mem cols col currentRow row;
          a ← v_get value_mem row;
          b ← v_get value_mem currentRow;
          v_set value_mem row (js_xor a b)
        else mret tt
      else mret tt) (mi, vi) = Some (tt, (m', v')) /\
    well_formed rows cols (m', v') /\
    forall r a, m !! r = Some a ->
      m' !! r = Some (if hit col currentRow r a then vxor a b else a) /\
      js_get v' r = if hit col currentRow r a
                    then js_xor (js_get v r) (js_get v currentRow)
                    else js_get v r.
Proof.
  induction n as [|n IH]; intros i mi vi Hc Hb Hcol Hz Hi Wf Wfi Hinv.
  - exists mi, vi. split; [done|]. split; [done|]. intros r a Ha.
    destruct (Hinv r a Ha) as [H1 H2].
    assert (r < i)%nat as Hr.
    { apply lookup_lt_Some in Ha. destruct Wf as [Hl _]. simpl in Hl. lia. }
    by rewrite (proj2 (Nat.ltb_lt r i)) in H1, H2 by done.
  - cbn [seq for_each]. rewrite bind_run.
    destruct (well_formed_row _ _ _ i Wf ltac:(lia)) as (a & Ha & Ba).
    simpl in Ha.
    destruct (Hinv i a Ha) as [Hmi Hvi].
    rewrite Nat.ltb_irrefl in Hmi, Hvi. simpl in Hmi, Hvi.
    destruct (Hinv currentRow b Hb) as [Hmc Hvc].
    assert (hit col currentRow currentRow b = false) as Hhc
      by (unfold hit; by rewrite Nat.eqb_refl).
    rewrite Hhc, andb_false_r in Hmc, Hvc.
    assert (bits cols b) as Bb.
    { destruct Wf as (_ & Hrows & _). by eapply Forall_lookup_1. }
    pose proof Wf as (_ & _ & Bv). pose proof Wfi as (_ & _ & Bvi).
    simpl in Bv, Bvi.
    assert (forall m1 v1,
      well_formed rows cols (m1, v1) ->
      (forall r a0, m !! r = Some a0 ->
         m1 !! r = Some (if (r <? S i)%nat && hit col currentRow r a0
                         then vxor a0 b else a0) /\
         js_get v1 r = if (r <? S i)%nat && hit col currentRow r a0
                       then js_xor (js_get v r) (js_get v currentRow)
                       else js_get v r) ->
      exists m' v',
        for_each (seq (S i) n) (fun row =>
          if negb (Nat.eqb row currentRow) then
            x ← m_get value_mem row col;
            if strict_eq x 1 then
              _ ← xor_row value_mem cols col currentRow row;
              a ← v_get value_mem row;
              b ← v_get value_mem currentRow;
              v_set value_mem row (js_xor a b)
            else mret tt
          else mret tt) (m1, v1) = Some (tt, (m', v')) /\
        well_formed rows cols (m', v') /\
        forall r a, m !! r = Some a ->
          m' !! r = Some (if hit col currentRow r a then vxor a b else a) /\
          js_get v' r = if hit col currentRow r a
                        then js_xor (js_get v r) (js_get v currentRow)
                        else js_get v r) as Hnext.
    { intros m1 v1 W1 H1. apply (IH (S i) m1 v1); (done || lia). }
    assert (forall r a0, m !! r = Some a0 -> r <> i ->
              (r <? S i)%nat && hit col currentRow r a0
              = (r <? i)%nat && hit col currentRow r a0) as Hother.
    { intros r a0 _ Hne. f_equal.
      destruct (decide (r < i)%nat).
      - by rewrite (proj2 (Nat.ltb_lt r (S i))), (proj2 (Nat.ltb_lt r i)) by lia.
      - by rewrite (proj2 (Nat.ltb_ge r (S i))), (proj2 (Nat.ltb_ge r i)) by lia. }
    assert (hit col currentRow i a = false ->
            forall r a0, m !! r = Some a0 ->
              (r <? S i)%nat && hit col currentRow r a0
              = (r <? i)%nat && hit col currentRow r a0) as Hsame.
    { intros Hh r a0 Ha0. destruct (decide (r = i)) as [->|Hne];
        [|by apply Hother].
      replace a0 with a by congruence. by rewrite Hh, !andb_false_r. }
    destruct (negb (i =? currentRow)%nat) eqn:Hic.
    + rewrite bind_run, (m_get_run (mi, vi) i a) by done.
      destruct (strict_eq (js_get a col) 1) eqn:Hone.
      * (* the row is hit *)
        rewrite bind_run.
        rewrite (xor_row_run cols col currentRow i mi vi a b); try done.
        2:{ intros ->. by rewrite Nat.eqb_refl in Hic. }
        rewrite bind_run. cbn [v_get value_mem fst snd].
        rewrite bind_run. cbn [v_set value_mem fst snd].
        rewrite Hvi, Hvc.
        assert (is_bit (js_xor (js_get v i) (js_get v currentRow)) = true) as Hx.
        { apply js_xor_bit; eapply (bits_get rows); (done || lia). }
        apply Hnext.
        { apply well_formed_set_vector; [|lia|done].
          apply well_formed_insert_row; [done|by apply vxor_bits]. }
        intros r a0 Ha0. destruct (decide (r = i)) as [->|Hne].
        -- replace a0 with a by congruence.
           assert (hit col currentRow i a = true) as ->
             by (unfold hit; by rewrite Hic, Hone).
           rewrite (proj2 (Nat.ltb_lt i (S i))) by lia. simpl. split.
           ++ apply list_lookup_insert_eq. by eapply lookup_lt_Some.
           ++ destruct Bvi as [Lvi _].
              rewrite js_set_in_range, js_get_insert by (done || lia).
              by rewrite decide_True.
        -- rewrite (Hother r a0 Ha0 Hne). destruct (Hinv r a0 Ha0) as [H1 H2].
           split; [by rewrite list_lookup_insert_ne|].
           destruct Bvi as [Lvi _].
           rewrite js_set_in_range, js_get_insert by (done || lia).
           by rewrite decide_False.
      * apply Hnext; [done|]. intros r a0 Ha0.
        rewrite (Hsame ltac:(unfold hit; by rewrite Hone, andb_false_r) r a0 Ha0).
        by apply Hinv.
    + apply Hnext; [done|]. intros r a0 Ha0.
      rewrite (Hsame ltac:(unfold hit; by rewrite Hic) r a0 Ha0).
      by apply Hinv.
Qed.

Lemma clear_column_run rows cols col currentRow m v b :
  (currentRow < rows)%nat -> m !! currentRow = Some b -> (col <= cols)%nat ->
  (forall k, (k < col)%nat -> js_get b k = Num 0) ->
  well_formed rows cols (m, v) ->
  exists m' v',
    clear_column value_mem rows cols col currentRow (m, v) = Some (tt, (m', v')) /\
    well_formed rows cols (m', v') /\
    forall r a, m !! r = Some a ->
      m' !! r = Some (if hit col currentRow r a then vxor a b else a) /\
      js_get v' r = if hit col currentRow r a
                    then js_xor (js_get v r) (js_get v currentRow)
                    else js_get v r.
Proof.
  intros Hc Hb Hcol Hz Wf. unfold clear_column.
  by apply (clear_column_loop rows cols col currentRow m v b rows 0 m v).
Qed.

Lemma solves_lookup rows cols m v x :
  well_formed rows cols (m, v) ->
  solves m v x <-> forall r a, m !! r = Some a -> overlap a x = js_get v r.
Proof.
  intros (Hl & _ & Bv). simpl in Hl, Bv. unfold solves.
  rewrite Forall2_same_length_lookup. split.
  - intros [_ H] r a Ha.
    assert (r < rows)%nat as Hr by (apply lookup_lt_Some in Ha; lia).
    destruct (bits_get _ _ _ Bv Hr) as [Hv _]. by apply (H r).
  - intros H. split; [destruct Bv; lia|]. intros r a b Ha Hb.
    assert (r < rows)%nat as Hr by (apply lookup_lt_Some in Ha; lia).
    destruct (bits_get _ _ _ Bv Hr) as [Hv _]. rewrite (H r a Ha). congruence.
Qed.

Lemma js_xor_cancel_r x y z :
  is_bit x = true -> is_bit y = true -> is_bit z = true ->
  js_xor x z = js_xor y z -> x = y.
Proof.
  intros [->| ->]%is_bit_cases [->| ->]%is_bit_cases [->| ->]%is_bit_cases;
    done.
Qed.

(** Adding the pivot equation to other equations keeps the solutions. *)
Lemma clear_column_solves rows cols col currentRow m v m' v' b x :
  (currentRow < rows)%nat -> m !! currentRow = Some b ->
  well_formed rows cols (m, v) -> well_formed rows cols (m', v') ->
  (forall r a, m !! r = Some a ->
     m' !! r = Some (if hit col currentRow r a then vxor a b else a) /\
     js_get v' r = if hit col currentRow r a
                   then js_xor (js_get v r) (js_get v currentRow)
                   else js_get v r) ->
  bits cols x ->
  solves m' v' x <-> solves m v x.
Proof.
  intros Hc Hb Wf Wf' Hspec Bx.
  rewrite (solves_lookup rows cols m' v') by done.
  rewrite (solves_lookup rows cols m v) by done.
  assert (hit col currentRow currentRow b = false) as Hhc
    by (unfold hit; by rewrite Nat.eqb_refl).
  assert (bits cols b) as Bb.
  { destruct Wf as (_ & Hrows & _). by eapply Forall_lookup_1. }
  pose proof Wf as (Hl & Hrows & Bv). simpl in Hl, Hrows, Bv.
  split.
  - intros H.
    assert (overlap b x = js_get v currentRow) as Hcur.
    { destruct (Hspec currentRow b Hb) as [H1 H2]. rewrite Hhc in H1, H2.
      rewrite <- H2. by apply H. }
    intros r a Ha. destruct (Hspec r a Ha) as [H1 H2].
    specialize (H r _ H1). rewrite H2 in H.
    destruct (hit col currentRow r a); [|done].
    assert (bits cols a) as Ba by (by eapply Forall_lookup_1).
    assert (r < rows)%nat as Hr by (apply lookup_lt_Some in Ha; lia).
    rewrite (overlap_linear cols), Hcur in H by done.
    eapply js_xor_cancel_r; [| | |exact H].
    + by apply (overlap_bit cols).
    + by eapply (bits_get rows).
    + by eapply (bits_get rows).
  - intros H r a' Ha'.
    assert (r < rows)%nat as Hr.
    { apply lookup_lt_Some in Ha'. destruct Wf' as [Hl' _]. simpl in Hl'. lia. }
    destruct (lookup_lt_is_Some_2 m r) as [a Ha]; [lia|].
    destruct (Hspec r a Ha) as [H1 H2]. rewrite H1 in Ha'.
    injection Ha' as <-. rewrite H2.
    assert (bits cols a) as Ba by (by eapply Forall_lookup_1).
    destruct (hit col currentRow r a); [|by apply H].
    rewrite (overlap_linear cols) by done.
    by rewrite (H r a Ha), (H currentRow b Hb).
Qed.

Lemma swapped_involutive c p r : swapped c p (swapped c p r) = r.
Proof. unfold swapped. repeat case_decide; congruence. Qed.

Lemma swap_rows_run rows cols currentRow pivotRow m v :
  (currentRow < rows)%nat -> (pivotRow < rows)%nat ->
  well_formed rows cols (m, v) ->
  exists m' v',
    swap_rows value_mem currentRow pivotRow (m, v) = Some (tt, (m', v')) /\
    well_formed rows cols (m', v') /\
    forall r, (r < rows)%nat ->
      m' !! r = m !! swapped currentRow pivotRow r /\
      js_get v' r = js_get v (swapped currentRow pivotRow r).
Proof.
  intros Hc Hp Wf. pose proof Wf as (Hl & Hrows & Bv). simpl in Hl, Hrows, Bv.
  destruct (well_formed_row _ _ _ currentRow Wf Hc) as (rc & Hrc & Brc).
  destruct (well_formed_row _ _ _ pivotRow Wf Hp) as (rp & Hrp & Brp).
  simpl in Hrc, Hrp. unfold swap_rows.
  rewrite bind_run, (m_swap_run (m, v) currentRow pivotRow rc rp) by done.
  rewrite bind_run. cbn [v_get value_mem fst snd].
  rewrite bind_run. rewrite bind_run. cbn [v_set value_mem fst snd].
  destruct (bits_get _ _ _ Bv Hc) as [_ Bvc].
  destruct (bits_get _ _ _ Bv Hp) as [_ Bvp].
  pose proof (js_set_bits _ _ currentRow _ Bv Hc Bvp) as Bv1.
  pose proof (js_set_bits _ _ pivotRow _ Bv1 Hp Bvc) as Bv2.
  eexists _, _. split; [reflexivity|]. split.
  - split; [simpl; by rewrite !length_insert|]. split; [|done]. simpl.
    apply Forall_insert; [|done]. by apply Forall_insert.
  - intros r Hr. unfold swapped. pose proof Bv as [Lv _]. pose proof Bv1 as [Lv1 _].
    rewrite (js_set_in_range _ pivotRow) by lia.
    rewrite (js_set_in_range _ currentRow) by lia.
    rewrite js_get_insert by (done || (rewrite length_insert; lia)).
    rewrite js_get_insert by (done || lia).
    destruct (decide (r = pivotRow)) as [->|Hrp'].
    + rewrite list_lookup_insert_eq by (rewrite length_insert; lia).
      destruct (decide (pivotRow = currentRow)) as [->|]; [|done].
      split; congruence.
    + rewrite list_lookup_insert_ne by done.
      destruct (decide (r = currentRow)) as [->|Hrc'].
      * by rewrite list_lookup_insert_eq by lia.
      * by rewrite list_lookup_insert_ne.
Qed.

(** Exchanging two equations keeps the solutions. *)
Lemma swap_solves rows cols currentRow pivotRow m v m' v' x :
  (currentRow < rows)%nat -> (pivotRow < rows)%nat ->
  well_formed rows cols (m, v) -> well_formed rows cols (m', v') ->
  (forall r, (r < rows)%nat ->
     m' !! r = m !! swapped currentRow pivotRow r /\
     js_get v' r = js_get v (swapped currentRow pivotRow r)) ->
  solves m' v' x <-> solves m v x.
Proof.
  intros Hc Hp Wf Wf' Hspec.
  rewrite (solves_lookup rows cols m' v') by done.
  rewrite (solves_lookup rows cols m v) by done.
  assert (forall r, (r < rows)%nat -> (swapped currentRow pivotRow r < rows)%nat)
    as Hlt by (intros r Hr; unfold swapped; repeat case_decide; lia).
  pose proof Wf as (Hl & _). pose proof Wf' as (Hl' & _). simpl in Hl, Hl'.
  split.
  - intros H r a Ha.
    assert (r < rows)%nat as Hr by (apply lookup_lt_Some in Ha; lia).
    destruct (Hspec _ (Hlt r Hr)) as [H1 H2].
    rewrite swapped_involutive in H1, H2. rewrite <- H2. apply H. congruence.
  - intros H r a Ha.
    assert (r < rows)%nat as Hr by (apply lookup_lt_Some in Ha; lia).
    destruct (Hspec r Hr) as [H1 H2]. rewrite H2. apply H. congruence.
Qed.

Lemma find_pivot_run rows cols col s candidates :
  well_formed rows cols s -> (col < cols)%nat ->
  Forall (fun r => r < rows)%nat candidates ->
  exists p,
    find_pivot value_mem rows col candidates s = Some (p, s) /\
    ((p = rows /\ forall r, In r candidates -> entry s.1 r col = Num 0) \/
     (In p candidates /\ entry s.1 p col = Num 1)).
Proof.
  intros Wf Hcol. induction 1 as [|r candidates Hr _ (p & Hrun & Hp)].
  - exists rows. split; [done|]. left. split; [done|]. intros r [].
  - destruct (well_formed_row _ _ _ r Wf Hr) as (a & Ha & Ba).
    destruct (bits_get _ _ _ Ba Hcol) as [_ Hbit].
    cbn [find_pivot]. rewrite bind_run, (m_get_run s r a) by done.
    destruct (strict_eq (js_get a col) 0) eqn:Hz.
    + exists p. split; [done|]. destruct Hp as [[-> Hall]|[Hin Hone]].
      * left. split; [done|]. intros r' [<-|Hr']; [|by apply Hall].
        rewrite (entry_lookup _ _ _ _ Ha). by apply strict_eq_zero.
      * right. split; [by right|done].
    + exists r. split; [done|]. right. split; [by left|].
      rewrite (entry_lookup _ _ _ _ Ha). by apply bit_not_zero.
Qed.

(** ** The forward pass keeps the solutions and builds the pivots *)

Section ForwardPass.
Variables rows cols : nat.
Variables (m0 : list (list cell)) (v0 : list cell).

Lemma forward_skip col currentRow pivotColumns s :
  forward_inv rows cols m0 v0 col currentRow pivotColumns s ->
  (col < cols)%nat ->
  (forall r, In r (seq currentRow (rows - currentRow)) ->
             entry s.1 r col = Num 0) ->
  forward_inv rows cols m0 v0 (S col) currentRow pivotColumns s.
Proof.
  intros (Wf & Hc & Hcol & Hlen & Hsol & Hclr & Hpiv) Hlt Hzero.
  split; [done|]. split; [done|]. split; [lia|]. split; [done|].
  split; [done|]. split.
  - intros r k Hr Hk. destruct (decide (k = col)) as [->|Hne].
    + apply Hzero, in_seq. lia.
    + apply Hclr; [done|lia].
  - intros r Hr. destruct (Hpiv r Hr) as (c & Hcc & Hp & Hat).
    exists c. split; [lia|done].
Qed.

Lemma swap_keeps_inv col currentRow pivotRow pivotColumns m v m' v' :
  forward_inv rows cols m0 v0 col currentRow pivotColumns (m, v) ->
  (currentRow <= pivotRow < rows)%nat ->
  well_formed rows cols (m', v') ->
  (forall r, (r < rows)%nat ->
     m' !! r = m !! swapped currentRow pivotRow r /\
     js_get v' r = js_get v (swapped currentRow pivotRow r)) ->
  forward_inv rows cols m0 v0 col currentRow pivotColumns (m', v') /\
  forall k, entry m' currentRow k = entry m pivotRow k.
Proof.
  intros (Wf & Hc & Hcol & Hlen & Hsol & Hclr & Hpiv) Hp Wf' Hspec.
  simpl in Hsol, Hclr, Hpiv.
  assert (forall r k, (r < rows)%nat ->
            entry m' r k = entry m (swapped currentRow pivotRow r) k) as He.
  { intros r k Hr. unfold entry. by rewrite (proj1 (Hspec r Hr)). }
  split.
  - split; [done|]. split; [done|]. split; [done|]. split; [done|].
    cbn [fst snd]. split; [|split].
    + intros x Bx. rewrite <- (Hsol x Bx).
      apply (swap_solves rows cols currentRow pivotRow); (done || lia).
    + intros r k Hr Hk. rewrite He by lia. apply Hclr; [|done].
      unfold swapped. repeat case_decide; lia.
    + intros r Hr. destruct (Hpiv r Hr) as (c & Hcc & Hpc & [Hone Hz]).
      exists c. split; [done|]. split; [done|]. split.
      * rewrite He by lia. unfold swapped.
        rewrite !decide_False by lia. done.
      * intros r' Hr' Hne. rewrite He by done. apply Hz.
        -- unfold swapped. repeat case_decide; lia.
        -- unfold swapped. repeat case_decide; lia.
  - intros k. rewrite He by lia. unfold swapped. by rewrite decide_True.
Qed.

Lemma clear_entry col currentRow m v m' v' b r k :
  well_formed rows cols (m, v) -> m !! currentRow = Some b ->
  (forall r a, m !! r = Some a ->
     m' !! r = Some (if hit col currentRow r a then vxor a b else a) /\
     js_get v' r = if hit col currentRow r a
                   then js_xor (js_get v r) (js_get v currentRow)
                   else js_get v r) ->
  (r < rows)%nat -> (k < cols)%nat ->
  exists a, m !! r = Some a /\
    entry m' r k = if hit col currentRow r a
                   then js_xor (entry m r k) (entry m currentRow k)
                   else entry m r k.
Proof.
  intros Wf Hb Hspec Hr Hk.
  destruct (well_formed_row _ _ _ r Wf Hr) as (a & Ha & Ba). simpl in Ha.
  assert (bits cols b) as Bb.
  { destruct Wf as (_ & Hrows & _). by eapply Forall_lookup_1. }
  exists a. split; [done|]. destruct (Hspec r a Ha) as [H1 _].
  rewrite (entry_lookup _ _ _ _ H1), (entry_lookup _ _ _ _ Ha),
    (entry_lookup _ _ _ _ Hb).
  destruct (hit col currentRow r a); [|done]. by apply (vxor_get cols).
Qed.

Lemma clear_advances col currentRow pivotColumns m v m' v' b :
  forward_inv rows cols m0 v0 col currentRow pivotColumns (m, v) ->
  (currentRow < rows)%nat -> (col < cols)%nat ->
  m !! currentRow = Some b -> js_get b col = Num 1 ->
  well_formed rows cols (m', v') ->
  (forall r a, m !! r = Some a ->
     m' !! r = Some (if hit col currentRow r a then vxor a b else a) /\
     js_get v' r = if hit col currentRow r a
                   then js_xor (js_get v r) (js_get v currentRow)
                   else js_get v r) ->
  forward_inv rows cols m0 v0 (S col) (S currentRow)
    (<[currentRow:=Z.of_nat col]> pivotColumns) (m', v').
Proof.
  intros (Wf & Hc & Hcol & Hlen & Hsol & Hclr & Hpiv) Hcr Hlt Hb Hone Wf' Hspec.
  simpl in Hsol, Hclr, Hpiv.
  assert (forall k, entry m currentRow k = js_get b k) as Hcur
    by (intros k; by apply entry_lookup).
  assert (forall r a, m !! r = Some a -> (r < rows)%nat ->
            hit col currentRow r a = false -> r <> currentRow ->
            entry m r col = Num 0) as Hnot.
  { intros r a Ha Hr Hh Hne. rewrite (entry_lookup _ _ _ _ Ha).
    unfold hit in Hh. rewrite (proj2 (Nat.eqb_neq r currentRow)) in Hh by done.
    simpl in Hh. apply bit_not_one; [|done].
    assert (bits cols a) as Ba.
    { destruct Wf as (_ & Hrows & _). by eapply Forall_lookup_1. }
    by eapply (bits_get cols). }
  assert (forall r a, m !! r = Some a -> hit col currentRow r a = true ->
            r <> currentRow /\ entry m r col = Num 1) as Hyes.
  { intros r a Ha Hh. unfold hit in Hh.
    apply andb_true_iff in Hh as [Hne Hh]. split.
    - intros ->. by rewrite Nat.eqb_refl in Hne.
    - rewrite (entry_lookup _ _ _ _ Ha). by apply strict_eq_one. }
  split; [done|]. split; [lia|]. split; [lia|].
  split; [by rewrite length_insert|]. cbn [fst snd]. split; [|split].
  - intros x Bx. rewrite <- (Hsol x Bx).
    by apply (clear_column_solves rows cols col currentRow m v m' v' b).
  - intros r k Hr Hk.
    destruct (clear_entry col currentRow m v m' v' b r k Wf Hb Hspec)
      as (a & Ha & ->); [lia..|].
    destruct (hit col currentRow r a) eqn:Hh.
    + destruct (Hyes r a Ha Hh) as [Hne Hrc].
      destruct (decide (k = col)) as [->|Hkc].
      * by rewrite Hrc, Hcur, Hone.
      * by rewrite !Hclr by lia.
    + destruct (decide (k = col)) as [->|Hkc].
      * apply (Hnot r a); (done || lia).
      * apply Hclr; lia.
  - intros r Hr. destruct (decide (r = currentRow)) as [->|Hne].
    + exists col. split; [lia|].
      split; [apply list_lookup_insert_eq; lia|]. split.
      * destruct (clear_entry col currentRow m v m' v' b currentRow col
                    Wf Hb Hspec) as (a & Ha & ->); [lia..|].
        replace a with b by congruence.
        assert (hit col currentRow currentRow b = false) as ->
          by (unfold hit; by rewrite Nat.eqb_refl).
        by rewrite Hcur.
      * intros r' Hr' Hne'.
        destruct (clear_entry col currentRow m v m' v' b r' col
                    Wf Hb Hspec) as (a & Ha & ->); [lia..|].
        destruct (hit col currentRow r' a) eqn:Hh.
        -- destruct (Hyes r' a Ha Hh) as [_ ->]. by rewrite Hcur, Hone.
        -- by apply (Hnot r' a).
    + destruct (Hpiv r ltac:(lia)) as (c & Hcc & Hpc & [Hpone Hz]).
      exists c. split; [lia|].
      split; [by rewrite list_lookup_insert_ne|].
      assert (entry m currentRow c = Num 0) as Hcz by (apply Hz; lia).
      assert (forall r', (r' < rows)%nat -> entry m' r' c = entry m r' c) as Hsame.
      { intros r' Hr'.
        destruct (clear_entry col currentRow m v m' v' b r' c Wf Hb Hspec)
          as (a & Ha & ->); [lia..|].
        destruct (hit col currentRow r' a); [|done]. rewrite Hcz.
        apply js_xor_zero_r.
        assert (bits cols a) as Ba.
        { destruct Wf as (_ & Hrows & _). by eapply Forall_lookup_1. }
        rewrite (entry_lookup _ _ _ _ Ha). eapply (bits_get cols); [done|lia]. }
      split.
      * rewrite Hsame by lia. done.
      * intros r' Hr' Hne'. rewrite Hsame by done. by apply Hz.
Qed.

Lemma forward_run n : forall col currentRow pivotColumns s,
  (col + n = cols)%nat ->
  forward_inv rows cols m0 v0 col currentRow pivotColumns s ->
  exists col' currentRow' pivotColumns' s',
    forward value_mem rows cols (seq col n) currentRow pivotColumns s
    = Some ((currentRow', pivotColumns'), s') /\
    forward_inv rows cols m0 v0 col' currentRow' pivotColumns' s' /\
    (col' = cols \/ currentRow' = rows).
Proof.
  induction n as [|n IH]; intros col currentRow pivotColumns s Hn Hinv.
  - exists col, currentRow, pivotColumns, s. split; [done|].
    split; [done|]. left. lia.
  - cbn [seq forward]. destruct (currentRow <? rows)%nat eqn:Hlt.
    2:{ apply Nat.ltb_ge in Hlt. exists col, currentRow, pivotColumns, s.
        split; [done|]. split; [done|]. right.
        destruct Hinv as (_ & Hc & _). lia. }
    apply Nat.ltb_lt in Hlt. pose proof Hinv as (Wf & _).
    destruct (find_pivot_run rows cols col s
                (seq currentRow (rows - currentRow)) Wf ltac:(lia))
      as (p & Hrun & Hp).
    { apply List.Forall_forall. intros r Hr%in_seq. lia. }
    rewrite bind_run, Hrun.
    destruct Hp as [[-> Hzero]|[Hin Hone]].
    + rewrite Nat.eqb_refl. apply IH; [lia|].
      apply forward_skip; [done|lia|done].
    + apply in_seq in Hin.
      rewrite (proj2 (Nat.eqb_neq p rows)) by lia.
      destruct s as [m v].
      assert (exists m1 v1,
        (if negb (p =? currentRow)%nat
         then swap_rows value_mem currentRow p else mret tt) (m, v)
        = Some (tt, (m1, v1)) /\
        forward_inv rows cols m0 v0 col currentRow pivotColumns (m1, v1) /\
        entry m1 currentRow col = Num 1) as (m1 & v1 & Hswap & Hinv1 & Hone1).
      { destruct (p =? currentRow)%nat eqn:Hpc.
        - apply Nat.eqb_eq in Hpc as ->. by exists m, v.
        - destruct (swap_rows_run rows cols currentRow p m v)
            as (m1 & v1 & Hsw & Wf1 & Hspec); [lia|lia|done|].
          exists m1, v1. split; [done|].
          destruct (swap_keeps_inv col currentRow p pivotColumns m v m1 v1)
            as [Hinv1 He]; [done|lia|done|done|].
          split; [done|]. by rewrite He. }
      rewrite bind_run, Hswap. rewrite bind_run.
      pose proof Hinv1 as (Wf1 & _ & _ & _ & _ & Hclr1 & _).
      destruct (well_formed_row _ _ _ currentRow Wf1 Hlt) as (b & Hb & Bb).
      simpl in Hb, Hclr1.
      destruct (clear_column_run rows cols col currentRow m1 v1 b)
        as (m2 & v2 & Hclear & Wf2 & Hspec); [done|done|lia| |done|].
      { intros k Hk. rewrite <- (entry_lookup _ _ _ _ Hb).
        apply Hclr1; lia. }
      rewrite Hclear. apply IH; [lia|].
      apply (clear_advances col currentRow pivotColumns m1 v1 m2 v2 b);
        try done; [lia|]. by rewrite <- (entry_lookup _ _ _ _ Hb).
Qed.
End ForwardPass.

(** ** The check and the back-substitution *)

Lemma every_zero_row cols a :
  bits cols a -> (forall k, (k < cols)%nat -> js_get a k = Num 0) ->
  every (fun v => strict_eq v 0) a = true.
Proof.
  intros Ba Hz. unfold every. apply forallb_forall. intros x Hx.
  apply list_elem_of_In, list_elem_of_lookup in Hx as [k Hk].
  assert (k < cols)%nat as Hlt.
  { apply lookup_lt_Some in Hk. destruct Ba. lia. }
  destruct (bits_get _ _ _ Ba Hlt) as [Hg _]. rewrite (Hz k Hlt) in Hg.
  replace x with (Num 0) by congruence. done.
Qed.

Lemma inconsistent_run rows cols s rows_left :
  well_formed rows cols s ->
  Forall (fun r => r < rows)%nat rows_left ->
  (forall r k, In r rows_left -> (k < cols)%nat -> entry s.1 r k = Num 0) ->
  exists bad,
    inconsistent value_mem rows_left s = Some (bad, s) /\
    (bad = true -> exists r, In r rows_left /\ js_get s.2 r = Num 1) /\
    (bad = false -> forall r, In r rows_left -> js_get s.2 r = Num 0).
Proof.
  intros Wf Hall. induction Hall as [|r rows_left Hr _ IH]; intros Hz.
  - exists false. split; [done|]. split; [done|]. intros _ r [].
  - destruct (well_formed_row _ _ _ r Wf Hr) as (a & Ha & Ba).
    pose proof Wf as (_ & _ & Bv).
    destruct (bits_get _ _ _ Bv Hr) as [_ Hbit].
    cbn [inconsistent]. rewrite bind_run, (m_every_zero_run s r a) by done.
    rewrite bind_run. cbn [v_get value_mem].
    rewrite (every_zero_row cols a Ba).
    2:{ intros k Hk. rewrite <- (entry_lookup _ _ _ _ Ha). apply Hz; [by left|done]. }
    cbn [andb]. destruct (strict_eq (js_get s.2 r) 1) eqn:Hone.
    + exists true. split; [done|]. split; [|done]. intros _. exists r.
      split; [by left|]. by apply strict_eq_one.
    + destruct IH as (bad & Hrun & Hbad & Hgood).
      { intros r' k Hr' Hk. apply Hz; [by right|done]. }
      exists bad. split; [done|]. split.
      * intros Hb. destruct (Hbad Hb) as (r' & Hr' & H1). exists r'.
        split; [by right|done].
      * intros Hb r' [<-|Hr']; [by apply bit_not_one|by apply Hgood].
Qed.

Lemma accumulate_run (s : value_state) row a solution columns : forall accum,
  s.1 !! row = Some a -> is_bit accum = true ->
  (forall k, In k columns -> js_get a k = Num 1 -> js_get solution k = Num 0) ->
  accumulate value_mem row columns solution accum s = Some (accum, s).
Proof.
  induction columns as [|k columns IH]; intros accum Ha Hacc Hz; [done|].
  cbn [accumulate]. rewrite bind_run, (m_get_run s row a) by done.
  destruct (strict_eq (js_get a k) 1) eqn:Hone.
  - rewrite (Hz k) by (by left || by apply strict_eq_one).
    rewrite js_xor_zero_r by done.
    apply IH; [done|done|]. intros k' Hk'. apply Hz. by right.
  - apply IH; [done|done|]. intros k' Hk'. apply Hz. by right.
Qed.

Section BackSubstitution.
Variables rows cols currentRow : nat.
Variable pivotColumns : list Z.
Variable s : value_state.
Hypothesis Wf : well_formed rows cols s.
Hypothesis Hcur : (currentRow <= rows)%nat.
Hypothesis Hpiv : pivots_ok rows cols currentRow pivotColumns s.1.

Lemma pivot_columns_differ r r' c c' :
  (r < currentRow)%nat -> (r' < currentRow)%nat -> r <> r' ->
  pivotColumns !! r = Some (Z.of_nat c) ->
  pivotColumns !! r' = Some (Z.of_nat c') -> c <> c'.
Proof using Hpiv Hcur.
  intros Hr Hr' Hne Hc Hc' ->.
  destruct (Hpiv r Hr) as (c1 & _ & H1 & [Hone _]).
  destruct (Hpiv r' Hr') as (c2 & _ & H2 & [_ Hz]).
  assert (c1 = c') as -> by (rewrite Hc in H1; injection H1; lia).
  assert (c2 = c') as -> by (rewrite Hc' in H2; injection H2; lia).
  rewrite Hz in Hone by (done || lia). discriminate Hone.
Qed.

Lemma back_substitute_run rows_down : forall done solution,
  NoDup rows_down ->
  (forall r, In r rows_down -> (r < currentRow)%nat /\ ~ In r done) ->
  (forall r, In r done -> (r < currentRow)%nat) ->
  back_inv cols pivotColumns s.2 done solution ->
  exists x,
    back_substitute value_mem cols pivotColumns rows_down solution s
    = Some (x, s) /\
    back_inv cols pivotColumns s.2 (rev rows_down ++ done) x.
Proof using Wf Hpiv Hcur.
  induction rows_down as [|r rows_down IH];
    intros done solution Hnd Hrows Hdone Hinv.
  - exists solution. split; [done|]. done.
  - apply NoDup_cons in Hnd as [Hnotin Hnd].
    destruct (Hrows r ltac:(by left)) as [Hr Hfresh].
    destruct (Hpiv r Hr) as (c & Hc & Hpc & [Hone Hz]).
    destruct (well_formed_row _ _ _ r Wf ltac:(lia)) as (a & Ha & Ba).
    pose proof Wf as (_ & _ & Bv).
    destruct (bits_get _ _ _ Bv (ltac:(lia) : (r < rows)%nat)) as [_ Hbit].
    destruct Hinv as (Bsol & Hset & Hones).
    cbn [back_substitute]. cbv zeta. rewrite Hpc. cbn [default from_option id].
    rewrite (proj2 (Z.eqb_neq (Z.of_nat c) (-1))) by lia.
    rewrite bind_run. cbn [v_get value_mem].
    rewrite bind_run.
    rewrite (accumulate_run s r a solution _ (js_get s.2 r) Ha Hbit).
    2:{ intros k Hk%in_seq Hak.
        assert (k < cols)%nat as Hkc by lia.
        destruct (bits_get _ _ _ Bsol Hkc) as [_ Hsb].
        destruct (is_bit_cases _ Hsb) as [H0|H1]; [done|].
        destruct (Hones k H1) as (r' & Hr' & Hpk).
        assert (r' <> r) as Hne by (intros ->; done).
        destruct (Hpiv r' (Hdone r' Hr')) as (c' & _ & Hpc' & [_ Hz']).
        assert (c' = k) as -> by (rewrite Hpk in Hpc'; injection Hpc'; lia).
        rewrite <- (entry_lookup _ _ _ _ Ha), Hz' in Hak by (done || lia).
        discriminate Hak. }
    replace (Z.to_nat (Z.of_nat c)) with c by lia.
    rewrite js_and_one_bit by done.
    pose proof Bsol as [Lsol _].
    destruct (IH (r :: done) (js_set solution c (js_get s.2 r)))
      as (x & Hrun & Hx).
    + done.
    + intros r' Hr'. destruct (Hrows r' ltac:(by right)) as [Hlt Hnd'].
      split; [done|]. intros [<-|Hd]; [|done].
      apply Hnotin. by apply list_elem_of_In.
    + intros r' [<-|Hr']; [done|by apply Hdone].
    + split; [by apply js_set_bits|]. split.
      * intros r' c' [<-|Hr'] Hpc'.
        -- assert (c' = c) as -> by (rewrite Hpc in Hpc'; injection Hpc'; lia).
           rewrite js_set_in_range, js_get_insert by (done || lia).
           by rewrite decide_True.
        -- assert (c <> c') as Hne.
           { apply (pivot_columns_differ r r'); try done.
             - by apply Hdone.
             - intros ->. done. }
           rewrite js_set_in_range, js_get_insert by (done || lia).
           rewrite decide_False by done. by apply Hset.
      * intros k. rewrite js_set_in_range, js_get_insert by (done || lia).
        destruct (decide (k = c)) as [->|Hne].
        -- intros _. exists r. split; [by left|done].
        -- intros H1. destruct (Hones k H1) as (r' & Hr' & Hpk).
           exists r'. split; [by right|done].
    + exists x. split; [done|]. cbn [rev]. by rewrite <- app_assoc.
Qed.
End BackSubstitution.

(** ** The solver is correct *)

Lemma overlap_cons h t y u :
  overlap (h :: t) (y :: u) = js_xor (js_and h y) (overlap t u).
Proof. reflexivity. Qed.

Lemma js_get_head h t : is_bit h = true -> js_get (h :: t) 0 = h.
Proof. by intros [->| ->]%is_bit_cases. Qed.

Lemma bits_cons_inv n h t :
  bits (S n) (h :: t) -> is_bit h = true /\ bits n t.
Proof.
  intros [Hl Hb]. simpl in Hl, Hb. apply andb_true_iff in Hb as [Hh Ht].
  split; [done|]. split; [lia|done].
Qed.

Lemma overlap_zero n : forall a x,
  bits n a -> bits n x ->
  (forall k, (k < n)%nat -> js_get a k = Num 0 \/ js_get x k = Num 0) ->
  overlap a x = Num 0.
Proof.
  induction n as [|n IH]; intros a x Ba Bx Hz.
  - destruct Ba as [La _], Bx as [Lx _]. by destruct a, x.
  - destruct a as [|h t]; [by destruct Ba|]. destruct x as [|y u]; [by destruct Bx|].
    apply bits_cons_inv in Ba as [Hh Bt]. apply bits_cons_inv in Bx as [Hy Bu].
    rewrite overlap_cons, (IH t u Bt Bu).
    + specialize (Hz 0%nat ltac:(lia)). rewrite !js_get_head in Hz by done.
      destruct Hz as [->| ->]; [by destruct (is_bit_cases _ Hy) as [->| ->]|].
      by destruct (is_bit_cases _ Hh) as [->| ->].
    + intros k Hk. apply (Hz (S k)). lia.
Qed.

Lemma overlap_single n : forall a x j,
  bits n a -> bits n x -> (j < n)%nat ->
  (forall k, (k < n)%nat -> k <> j -> js_get a k = Num 0 \/ js_get x k = Num 0) ->
  overlap a x = js_and (js_get a j) (js_get x j).
Proof.
  induction n as [|n IH]; intros a x j Ba Bx Hj Hz; [lia|].
  destruct a as [|h t]; [by destruct Ba|]. destruct x as [|y u]; [by destruct Bx|].
  apply bits_cons_inv in Ba as [Hh Bt]. apply bits_cons_inv in Bx as [Hy Bu].
  rewrite overlap_cons. destruct j as [|j].
  - rewrite (overlap_zero n t u Bt Bu).
    + rewrite !js_get_head by done.
      by destruct (is_bit_cases _ Hh) as [->| ->],
        (is_bit_cases _ Hy) as [->| ->].
    + intros k Hk. apply (Hz (S k)); lia.
  - rewrite (IH t u j Bt Bu ltac:(lia)).
    + change (js_get (h :: t) (S j)) with (js_get t j).
      change (js_get (y :: u) (S j)) with (js_get u j).
      destruct (bits_get _ _ _ Bt (ltac:(lia) : (j < n)%nat)) as [_ H1].
      destruct (bits_get _ _ _ Bu (ltac:(lia) : (j < n)%nat)) as [_ H2].
      specialize (Hz 0%nat ltac:(lia) ltac:(lia)).
      rewrite !js_get_head in Hz by done.
      destruct Hz as [->| ->].
      * by destruct (is_bit_cases _ Hy) as [->| ->],
          (is_bit_cases _ H1) as [->| ->], (is_bit_cases _ H2) as [->| ->].
      * by destruct (is_bit_cases _ Hh) as [->| ->],
          (is_bit_cases _ H1) as [->| ->], (is_bit_cases _ H2) as [->| ->].
    + intros k Hk Hne. apply (Hz (S k)); lia.
Qed.

Lemma js_get_filled_zero n k : js_get (filled n (Num 0)) k <> Num 1.
Proof.
  unfold js_get, filled. destruct (replicate n (Num 0) !! k) as [x|] eqn:E;
    [|done]. apply lookup_replicate_1 in E as [-> _]. done.
Qed.

Lemma eliminate_correct rows cols m v :
  well_formed rows cols (m, v) ->
  exists result s',
    eliminate value_mem rows cols (m, v) = Some (result, s') /\
    match result with
    | Some x => bits cols x /\ solves m v x
    | None => forall x, bits cols x -> ~ solves m v x
    end.
Proof.
  intros Wf.
  assert (forward_inv rows cols m v 0 0 (replicate rows (-1)) (m, v)) as Hinit.
  { split; [done|]. split; [lia|]. split; [lia|].
    split; [by rewrite length_replicate|]. split; [done|].
    split; [intros r k _ Hk; lia|intros r Hr; lia]. }
  destruct (forward_run rows cols m v cols 0 0 (replicate rows (-1)) (m, v))
    as (col' & currentRow & pivotColumns & [m' v'] & Hfwd & Hinv & Hend);
    [lia|done|].
  destruct Hinv as (Wf' & Hcur & Hcol & Hlen & Hsol & Hclr & Hpiv).
  cbn [fst snd] in Hsol, Hclr, Hpiv.
  assert (forall r k, In r (seq currentRow (rows - currentRow)) ->
            (k < cols)%nat -> entry m' r k = Num 0) as Hzero.
  { intros r k Hr%in_seq Hk. destruct Hend as [->| ->]; [|lia].
    apply Hclr; lia. }
  destruct (inconsistent_run rows cols (m', v')
              (seq currentRow (rows - currentRow)) Wf')
    as (bad & Hbad & Hyes & Hno); [|done|].
  { apply List.Forall_forall. intros r Hr%in_seq. lia. }
  unfold eliminate. rewrite bind_run, Hfwd. rewrite bind_run, Hbad.
  cbn [fst snd] in Hyes, Hno.
  destruct bad.
  - eexists None, _. split; [reflexivity|]. intros x Bx Hx.
    apply (Hsol x Bx) in Hx.
    rewrite (solves_lookup rows cols m' v') in Hx by done.
    destruct (Hyes eq_refl) as (r & Hr & H1). pose proof Hr as Hr'.
    apply in_seq in Hr'.
    destruct (well_formed_row _ _ _ r Wf' ltac:(lia)) as (a & Ha & Ba).
    simpl in Ha. specialize (Hx r a Ha). rewrite H1 in Hx.
    rewrite (overlap_zero cols a x Ba Bx) in Hx; [discriminate Hx|].
    intros k Hk. left. rewrite <- (entry_lookup _ _ _ _ Ha). by apply Hzero.
  - assert (pivots_ok rows cols currentRow pivotColumns m') as Hpiv'.
    { intros r Hr. destruct (Hpiv r Hr) as (c & Hc & Hrest). exists c.
      split; [lia|done]. }
    destruct (back_substitute_run rows cols currentRow pivotColumns (m', v')
                Wf' Hcur Hpiv' (rev (seq 0 currentRow)) []
                (filled cols (Num 0))) as (x & Hback & Bx & Hset & Hones).
    + apply NoDup_ListNoDup, List.NoDup_rev, List.seq_NoDup.
    + intros r Hr%in_rev%in_seq. split; [lia|]. intros [].
    + intros r [].
    + split; [apply bits_zero|]. split; [intros r c []|].
      intros k Hk. by apply js_get_filled_zero in Hk.
    + rewrite bind_run, Hback. eexists (Some x), _. split; [reflexivity|].
      split; [done|]. apply (Hsol x Bx).
      rewrite (solves_lookup rows cols m' v') by done.
      cbn [fst snd] in Hset, Hones.
      assert (forall r, In r (rev (rev (seq 0 currentRow)) ++ []) <->
                        (r < currentRow)%nat) as Hdone.
      { intros r. rewrite app_nil_r, rev_involutive, in_seq. lia. }
      intros r a Ha.
      assert (r < rows)%nat as Hr.
      { apply lookup_lt_Some in Ha. destruct Wf' as [Hl _]. simpl in Hl. lia. }
      assert (bits cols a) as Ba.
      { destruct Wf' as (_ & Hrows & _). by eapply Forall_lookup_1. }
      pose proof Wf' as (_ & _ & Bv'). cbn [snd] in Bv'.
      destruct (bits_get _ _ _ Bv' Hr) as [_ Hvbit].
      destruct (decide (r < currentRow)%nat) as [Hlt|Hge].
      * destruct (Hpiv' r Hlt) as (c & Hc & Hpc & [Hone Hz]).
        rewrite (overlap_single cols a x c Ba Bx Hc).
        -- rewrite <- (entry_lookup _ _ _ _ Ha), Hone.
           rewrite (Hset r c (proj2 (Hdone r) Hlt) Hpc).
           by destruct (is_bit_cases _ Hvbit) as [->| ->].
        -- intros k Hk Hne.
           destruct (bits_get _ _ _ Bx Hk) as [_ Hxb].
           destruct (is_bit_cases _ Hxb) as [H0|H1]; [by right|]. left.
           destruct (Hones k H1) as (r' & Hr' & Hpk). apply Hdone in Hr'.
           destruct (Hpiv' r' Hr') as (c' & _ & Hpc' & [_ Hz']).
           assert (c' = k) as -> by (rewrite Hpk in Hpc'; injection Hpc'; lia).
           rewrite <- (entry_lookup _ _ _ _ Ha). apply Hz'; [done|].
           intros ->. rewrite Hpc in Hpk. injection Hpk. lia.
      * rewrite (overlap_zero cols a x Ba Bx).
        -- symmetry. apply (Hno eq_refl), in_seq. lia.
        -- intros k Hk. left. rewrite <- (entry_lookup _ _ _ _ Ha).
           apply Hzero; [|done]. apply in_seq. lia.
Qed.

Lemma gauss_values_correct cols m v :
  m <> [] -> Forall (bits cols) m -> bits (length m) v ->
  match gauss_values m v with
  | Some (Some x) => bits cols x /\ solves m v x
  | Some None => forall x, bits cols x -> ~ solves m v x
  | None => False
  end.
Proof.
  intros Hne Hm Hv. unfold gauss_values. destruct m as [|first rest]; [done|].
  assert (length first = cols) as ->.
  { apply Forall_cons in Hm as [[Hl _] _]. done. }
  assert (map spread (first :: rest) = first :: rest) as ->.
  { clear Hne Hv. induction Hm as [|a l Ha _ IH]; [done|].
    cbn [map]. by rewrite (bits_spread cols a Ha), IH. }
  rewrite (bits_spread _ _ Hv).
  destruct (eliminate_correct (length (first :: rest)) cols (first :: rest) v)
    as (result & s' & -> & Hres); [by split|].
  exact Hres.
Qed.

(** X21. The solver is correct on every system of equations over bits:
    given a matrix of at least one row, all rows of the same length, and
    a vector with one entry per row, it does not throw; an array it
    returns has one entry per column and solves the system; and when it
    returns [null] the system has no solution. *)
Theorem solver_correct (h : store) (inputMatrix inputVector : loc) (cols : nat)
    (rows : list (list cell)) (v : list cell) :
  holds_matrix h inputMatrix rows -> holds_vector h inputVector v ->
  rows <> [] -> Forall (bits cols) rows -> bits (length rows) v ->
  match fst <$> gaussianEliminationGF2 inputMatrix inputVector h with
  | Some (Some x) => bits cols x /\ solves rows v x
  | Some None => forall x, bits cols x -> ~ solves rows v x
  | None => False
  end.
Proof.
  intros Hm Hv. rewrite (solve_any_store h inputMatrix inputVector rows v Hm Hv).
  rewrite solve_values. apply gauss_values_correct.
Qed.

Lemma solver_correct_witness :
  match fst <$> gaussianEliminationGF2 2%nat 3%nat
                  [Nums [Num 1; Num 1]; Nums [Num 0; Num 1];
                   Refs [0%nat; 1%nat]; Nums [Num 1; Num 1]] with
  | Some (Some x) =>
      bits 2 x /\ solves [[Num 1; Num 1]; [Num 0; Num 1]] [Num 1; Num 1] x
  | Some None =>
      forall x, bits 2 x ->
                ~ solves [[Num 1; Num 1]; [Num 0; Num 1]] [Num 1; Num 1] x
  | None => False
  end.
Proof.
  apply (solver_correct _ 2%nat 3%nat 2
           [[Num 1; Num 1]; [Num 0; Num 1]] [Num 1; Num 1]).
  - exists [0%nat; 1%nat]. split; [reflexivity|]. repeat constructor.
  - reflexivity.
  - discriminate.
  - repeat constructor.
  - split; reflexivity.
Defined.

(** ** The plan among the ways to clear a board *)

Lemma clearing_support l :
  NoDup l -> Forall (fun i => i < 23)%nat l ->
  exists x, gauss_values toggleMatrix (toggle_all l zero_board) = Some (Some x) /\
            bits 25 x /\ Permutation (support x) l.
Proof.
  induction 1 as [|i l Hi Hnd IH]; intros Hall.
  - exists (filled 25 (Num 0)). split; [vm_compute; reflexivity|].
    split; [apply bits_zero|]. reflexivity.
  - apply Forall_cons in Hall as [Hlt Hall].
    destruct (IH Hall) as (x & Hx & Bx & Hperm).
    destruct (pattern_canonical i ltac:(lia)) as (e & He & _ & _ & Hu).
    rewrite (Hu Hlt) in He. clear Hu e.
    pose proof (unit_board_bits i ltac:(lia)) as Bu. apply is_board_bits in Bu.
    change (Z.to_nat BOARD_CELLS) with 25%nat in Bu.
    pose proof (gauss_values_linear toggleMatrix (pattern i)
                  (toggle_all l zero_board) (unit_board i) x
                  (pattern_board _) (toggle_all_board _ _ zero_board_bits)
                  He Hx) as Hnew.
    clear Hx He. exists (vxor (unit_board i) x).
    split; [by rewrite toggle_all_cons|]. clear Hnew.
    split; [by apply vxor_bits|].
    assert (js_get x i = Num 0) as Hzero.
    { destruct (bits_get _ _ _ Bx (ltac:(lia) : (i < 25)%nat)) as [_ Hb].
      destruct (is_bit_cases _ Hb) as [H0|H1]; [done|].
      apply (support_bits 25) in H1; [|done]. rewrite Hperm in H1. done. }
    rewrite (vxor_comm (unit_board i) x).
    rewrite (support_without (vxor x (unit_board i)) i).
    + constructor. rewrite (vxor_assoc 25), (vxor_self 25) by done.
      by rewrite (vxor_zero_r 25) by done.
    + by apply vxor_bits.
    + lia.
    + rewrite (vxor_get 25), Hzero, unit_board_get by (done || lia).
      by rewrite decide_True.
Qed.

(** X22. The plan is the only way to clear a board without the last two
    cells: a sequence of distinct cells below 23 whose toggles clear the
    board holds the cells of the plan. *)
Theorem plan_only_way (b : list cell) (p l : list nat) :
  is_board b -> computeSolution b = Some (Some p) ->
  NoDup l -> Forall (fun i => i < 23)%nat l ->
  toggle_all l b = zero_board ->
  Permutation l p.
Proof.
  intros Hb (x & Hx & ->)%computeSolution_plan Hnd Hall Hclear.
  rewrite solve_values in Hx.
  destruct (clearing_support l Hnd Hall) as (x' & Hx' & _ & Hperm).
  assert (b = toggle_all l zero_board) as Hbl.
  { pose proof (toggle_all_board l _ zero_board_bits) as Bt.
    rewrite toggle_all_vxor in Hclear by done.
    assert (vxor (vxor b (toggle_all l zero_board)) (toggle_all l zero_board) = b)
      as Hback.
    { rewrite (vxor_assoc 25), (vxor_self 25) by done. by apply (vxor_zero_r 25). }
    rewrite Hclear, vxor_comm in Hback. rewrite <- Hback.
    by apply (vxor_zero_r 25). }
  rewrite <- Hbl, Hx in Hx'. injection Hx' as <-.
  by rewrite plan_permutation.
Qed.

Lemma plan_only_way_witness : Permutation [12%nat] [12%nat].
Proof.
  apply (plan_only_way (toggleCell zero_board (Int 12)) [12%nat] [12%nat]).
  - split; reflexivity.
  - vm_compute. reflexivity.
  - repeat constructor. by intros ?%elem_of_nil.
  - repeat constructor.
  - vm_compute. reflexivity.
Defined.

(** X23. The plan is not always a shortest way to clear the board: a
    board that one move clears can have a plan of 15 moves. *)
Theorem plan_not_shortest :
  exists (b : list cell) (p l : list nat),
    is_board b /\ computeSolution b = Some (Some p) /\
    toggle_all l b = zero_board /\ length l = 1%nat /\ length p = 15%nat.
Proof.
  exists (pattern 23),
    [7; 11; 13; 17; 2; 10; 14; 22; 1; 3; 5; 9; 15; 19; 21]%nat, [23%nat].
  split; [apply pattern_board|]. split; [vm_compute; reflexivity|].
  split; [vm_compute; reflexivity|]. split; reflexivity.
Qed.

(** ** The system solved for a board is the game *)

Lemma overlap_comm a : forall q, overlap a q = overlap q a.
Proof.
  induction a as [|x a IH]; intros [|y q]; try reflexivity.
  rewrite !overlap_cons, IH. f_equal. unfold js_and. by rewrite Z.land_comm.
Qed.

Lemma solves_product m x : forall v,
  solves m v x <-> map (fun row => overlap row x) m = v.
Proof.
  unfold solves. induction m as [|row m IH]; intros v.
  - split; [by intros ->%Forall2_nil_inv_l|intros <-; constructor].
  - split.
    + intros (b & v' & <- & Hrest & ->)%Forall2_cons_inv_l.
      cbn [map]. f_equal. by apply IH.
    + intros <-. cbn [map]. constructor; [done|]. by apply IH.
Qed.

Lemma product_linear n m x y :
  Forall (bits n) m -> bits n x -> bits n y ->
  map (fun row => overlap row (vxor x y)) m
  = vxor (map (fun row => overlap row x) m) (map (fun row => overlap row y) m).
Proof.
  intros Hm Bx By. induction Hm as [|row m Hrow _ IH]; [done|].
  cbn [map]. rewrite IH. unfold vxor at 2 3. cbn [zip_with]. f_equal.
  rewrite !(overlap_comm row). by apply (overlap_linear n).
Qed.

(** Every array of 25 bits is a sum of boards with a single 1. *)
Lemma bits_induction (Q : list cell -> Prop) :
  Q zero_board ->
  (forall i x, (i < 25)%nat -> bits 25 x -> Q x -> Q (vxor (unit_board i) x)) ->
  forall x, bits 25 x -> Q x.
Proof.
  intros Hzero Hstep.
  assert (forall t k, (k + length t = 25)%nat -> forallb is_bit t = true ->
            Q (replicate k (Num 0) ++ t)) as H.
  { induction t as [|a t IH]; intros k Hk Ht.
    - simpl in Hk. rewrite app_nil_r. replace k with 25%nat by lia. exact Hzero.
    - simpl in Hk, Ht. apply andb_true_iff in Ht as [Ha Ht].
      assert (replicate (S k) (Num 0) ++ t = replicate k (Num 0) ++ Num 0 :: t) as E0.
      { rewrite replicate_S_end, <- app_assoc. done. }
      pose proof (IH (S k) ltac:(lia) Ht) as Hq. rewrite E0 in Hq.
      destruct (is_bit_cases _ Ha) as [->| ->]; [exact Hq|].
      assert (bits 25 (replicate k (Num 0) ++ Num 0 :: t)) as Bx.
      { split.
        - rewrite length_app, length_replicate. simpl. lia.
        - rewrite forallb_app. apply andb_true_iff. split; [|done].
          apply forallb_forall. intros x Hx%list_elem_of_In.
          by apply elem_of_replicate in Hx as [-> _]. }
      replace (replicate k (Num 0) ++ Num 1 :: t)
        with (vxor (unit_board k) (replicate k (Num 0) ++ Num 0 :: t));
        [apply Hstep; (done || lia)|].
      unfold unit_board, zero_board, filled.
      change (Z.to_nat BOARD_CELLS) with 25%nat.
      rewrite insert_replicate_lt by lia.
      unfold vxor. rewrite zip_with_app by (by rewrite !length_replicate).
      f_equal.
      + rewrite zip_with_replicate. done.
      + cbn [zip_with]. f_equal.
        change (vxor (replicate (25 - S k) (Num 0)) t = t).
        rewrite vxor_comm. apply (vxor_zero_r (25 - S k)). split; [lia|done]. }
  intros x [Hl Hb]. apply (H x 0%nat); [lia|done].
Qed.

Lemma units_system :
  forallb (fun i => bool_decide
     (toggle_all (support (unit_board i)) zero_board
      = map (fun row => overlap row (unit_board i)) toggleMatrix))
    (seq 0 25) = true.
Proof. vm_compute. reflexivity. Qed.

Lemma toggles_are_products x :
  bits 25 x ->
  toggle_all (support x) zero_board
  = map (fun row => overlap row x) toggleMatrix.
Proof.
  revert x. apply bits_induction.
  - vm_compute. reflexivity.
  - intros i x Hi Bx IH.
    pose proof (unit_board_bits i Hi) as Bu. apply is_board_bits in Bu.
    change (Z.to_nat BOARD_CELLS) with 25%nat in Bu.
    rewrite support_is_via, (support_via_linear id 25) by done.
    rewrite <- (support_is_via x), <- (support_is_via (unit_board i)), IH.
    rewrite (product_linear 25) by (done || apply toggleMatrix_shape).
    f_equal.
    pose proof (proj1 (forallb_forall _ _) units_system i) as H.
    cbv beta in H. specialize (H ltac:(apply in_seq; lia)).
    by apply bool_decide_eq_true in H.
Qed.

(** X24. The system that [computeSolution] hands to the solver is the
    game: an array of 25 bits solves the system of the toggle matrix for a
    board exactly when toggling the cells it sets turns the all-zero board
    into that board. *)
Theorem toggleMatrix_system (b x : list cell) :
  bits 25 x ->
  solves toggleMatrix b x <-> toggle_all (support x) zero_board = b.
Proof.
  intros Bx. rewrite solves_product. by rewrite <- toggles_are_products.
Qed.

Lemma toggleMatrix_system_witness :
  solves toggleMatrix (pattern 12) (unit_board 12)
  <-> toggle_all (support (unit_board 12)) zero_board = pattern 12.
Proof. apply (toggleMatrix_system (pattern 12) (unit_board 12)). split; reflexivity. Defined.
